(** * DataGlimpse: schema and relationship inference

    A shallow embedding of the inference code of the DataGlimpse
    repository and the properties its specification states about it:

    - [Schema]      dashboard/lib/schema.ts   ([inferSchema], [toSqlLiteral])
    - [CsvUtils]    lib/csvUtils.ts           ([inferColumns])
    - [Sqlite]      lib/sqlite.ts             ([guessAffinity], [coerceByAffinity], [importCsv])
    - [SqliteMeta]  er/services/sqliteMeta.ts ([getTablesMeta], [inferForeignKeys], [diceSim])
    - [BadgeHeuristics] er/services/badgeHeuristics.ts ([dice])
    - [Analytics]   dashboard/lib/analytics.ts ([inferFkEdges])

    Conventions of the embedding.
    - A JavaScript string is a [string]; every [ascii] is one code unit and
      the names and cell values are taken to be ASCII text.
    - A JavaScript number that is a count is a [nat] or a [Z]; a quotient of
      two counts is kept as the exact rational ([Q]).  The doubles the source
      computes compare the same way as long as the counts stay below 2^26.
    - The SQLite store is an interface ([Store.t]) of the queries the code
      sends; every function that talks to it runs in the monad [Store.M],
      which records the queries sent and stops at the first one that fails. *)

From Stdlib Require Import ZArith QArith String Ascii List Bool Lia Permutation.
From Stdlib Require Import DecimalString DecimalNat Sorted.
From stdpp Require Import base option list gmap strings.

Import ListNotations.
#[local] Set Warnings "-clear-no-such-hyp".
Local Open Scope string_scope.
Local Open Scope list_scope.

(** ** JavaScript strings *)

Module Js.

Definition code (c : ascii) : nat := nat_of_ascii c.

Definition inRange (lo hi : nat) (c : ascii) : bool :=
  Nat.leb lo (code c) && Nat.leb (code c) hi.

Definition isUpper : ascii -> bool := inRange 65 90.
Definition isLower : ascii -> bool := inRange 97 122.
Definition isDigit : ascii -> bool := inRange 48 57.

(** [\s] on ASCII: TAB, LF, VT, FF, CR and the space. *)
Definition isSpace (c : ascii) : bool := inRange 9 13 c || Nat.eqb (code c) 32.

(** The characters [.] does not match: LF and CR. *)
Definition isLineTerminator (c : ascii) : bool :=
  Nat.eqb (code c) 10 || Nat.eqb (code c) 13.

Definition lowerChar (c : ascii) : ascii :=
  if isUpper c then ascii_of_nat (code c + 32) else c.

(** [s.toLowerCase()] *)
Fixpoint toLowerCase (s : string) : string :=
  match s with
  | EmptyString => EmptyString
  | String c r => String (lowerChar c) (toLowerCase r)
  end.

Definition isEmpty (s : string) : bool :=
  match s with EmptyString => true | _ => false end.

Fixpoint dropWhileStart (p : ascii -> bool) (s : string) : string :=
  match s with
  | EmptyString => EmptyString
  | String c r => if p c then dropWhileStart p r else s
  end.

(** Removes the longest suffix made of characters of the class [p]:
    [s.replace(/[p]+$/, "")]. *)
Fixpoint dropWhileEnd (p : ascii -> bool) (s : string) : string :=
  match s with
  | EmptyString => EmptyString
  | String c r =>
      let r' := dropWhileEnd p r in
      if isEmpty r' && p c then EmptyString else String c r'
  end.

(** [s.trim()] *)
Definition trim (s : string) : string := dropWhileEnd isSpace (dropWhileStart isSpace s).

(** [s.replace(/[^p]/g, "")]: keeps the characters of the class [p]. *)
Fixpoint keep (p : ascii -> bool) (s : string) : string :=
  match s with
  | EmptyString => EmptyString
  | String c r => if p c then String c (keep p r) else keep p r
  end.

Fixpoint forallChars (p : ascii -> bool) (s : string) : bool :=
  match s with
  | EmptyString => true
  | String c r => p c && forallChars p r
  end.

(** [s.endsWith(suffix)]: [s] is the suffix, or what follows its first
    character ends with it. *)
Fixpoint endsWith (s suffix : string) : bool :=
  String.eqb s suffix
  || match s with
     | EmptyString => false
     | String _ r => endsWith r suffix
     end.

(** [s.slice(0, -k)] *)
Definition dropLast (k : nat) (s : string) : string :=
  substring 0 (String.length s - k) s.

(** A [Set] of strings listed in insertion order, as iteration sees it. *)
Definition setAdd (acc : list string) (x : string) : list string :=
  if existsb (String.eqb x) acc then acc else acc ++ [x].

Definition setOf (l : list string) : list string := fold_left setAdd l [].

Definition setHas (l : list string) (x : string) : bool := existsb (String.eqb x) l.

(** The values a cell of a parsed row can hold.  Of a native number the
    code only ever looks at [Number.isInteger(v)] and [String(v)], so a
    number is kept as exactly these two observations; any other value
    (a boolean, an object) is kept as its [String(v)]. *)
Inductive value : Type :=
| Undefined
| Null
| Str (s : string)
| Num (isInteger : bool) (text : string)
| Other (text : string).

(** [v == null] *)
Definition isNullish (v : value) : bool :=
  match v with Undefined | Null => true | _ => false end.

(** [String(v)] *)
Definition toString (v : value) : string :=
  match v with
  | Undefined => "undefined"
  | Null => "null"
  | Str s => s
  | Num _ t => t
  | Other t => t
  end.

(** [v ?? d] *)
Definition orElse (v d : value) : value := if isNullish v then d else v.

(** A row object: its own keys in the order [Object.keys] lists them. *)
Definition object : Type := list (string * value).

Definition keys (o : object) : list string := map fst o.

(** [o[k]] *)
Fixpoint get (o : object) (k : string) : value :=
  match o with
  | [] => Undefined
  | (k', v) :: r => if String.eqb k' k then v else get r k
  end.


Definition upperChar (c : ascii) : ascii :=
  if isLower c then ascii_of_nat (code c - 32) else c.

(** [s.toUpperCase()] *)
Fixpoint toUpperCase (s : string) : string :=
  match s with
  | EmptyString => EmptyString
  | String c r => String (upperChar c) (toUpperCase r)
  end.

(** [s.startsWith(prefix)] *)
Fixpoint startsWith (s prefix : string) : bool :=
  match prefix, s with
  | EmptyString, _ => true
  | String a p, String b r => Ascii.eqb a b && startsWith r p
  | String _ _, EmptyString => false
  end.

(** [s.includes(sub)] *)
Fixpoint includes (s sub : string) : bool :=
  startsWith s sub
  || match s with
     | EmptyString => false
     | String _ r => includes r sub
     end.

(** The text of a count inside a template literal: its decimal digits. *)
Definition decimal (n : nat) : string := NilEmpty.string_of_uint (Nat.to_uint n).

(** The double quote. *)
Definition dquote : ascii := ascii_of_nat 34.

(** [s.replace(/q/g, qq)]: every [q] is written twice. *)
Fixpoint doubleChar (q : ascii) (s : string) : string :=
  match s with
  | EmptyString => EmptyString
  | String c r =>
      if Ascii.eqb c q then String c (String c (doubleChar q r))
      else String c (doubleChar q r)
  end.


(** [Object.prototype.hasOwnProperty.call(o, k)] *)
Definition hasOwn (o : object) (k : string) : bool := existsb (String.eqb k) (keys o).

(** [l.slice(0, n)]: a negative [n] counts from the end. *)
Definition sliceTo {A} (n : Z) (l : list A) : list A :=
  if Z.ltb n 0 then firstn (Z.to_nat (Z.of_nat (length l) + n)) l
  else firstn (Z.to_nat n) l.

Fixpoint insertDescending {A} (key : A -> Z) (x : A) (l : list A) : list A :=
  match l with
  | [] => [x]
  | y :: r => if Z.ltb (key y) (key x) then x :: l else y :: insertDescending key x r
  end.

(** [l.sort((a, b) => key(b) - key(a))]; the sort is stable. *)
Definition sortDescending {A} (key : A -> Z) (l : list A) : list A :=
  fold_left (fun acc x => insertDescending key x acc) l [].


(** *** Numbers

    A double is kept by its value: a finite one by the reduced fraction it
    denotes (the zero of either sign is 0). *)
Inductive double : Type :=
| Finite (q : Q)
| Infinite (negative : bool)
| NaN.

(** The integer nearest to [n / d], the even one of two equally near
    ([0 <= n], [0 < d]). *)
Definition roundHalfEven (n d : Z) : Z :=
  let q := (n / d)%Z in
  match (2 * (n mod d) ?= d)%Z with
  | Lt => q
  | Gt => (q + 1)%Z
  | Eq => if Z.even q then q else (q + 1)%Z
  end.

(** The integer part of the binary logarithm of [n / d] ([0 < n], [0 < d]). *)
Definition binade (n d : Z) : Z :=
  let l := (Z.log2 n - Z.log2 d)%Z in
  if (d * 2 ^ Z.max 0 l <=? n * 2 ^ Z.max 0 (- l))%Z then l else (l - 1)%Z.

(** The double nearest to [q], the one of even mantissa of two equally
    near: 53 significant bits, multiples of 2^-1074 below 2^-1022, and
    infinite from 2^1024 - 2^970 on. *)
Definition toDouble (q : Q) : double :=
  let n := Z.abs (Qnum q) in
  let d := Z.pos (Qden q) in
  if (n =? 0)%Z then Finite 0
  else
    let e := Z.max (binade n d - 52) (-1074) in
    let m := if (0 <=? e)%Z then roundHalfEven n (d * 2 ^ e)
             else roundHalfEven (n * 2 ^ (- e)) d in
    let signed := if (Qnum q <? 0)%Z then (- m)%Z else m in
    if (1024 <=? Z.log2 m + e)%Z then Infinite (Qnum q <? 0)%Z
    else if (0 <=? e)%Z then Finite (inject_Z (signed * 2 ^ e))
    else Finite (Qred (signed # Z.to_pos (2 ^ (- e)))).

(** The longest run of digits at the head: the value of the digits read
    after [acc], their number, and what follows. *)
Fixpoint readDigits (acc : Z) (s : list ascii) : Z * nat * list ascii :=
  match s with
  | c :: r =>
      if isDigit c
      then let '(v, k, rest) := readDigits (10 * acc + Z.of_nat (code c - 48))%Z r in
           (v, S k, rest)
      else (acc, 0%nat, s)
  | [] => (acc, 0%nat, [])
  end.

Definition readSign (s : list ascii) : bool * list ascii :=
  match s with
  | c :: r =>
      if Ascii.eqb c "-"%char then (true, r)
      else if Ascii.eqb c "+"%char then (false, r)
      else (false, s)
  | [] => (false, [])
  end.

(** [m] times 10 to the [x], reduced. *)
Definition scale10 (m x : Z) : Q :=
  if (0 <=? x)%Z then inject_Z (m * 10 ^ x) else Qred (m # Z.to_pos (10 ^ (- x))).

(** The value of a decimal literal: a sign, digits with or without a
    point (one digit at least), an exponent. *)
Definition parseDecimal (s : list ascii) : option Q :=
  let '(neg, s1) := readSign s in
  let '(ip, ik, s2) := readDigits 0%Z s1 in
  let '(mant, fk, s3) :=
    match s2 with
    | c :: r => if Ascii.eqb c "."%char then readDigits ip r else (ip, 0%nat, s2)
    | [] => (ip, 0%nat, s2)
    end in
  if Nat.eqb (ik + fk) 0%nat then None
  else
    let signed := if neg then (- mant)%Z else mant in
    match s3 with
    | [] => Some (scale10 signed (- Z.of_nat fk))
    | c :: r =>
        if Ascii.eqb c "e"%char || Ascii.eqb c "E"%char then
          let '(eneg, r1) := readSign r in
          let '(ev, ek, r2) := readDigits 0%Z r1 in
          match ek, r2 with
          | S _, [] => Some (scale10 signed ((if eneg then - ev else ev) - Z.of_nat fk)%Z)
          | _, _ => None
          end
        else None
    end.

(** [Number(s)] on a decimal literal.  The code calls it on texts that
    match the integer or the real pattern only; the other texts [Number]
    reads (the empty text, surrounding white space, [Infinity], the
    hexadecimal, octal and binary literals) are not read here. *)
Definition toNumber (s : string) : double :=
  match parseDecimal (list_ascii_of_string s) with
  | Some q => toDouble q
  | None => NaN
  end.

(** The number an integer of the store is read as. *)
Definition ofZ (z : Z) : double := toDouble (inject_Z z).

(** [a < b]; a comparison with [NaN] is false. *)
Definition numLt (a b : double) : bool :=
  match a, b with
  | NaN, _ | _, NaN => false
  | Infinite true, Infinite true => false
  | Infinite true, _ => true
  | _, Infinite true => false
  | Infinite false, _ => false
  | _, Infinite false => true
  | Finite x, Finite y => negb (Qle_bool y x)
  end.

(** [a === b] on numbers. *)
Definition numEq (a b : double) : bool :=
  match a, b with
  | Finite x, Finite y => Qeq_bool x y
  | Infinite n, Infinite m => Bool.eqb n m
  | _, _ => false
  end.

(** [a > b] and [a >= b] *)
Definition numGt (a b : double) : bool := numLt b a.
Definition numGe (a b : double) : bool := numLt b a || numEq a b.

(** A number is truthy unless it is 0 or [NaN]. *)
Definition truthy (a : double) : bool :=
  match a with
  | Finite x => negb (Qeq_bool x 0)
  | Infinite _ => true
  | NaN => false
  end.

(** [a / b].  A zero has no sign here, so that a quotient by zero takes
    the sign of [a]. *)
Definition div (a b : double) : double :=
  match a, b with
  | NaN, _ | _, NaN => NaN
  | Infinite _, Infinite _ => NaN
  | Infinite n, Finite y => Infinite (xorb n (negb (Qle_bool 0 y)))
  | Finite _, Infinite _ => Finite 0
  | Finite x, Finite y =>
      if Qeq_bool y 0 then
        if Qeq_bool x 0 then NaN else Infinite (negb (Qle_bool 0 x))
      else toDouble (x / y)
  end.

Definition newline : ascii := ascii_of_nat 10.

Fixpoint spaces (n : nat) : string :=
  match n with
  | O => EmptyString
  | S k => String " "%char (spaces k)
  end.

End Js.

(** ** Regular expressions

    A pattern maps an input to the list of inputs that can remain after it
    has matched a prefix, in the order a backtracking matcher tries them.
    [test] is the anchored [/^...$/.test(s)]. *)

Module Re.

Definition t : Type := list ascii -> list (list ascii).

Definition eps : t := fun s => [s].

Definition cls (p : ascii -> bool) : t :=
  fun s => match s with
           | c :: r => if p c then [r] else []
           | [] => []
           end.

Definition chr (c : ascii) : t := cls (Ascii.eqb c).

Definition oneOf (cs : string) : t :=
  cls (fun c => existsb (Ascii.eqb c) (list_ascii_of_string cs)).

Definition seq (a b : t) : t := fun s => flat_map b (a s).

Definition alt (a b : t) : t := fun s => a s ++ b s.

(** [(?:a)?] *)
Definition opt (a : t) : t := alt a eps.

(** [[p]*], greedy *)
Fixpoint many (p : ascii -> bool) (s : list ascii) : list (list ascii) :=
  match s with
  | c :: r => if p c then many p r ++ [s] else [s]
  | [] => [[]]
  end.

(** [[p]+] *)
Definition many1 (p : ascii -> bool) : t := seq (cls p) (many p).

(** [a{n}] *)
Fixpoint rep (n : nat) (a : t) : t :=
  match n with
  | O => eps
  | S k => seq a (rep k a)
  end.

Definition cat (l : list t) : t := fold_right seq eps l.

Definition isNil (s : list ascii) : bool :=
  match s with [] => true | _ => false end.

Definition test (r : t) (s : string) : bool :=
  existsb isNil (r (list_ascii_of_string s)).

Definition digit : t := cls Js.isDigit.
Definition digits (n : nat) : t := rep n digit.

End Re.

(** The patterns shared by schema.ts and sqlite.ts. *)

Module Patterns.

Import Re.

(** [/^[+-]?\d+$/] *)
Definition intRe : Re.t := cat [opt (oneOf "+-"); many1 Js.isDigit].

(** [/^[+-]?(?:\d+\.\d*|\.\d+|\d+)(?:[eE][+-]?\d+)?$/] *)
Definition realRe : Re.t :=
  cat [ opt (oneOf "+-");
        alt (cat [many1 Js.isDigit; chr "."; many Js.isDigit])
            (alt (cat [chr "."; many1 Js.isDigit]) (many1 Js.isDigit));
        opt (cat [oneOf "eE"; opt (oneOf "+-"); many1 Js.isDigit]) ].

(** [/^\d{4}-\d{2}-\d{2}(?:[ T]\d{2}:\d{2}(?::\d{2})?)?(?:Z|[+-]\d{2}:\d{2})?$/] *)
Definition dateRe : Re.t :=
  cat [ digits 4; chr "-"; digits 2; chr "-"; digits 2;
        opt (cat [oneOf " T"; digits 2; chr ":"; digits 2;
                  opt (cat [chr ":"; digits 2])]);
        opt (alt (chr "Z") (cat [oneOf "+-"; digits 2; chr ":"; digits 2])) ].

Definition boolTrue : list string := ["true"; "1"; "yes"; "y"; "t"].
Definition boolFalse : list string := ["false"; "0"; "no"; "n"; "f"].

Definition isBoolTrue (s : string) : bool := Js.setHas boolTrue s.
Definition isBoolFalse (s : string) : bool := Js.setHas boolFalse s.

End Patterns.

(** The four storage classes a column can be given (affinity.ts). *)

Inductive Affinity : Type := INTEGER | REAL | NUMERIC | TEXT.

Definition Affinity_eqb (a b : Affinity) : bool :=
  match a, b with
  | INTEGER, INTEGER | REAL, REAL | NUMERIC, NUMERIC | TEXT, TEXT => true
  | _, _ => false
  end.

(** [a / n] for two counts, and the test [a / n >= q]. *)
Definition ratio (a n : nat) : Q := inject_Z (Z.of_nat a) / inject_Z (Z.of_nat n).

Definition atLeast (x threshold : Q) : bool := Qle_bool threshold x.

(** ** schema.ts *)

Module Schema.

Import Patterns.

Record InferredCol : Type := {
  name : string;
  affinity : Affinity;
  notNull : bool;
  unique : bool;
  isBool : bool;
  isDateLike : bool
}.

(** The counters and the [seen] set of the loop over the rows. *)
Record Stats : Type := {
  nonNull : nat;
  asInt : nat;
  asReal : nat;
  asBool : nat;
  asDate : nat;
  empty : nat;
  seen : gset string
}.

Definition noStats : Stats :=
  {| nonNull := 0; asInt := 0; asReal := 0; asBool := 0; asDate := 0;
     empty := 0; seen := ∅ |}.

Definition bump (b : bool) (n : nat) : nat := if b then S n else n.

(** [(r[h] ?? "").toString().trim()] *)
Definition cell (r : Js.object) (h : string) : string :=
  Js.trim (Js.toString (Js.orElse (Js.get r h) (Js.Str ""))).

(** One turn of the loop [for (const r of rows)], on the trimmed cell. *)
Definition scanCell (st : Stats) (raw : string) : Stats :=
  if Js.isEmpty raw then
    {| nonNull := nonNull st; asInt := asInt st; asReal := asReal st;
       asBool := asBool st; asDate := asDate st; empty := S (empty st);
       seen := seen st |}
  else
    let lower := Js.toLowerCase raw in
    let isInt := Re.test intRe raw in
    {| nonNull := S (nonNull st);
       asInt := bump isInt (asInt st);
       asReal := bump (negb isInt && Re.test realRe raw) (asReal st);
       asBool := bump (isBoolTrue lower || isBoolFalse lower) (asBool st);
       asDate := bump (Re.test dateRe raw) (asDate st);
       empty := empty st;
       seen := {[ raw ]} ∪ seen st |}.

Definition scanColumn (rows : list Js.object) (h : string) : Stats :=
  fold_left (fun st r => scanCell st (cell r h)) rows noStats.

(** The cascade that turns the counters into (affinity, isBool, isDateLike). *)
Definition classify (st : Stats) : Affinity * bool * bool :=
  if Nat.ltb 0 (nonNull st) then
    if atLeast (ratio (asBool st) (nonNull st)) (95 # 100) then (INTEGER, true, false)
    else if Nat.eqb (asInt st) (nonNull st) then (INTEGER, false, false)
    else if Nat.eqb (asInt st + asReal st) (nonNull st) then (REAL, false, false)
    else if atLeast (ratio (asDate st) (nonNull st)) (8 # 10) then (NUMERIC, false, true)
    else (TEXT, false, false)
  else (TEXT, false, false).

Definition isNotNull (st : Stats) : bool := Nat.eqb (empty st) 0.

Definition isUnique (st : Stats) : bool :=
  Nat.ltb 0 (nonNull st) && Nat.eqb (size (seen st)) (nonNull st).

Definition inferCol (rows : list Js.object) (h : string) : InferredCol :=
  let st := scanColumn rows h in
  let '(aff, b, d) := classify st in
  {| name := h; affinity := aff; notNull := isNotNull st; unique := isUnique st;
     isBool := b; isDateLike := d |}.

(** [lname === "id" || lname === `${baseName}_id`] *)
Definition idLike (table h : string) : bool :=
  let lname := Js.toLowerCase h in
  let baseName := Js.toLowerCase table in
  String.eqb lname "id" || String.eqb lname (baseName +:+ "_id").

Definition isPkCandidate (table : string) (c : InferredCol) : bool :=
  idLike table (name c) && unique c && notNull c
  && (Affinity_eqb (affinity c) INTEGER || Affinity_eqb (affinity c) TEXT).

(** The column the second lookup ([cols.find]) accepts. *)
Definition isPlainId (c : InferredCol) : bool :=
  String.eqb (Js.toLowerCase (name c)) "id" && notNull c
  && Affinity_eqb (affinity c) INTEGER.

Record Inferred : Type := {
  cols : list InferredCol;
  pk : option string;
  uniqueCols : list string
}.

(** [pkCandidates[0]], then [if (!pk)] the lookup of a plain [id] column.
    A candidate that is the empty string would be falsy; [idLike] never
    accepts one, the test is kept as the source has it. *)
Definition choosePk (table : string) (cs : list InferredCol) : option string :=
  let pkCandidates := map name (List.filter (fun c => isPkCandidate table c) cs) in
  let fallback := option_map name (find isPlainId cs) in
  match pkCandidates with
  | p :: _ => if Js.isEmpty p then fallback else Some p
  | [] => fallback
  end.

Definition inferSchema (rows : list Js.object) (headers : list string) (table : string)
  : Inferred :=
  let cs := map (inferCol rows) headers in
  {| cols := cs;
     pk := choosePk table cs;
     uniqueCols := map name (List.filter (fun c => unique c && notNull c) cs) |}.

(** [v.replace(/'/g, "''")] *)
Fixpoint escapeQuotes (s : string) : string :=
  match s with
  | EmptyString => EmptyString
  | String c r =>
      if Ascii.eqb c "'"%char then String c (String c (escapeQuotes r))
      else String c (escapeQuotes r)
  end.

(** [raw] is [string | undefined]: [None] is [undefined]. *)
Definition toSqlLiteral (raw : option string) (col : InferredCol) : string :=
  let v := Js.trim (match raw with Some s => s | None => "" end) in
  if Js.isEmpty v then "NULL"
  else if isBool col then
    let lower := Js.toLowerCase v in
    if isBoolTrue lower then "1"
    else if isBoolFalse lower then "0"
    else "NULL"
  else if Affinity_eqb (affinity col) INTEGER && Re.test intRe v then v
  else if Affinity_eqb (affinity col) REAL && (Re.test intRe v || Re.test realRe v) then v
  else "'" +:+ escapeQuotes v +:+ "'".


Definition isLetter (c : ascii) : bool := Js.isUpper c || Js.isLower c.

(** [\w] *)
Definition isWord (c : ascii) : bool :=
  isLetter c || Js.isDigit c || Ascii.eqb c "_"%char.

Definition isDot (c : ascii) : bool := Ascii.eqb c "."%char.

(** [fileName.replace(/\.[^.]+$/, "")]: the text is cut at the dot that is
    followed by one character at least and by no other dot. *)
Fixpoint stripExtension (s : string) : string :=
  match s with
  | EmptyString => EmptyString
  | String c r =>
      if isDot c && negb (Js.isEmpty r) && Js.forallChars (fun x => negb (isDot x)) r
      then EmptyString
      else String c (stripExtension r)
  end.

(** [s.replace(/[^\w]+/g, "_")]: [inRun] tells that the character before
    was already replaced. *)
Fixpoint squashNonWord (inRun : bool) (s : string) : string :=
  match s with
  | EmptyString => EmptyString
  | String c r =>
      if isWord c then String c (squashNonWord false r)
      else if inRun then squashNonWord true r
      else String "_"%char (squashNonWord true r)
  end.

(** The text is taken to be ASCII, on which [normalize("NFKD")] changes
    nothing. *)
Definition toSafeTableNameFromFile (fileName : string) : string :=
  let base := stripExtension fileName in
  let s := squashNonWord false base in
  let s := Js.dropWhileStart (fun c => negb (isLetter c || Ascii.eqb c "_"%char)) s in
  let s := if Js.isEmpty s then "table" else s in
  let s := if Nat.ltb 63 (String.length s) then substring 0 63 s else s in
  Js.toLowerCase s.

(** The loop [for (;;)] of [ensureUniqueTableName], from the suffix [i];
    [fuel] bounds the number of turns. *)
Fixpoint nextFreeName (fuel i : nat) (base : string) (existing : list string)
  : option string :=
  match fuel with
  | O => None
  | S fuel' =>
      let cand := base +:+ "_" +:+ Js.decimal i in
      if Js.setHas existing (Js.toLowerCase cand)
      then nextFreeName fuel' (S i) base existing
      else Some cand
  end.

(** [existingNames] is what [existingGetter] resolved to. *)
Definition ensureUniqueTableName (fuel : nat) (base : string) (existingNames : list string)
  : option string :=
  let existing := map Js.toLowerCase existingNames in
  if negb (Js.setHas existing (Js.toLowerCase base)) then Some base
  else nextFreeName fuel 2 base existing.

(** [safeIdent]; sqlite.ts and sqliteMeta.ts ([ident]) carry the same text. *)
Definition safeIdent (name : string) : string :=
  String Js.dquote (Js.doubleChar Js.dquote name +:+ String Js.dquote EmptyString).

End Schema.

(** ** csvUtils.ts *)

Module CsvUtils.

Import Re.

Inductive InferredType : Type := TInt | TDecimal | TDate | TString.

Record InferredColumn : Type := {
  name : string;
  type : InferredType;
  nullRate : Q;
  unique : bool
}.

Definition d12 : Re.t := alt (digits 2) (digits 1).   (* \d{1,2} *)

(** [(?:[ T]\d{1,2}:\d{2}(?::\d{2})?)?] *)
Definition timePart : Re.t :=
  opt (cat [oneOf " T"; d12; chr ":"; digits 2; opt (cat [chr ":"; digits 2])]).

Definition yearFirst (sep : ascii) : Re.t :=
  cat [digits 4; chr sep; d12; chr sep; d12; timePart].

Definition YEAR_FIRST_VARIANTS : list Re.t :=
  [yearFirst "-"; yearFirst "/"; yearFirst "."; cat [digits 4; digits 2; digits 2]].

(** [(?:0?[1-9]|1[0-2])] *)
Definition month : Re.t :=
  alt (cat [opt (chr "0"); cls (Js.inRange 49 57)])
      (cat [chr "1"; cls (Js.inRange 48 50)]).

(** [(?:0?[1-9]|[12]\d|3[01])] *)
Definition day : Re.t :=
  alt (cat [opt (chr "0"); cls (Js.inRange 49 57)])
      (alt (cat [oneOf "12"; digit]) (cat [chr "3"; oneOf "01"])).

Definition MDY_VARIANTS : list Re.t :=
  [cat [month; oneOf "/-"; day; oneOf "/-"; digits 4; timePart]].

Definition DMY_VARIANTS : list Re.t :=
  [cat [day; oneOf "/-"; month; oneOf "/-"; digits 4; timePart]].

(** [/^\d{4}-\d{2}-\d{2}T\d{2}:\d{2}:\d{2}(?:\.\d+)?(?:Z|[+\-]\d{2}:\d{2})$/] *)
Definition ISO_VARIANTS : list Re.t :=
  [cat [digits 4; chr "-"; digits 2; chr "-"; digits 2; chr "T";
        digits 2; chr ":"; digits 2; chr ":"; digits 2;
        opt (cat [chr "."; many1 Js.isDigit]);
        alt (chr "Z") (cat [oneOf "+-"; digits 2; chr ":"; digits 2])]].

Definition isDateLike (s : string) : bool :=
  let v := Js.trim s in
  if Nat.eqb (String.length v) 0 then false
  else existsb (fun r => Re.test r v) (YEAR_FIRST_VARIANTS ++ ISO_VARIANTS)
       || existsb (fun r => Re.test r v) (MDY_VARIANTS ++ DMY_VARIANTS).

(** [/^-?\d+$/] *)
Definition isInt (x : string) : bool := Re.test (cat [opt (chr "-"); many1 Js.isDigit]) x.

(** [/^-?\d+(\.\d+)?$/] *)
Definition isDecimal (x : string) : bool :=
  Re.test (cat [opt (chr "-"); many1 Js.isDigit; opt (cat [chr "."; many1 Js.isDigit])]) x.

Record Stats : Type := {
  nullCount : nat;
  ints : nat;
  decimals : nat;
  dates : nat;
  seen : gset string;
  hasNull : bool
}.

Definition noStats : Stats :=
  {| nullCount := 0; ints := 0; decimals := 0; dates := 0; seen := ∅; hasNull := false |}.

Definition sawNull (st : Stats) : Stats :=
  {| nullCount := S (nullCount st); ints := ints st; decimals := decimals st;
     dates := dates st; seen := seen st; hasNull := true |}.

Definition isNullOrEmpty (v : Js.value) : bool :=
  match v with
  | Js.Null => true
  | Js.Str s => Js.isEmpty s
  | _ => false
  end.

(** One turn of [for (const v of values)]. *)
Definition scanValue (st : Stats) (v : Js.value) : Stats :=
  if isNullOrEmpty v then sawNull st
  else
    let s := Js.trim (Js.toString v) in
    if Nat.eqb (String.length s) 0 then sawNull st
    else
      let i := isInt s in
      let d := negb i && isDecimal s in
      let t := negb i && negb d && isDateLike s in
      {| nullCount := nullCount st;
         ints := Schema.bump i (ints st);
         decimals := Schema.bump d (decimals st);
         dates := Schema.bump t (dates st);
         seen := {[ s ]} ∪ seen st;
         hasNull := hasNull st |}.

Definition isUndefined (v : Js.value) : bool :=
  match v with Js.Undefined => true | _ => false end.

(** [rows.map((r) => r[h]).filter((v) => v !== undefined)] *)
Definition columnValues (rows : list Js.object) (h : string) : list Js.value :=
  List.filter (fun v => negb (isUndefined v)) (map (fun r => Js.get r h) rows).

Definition inferColumn (rows : list Js.object) (h : string) : InferredColumn :=
  let values := columnValues rows h in
  let st := fold_left scanValue values noStats in
  let nonNull := length values - nullCount st in
  let ty :=
    if Nat.ltb 0 nonNull then
      if Nat.eqb (ints st) nonNull then TInt
      else if Nat.eqb (ints st + decimals st) nonNull then TDecimal
      else if Nat.eqb (dates st) nonNull then TDate
      else TString
    else TString in
  {| name := h;
     type := ty;
     nullRate := ratio (nullCount st) (if Nat.eqb (length values) 0 then 1 else length values);
     unique := negb (hasNull st) && Nat.eqb (size (seen st)) nonNull && Nat.ltb 0 nonNull |}.

Definition inferColumns (rows : list Js.object) (headers : list string)
  : list InferredColumn :=
  map (inferColumn rows) headers.

End CsvUtils.

(** ** sqlite.ts: the CSV import *)

Module Sqlite.

Import Patterns.

Record Guess : Type := {
  affinity : Affinity;
  isBool : bool;
  isDateLike : bool
}.

(** The counters of [guessAffinity]. *)
Record Stats : Type := {
  nn : nat;
  ints : nat;
  nums : nat;
  dates : nat;
  bools : nat
}.

Definition noStats : Stats := {| nn := 0; ints := 0; nums := 0; dates := 0; bools := 0 |}.

(** [v === null || v === undefined || v === ""] *)
Definition isBlank (v : Js.value) : bool :=
  match v with
  | Js.Null | Js.Undefined => true
  | Js.Str s => Js.isEmpty s
  | _ => false
  end.

(** One turn of [for (const v of values)]; every branch of the source
    ends in [continue], so a value feeds at most one family of counters. *)
Definition scanValue (st : Stats) (v : Js.value) : Stats :=
  if isBlank v then st
  else
    match v with
    | Js.Num isInteger _ =>
        {| nn := S (nn st); ints := Schema.bump isInteger (ints st);
           nums := S (nums st); dates := dates st; bools := bools st |}
    | _ =>
        let s := Js.toLowerCase (Js.trim (Js.toString v)) in
        if Js.isEmpty s then
          {| nn := S (nn st); ints := ints st; nums := nums st;
             dates := dates st; bools := bools st |}
        else if isBoolTrue s || isBoolFalse s then
          {| nn := S (nn st); ints := ints st; nums := nums st;
             dates := dates st; bools := S (bools st) |}
        else if Re.test intRe s then
          {| nn := S (nn st); ints := S (ints st); nums := S (nums st);
             dates := dates st; bools := bools st |}
        else if Re.test realRe s then
          {| nn := S (nn st); ints := ints st; nums := S (nums st);
             dates := dates st; bools := bools st |}
        else if Re.test dateRe s then
          {| nn := S (nn st); ints := ints st; nums := nums st;
             dates := S (dates st); bools := bools st |}
        else
          {| nn := S (nn st); ints := ints st; nums := nums st;
             dates := dates st; bools := bools st |}
    end.

Definition guessAffinity (values : list Js.value) : Guess :=
  let st := fold_left scanValue values noStats in
  if Nat.eqb (nn st) 0 then {| affinity := TEXT; isBool := false; isDateLike := false |}
  else if atLeast (ratio (bools st) (nn st)) (95 # 100)
    then {| affinity := INTEGER; isBool := true; isDateLike := false |}
  else if Nat.eqb (ints st) (nn st)
    then {| affinity := INTEGER; isBool := false; isDateLike := false |}
  else if Nat.eqb (nums st) (nn st)
    then {| affinity := REAL; isBool := false; isDateLike := false |}
  else if atLeast (ratio (dates st) (nn st)) (8 # 10)
    then {| affinity := NUMERIC; isBool := false; isDateLike := true |}
  else {| affinity := TEXT; isBool := false; isDateLike := false |}.

(** A value bound to an INSERT: [null], a number or a text. *)
Inductive SqlValue : Type :=
| BNull
| BNumber (d : Js.double)
| BText (s : string).

Definition coerceByAffinity (v : Js.value) (aff : Affinity) (isBool : bool) : SqlValue :=
  if Js.isNullish v then BNull
  else
    let s := match v with Js.Str x => Js.trim x | _ => Js.toString v end in
    if Js.isEmpty s then BNull
    else if isBool then
      let low := Js.toLowerCase s in
      if isBoolTrue low then BNumber (Js.Finite 1)
      else if isBoolFalse low then BNumber (Js.Finite 0)
      else BNull
    else if Affinity_eqb aff INTEGER && Re.test intRe s then BNumber (Js.toNumber s)
    else if Affinity_eqb aff REAL && (Re.test intRe s || Re.test realRe s)
      then BNumber (Js.toNumber s)
    else BText s.

(** One entry of [colDefs]: either the surrogate ["id" INTEGER PRIMARY KEY]
    or [<name> <affinity> [NOT NULL]]. *)
Record ColDef : Type := {
  cd_name : string;
  cd_affinity : Affinity;
  cd_primaryKey : bool;
  cd_notNull : bool
}.

(** What [importCsv] sends to the database: the pieces of the CREATE TABLE
    statement and the column list of the INSERT. *)
Record Plan : Type := {
  colDefs : list ColDef;
  pkClause : option string;
  uniqueClauses : list string;
  insertCols : list string
}.

(** [raw == null ? "" : String(raw).trim()] *)
Definition cellText (raw : Js.value) : string :=
  if Js.isNullish raw then "" else Js.trim (Js.toString raw).

(** The loop that fills [notNulls] and [uniques] for one header:
    (empty, seen, dup). *)
Definition scanConstraint (st : nat * gset string * bool) (r : Js.object) (h : string)
  : nat * gset string * bool :=
  let '(empty, seen, dup) := st in
  let v := cellText (Js.get r h) in
  if Js.isEmpty v then (S empty, seen, dup)
  else (empty, {[ v ]} ∪ seen, dup || bool_decide (v ∈ seen)).

Definition constraintsOf (rows : list Js.object) (h : string) : bool * bool :=
  let '(empty, seen, dup) :=
    fold_left (fun st r => scanConstraint st r h) rows (0, ∅, false) in
  (Nat.eqb empty 0, negb dup && Nat.ltb 0 (size seen)).

(** [headers.includes("id")] and the two tests on the [id] cells. *)
Definition naturalKey (rows : list Js.object) (headers : list string) : option string :=
  if existsb (String.eqb "id") headers then
    let all := map (fun r => Js.get r "id") rows in
    let notNull :=
      forallb (fun v => negb (Js.isNullish v)
                        && negb (Js.isEmpty (Js.trim (Js.toString v)))) all in
    let uniq :=
      Nat.eqb (size (list_to_set (map Js.toString all) : gset string)) (length all) in
    if notNull && uniq then Some "id" else None
  else None.

Definition surrogate : ColDef :=
  {| cd_name := "id"; cd_affinity := INTEGER; cd_primaryKey := true; cd_notNull := false |}.

(** [importCsv] up to the statements it builds; [None] is the early
    [return] on no rows or no headers. *)
Definition importCsv (rows : list Js.object) : option Plan :=
  match rows with
  | [] => None
  | first :: _ =>
      let headers := Js.keys first in
      if Nat.eqb (length headers) 0 then None
      else
        let sample := firstn 1000 rows in
        let inferred :=
          map (fun h => (h, guessAffinity (map (fun r => Js.get r h) sample))) headers in
        let notNulls := List.filter (fun h => fst (constraintsOf rows h)) headers in
        let uniques := List.filter (fun h => snd (constraintsOf rows h)) headers in
        let pk := naturalKey rows headers in
        let declared :=
          map (fun c =>
                 {| cd_name := fst c; cd_affinity := affinity (snd c);
                    cd_primaryKey := false;
                    cd_notNull := Js.setHas notNulls (fst c) |}) inferred in
        Some {| colDefs := match pk with
                           | None => surrogate :: declared
                           | Some _ => declared
                           end;
                pkClause := pk;
                uniqueClauses :=
                  List.filter (fun u => negb (bool_decide (Some u = pk))) uniques;
                insertCols := match pk with
                              | None => "id" :: headers
                              | Some _ => headers
                              end |}
  end.

(** SQLite compares column names without regard to ASCII case and
    refuses a CREATE TABLE that names a column twice. *)
Definition ddlAccepted (p : Plan) : bool :=
  bool_decide (NoDup (map (fun d => Js.toLowerCase (cd_name d)) (colDefs p))).


(** [headers.map(h => ({ name: h, ...guessAffinity(sample.map(r => r[h])) }))] *)
Definition inferredColumns (rows : list Js.object) (headers : list string)
  : list (string * Guess) :=
  let sample := firstn 1000 rows in
  map (fun h => (h, guessAffinity (map (fun r => Js.get r h) sample))) headers.

(** The values bound for the row of index [i]: the surrogate [i + 1] when
    there is no natural key, then one value per header. *)
Definition rowValues (pk : option string) (inferred : list (string * Guess))
           (i : nat) (r : Js.object) : list SqlValue :=
  match pk with
  | None => [BNumber (Js.toDouble (inject_Z (Z.of_nat (i + 1))))]
  | Some _ => []
  end
  ++ map (fun c =>
            let raw := if Js.hasOwn r (fst c) then Js.get r (fst c) else Js.Null in
            coerceByAffinity raw (affinity (snd c)) (isBool (snd c)))
         inferred.

(** The parameters of the INSERT statements of [importCsv], row by row. *)
Definition insertRows (rows : list Js.object) : list (list SqlValue) :=
  match rows with
  | [] => []
  | first :: _ =>
      let headers := Js.keys first in
      if Nat.eqb (length headers) 0 then []
      else
        let inferred := inferredColumns rows headers in
        let pk := naturalKey rows headers in
        imap (rowValues pk inferred) rows
  end.

End Sqlite.


(** ** affinity.ts *)

Module AffinityMap.

(** A value of the type [Affinity] is its own name. *)
Definition affinityText (a : Affinity) : string :=
  match a with
  | INTEGER => "INTEGER"
  | REAL => "REAL"
  | NUMERIC => "NUMERIC"
  | TEXT => "TEXT"
  end.

(** [type] is [string | null | undefined]: [None] is null or undefined. *)
Definition mapAffinity (type : option string) : Affinity :=
  let t := Js.toUpperCase (match type with Some s => s | None => "" end) in
  if Js.includes t "INT" then INTEGER
  else if Js.includes t "REAL" || Js.includes t "FLOA" || Js.includes t "DOUB" then REAL
  else if Js.includes t "NUM" || Js.includes t "DATE" || Js.includes t "TIME" then NUMERIC
  else TEXT.

End AffinityMap.

(** ** erOverrides.ts

    Keys that every object inherits from [Object.prototype] aside, an
    object read by key is a finite map. *)

Module Overrides.

(** A field that may be absent ([None]), or present with a boolean or with
    [undefined] ([Some None]). *)
Definition field : Type := option (option bool).

Record ColumnOverride : Type := { isPk : field; isUnique : field }.

Definition noOverride : ColumnOverride := {| isPk := None; isUnique := None |}.

(** [{ ...c, ...patch }] *)
Definition spread (c patch : ColumnOverride) : ColumnOverride :=
  {| isPk := match isPk patch with Some v => Some v | None => isPk c end;
     isUnique := match isUnique patch with Some v => Some v | None => isUnique c end |}.

Definition setColumnOverride (ov : gmap string (gmap string ColumnOverride))
           (table column : string) (patch : ColumnOverride)
  : gmap string (gmap string ColumnOverride) :=
  let t := default ∅ (ov !! table) in
  let c := default noOverride (t !! column) in
  let merged := spread c patch in
  <[ table := <[ column := merged ]> t ]> ov.

Definition clearTableOverrides (ov : gmap string (gmap string ColumnOverride))
           (table : string) : gmap string (gmap string ColumnOverride) :=
  match ov !! table with
  | None => ov
  | Some _ => delete table ov
  end.


(** *** The override dialog *)

Inductive OverrideKey : Type := KIsPk | KIsUnique.

Definition fieldOf (key : OverrideKey) (c : ColumnOverride) : field :=
  match key with KIsPk => isPk c | KIsUnique => isUnique c end.

(** [{ [key]: v }] *)
Definition patchOf (key : OverrideKey) (v : bool) : ColumnOverride :=
  match key with
  | KIsPk => {| isPk := Some (Some v); isUnique := None |}
  | KIsUnique => {| isPk := None; isUnique := Some (Some v) |}
  end.

(** The value of a field, when [typeof] says it is a boolean. *)
Definition asBoolean (f : field) : option bool :=
  match f with Some (Some b) => Some b | _ => None end.

(** [autoPk] and [autoUnique] are [boolean | undefined]. *)
Definition getEffectiveFlags (tableName columnName : string)
           (overrides : gmap string (gmap string ColumnOverride))
           (autoPk autoUnique : option bool) : bool * bool :=
  let tOv := default ∅ (overrides !! tableName) in
  let cOv := default noOverride (tOv !! columnName) in
  (default (default false autoPk) (asBoolean (isPk cOv)),
   default (default false autoUnique) (asBoolean (isUnique cOv))).

Definition toggleOverride (overrides : gmap string (gmap string ColumnOverride))
           (tableName columnName : string) (key : OverrideKey)
  : gmap string (gmap string ColumnOverride) :=
  let tOv := default ∅ (overrides !! tableName) in
  let currentUnknown := match tOv !! columnName with
                        | Some c => fieldOf key c
                        | None => None
                        end in
  let current := default false (asBoolean currentUnknown) in
  let nextVal := negb current in
  setColumnOverride overrides tableName columnName (patchOf key nextVal).

(** The flag of [key] in a pair of effective flags. *)
Definition flagOf (key : OverrideKey) (flags : bool * bool) : bool :=
  match key with KIsPk => fst flags | KIsUnique => snd flags end.

(** The override of one column, [{}] when there is none. *)
Definition overrideOf (ov : gmap string (gmap string ColumnOverride))
           (table column : string) : ColumnOverride :=
  default noOverride (default ∅ (ov !! table) !! column).

End Overrides.

(** ** The SQLite store and the monad of the code that queries it *)

Module Store.

(** What a rejected promise carries: an error of the database layer, the
    [SqliteMetaError] of sqliteMeta.ts with its [cause], or the [TypeError]
    of a destructuring that finds nothing to read. *)
Inductive JsError : Type :=
| StoreError (msg : string)
| SqliteMetaError (message : string) (cause : JsError)
| TypeError.

Inductive result (A : Type) : Type :=
| Ok (a : A)
| Err (e : JsError).
Arguments Ok {A} a.
Arguments Err {A} e.

(** Rows of [PRAGMA table_info], [PRAGMA index_list], [PRAGMA index_info]
    and of the coverage SELECTs of analytics.ts and relationsService.ts; a
    row of a COUNT is its number. *)
Record TableInfoRow : Type := {
  ti_name : string;
  ti_type : string;
  ti_notnull : Z;
  ti_pk : Z
}.

Record IndexListRow : Type := { il_name : string; il_unique : Z }.

Record IndexInfoRow : Type := { ii_name : string }.

(** [matched] is a SUM and is NULL ([None]) over no rows. *)
Record CoverageRow : Type := { cr_matched : option Z; cr_total : Z }.

(** The statements the code sends through [query]. *)
Inductive Query : Type :=
| QListTables
| QTableInfo (table : string)
| QIndexList (table : string)
| QIndexInfo (index : string)
| QCoverage (child col parent pkCol : string)
| QCountRows (table : string)
| QCountDistinct (table col : string)
| QCoverageText (child col parent pkCol : string).

(** A store answers each statement with rows or with an error. *)
Record t : Type := {
  listTables : result (list string);
  tableInfo : string -> result (list TableInfoRow);
  indexList : string -> result (list IndexListRow);
  indexInfo : string -> result (list IndexInfoRow);
  coverage : string -> string -> string -> string -> result (list CoverageRow);
  countRows : string -> result (list Z);
  countDistinct : string -> string -> result (list Z);
  coverageText : string -> string -> string -> string -> result (list CoverageRow)
}.

(** The error the store answers a statement with, if any. *)
Definition failure (st : t) (q : Query) : option JsError :=
  let errOf {A} (r : result A) := match r with Ok _ => None | Err e => Some e end in
  match q with
  | QListTables => errOf (listTables st)
  | QTableInfo tb => errOf (tableInfo st tb)
  | QIndexList tb => errOf (indexList st tb)
  | QIndexInfo ix => errOf (indexInfo st ix)
  | QCoverage c k p pk => errOf (coverage st c k p pk)
  | QCountRows tb => errOf (countRows st tb)
  | QCountDistinct tb c => errOf (countDistinct st tb c)
  | QCoverageText c k p pk => errOf (coverageText st c k p pk)
  end.

(** A computation: the statements it has sent, in order, and its outcome. *)
Definition M (A : Type) : Type := list Query * result A.

Definition ret {A} (a : A) : M A := ([], Ok a).

Definition bind {A B} (m : M A) (f : A -> M B) : M B :=
  match m with
  | (log, Ok a) => let '(log', r) := f a in (log ++ log', r)
  | (log, Err e) => (log, Err e)
  end.

(** [try { m } catch (e) { throw wrap(e) }] *)
Definition rethrow {A} (wrap : JsError -> JsError) (m : M A) : M A :=
  match m with
  | (log, Ok a) => (log, Ok a)
  | (log, Err e) => (log, Err (wrap e))
  end.

Definition send {A} (q : Query) (answer : result A) : M A := ([q], answer).

Definition throw {A} (e : JsError) : M A := ([], Err e).

(** [const [row] = rows] with a pattern for [row]: reading a field of the
    [undefined] that an empty array gives throws. *)
Definition firstRow {A} (rows : list A) : M A :=
  match rows with
  | r :: _ => ret r
  | [] => throw TypeError
  end.

Definition queryListTables (st : t) : M (list string) :=
  send QListTables (listTables st).
Definition queryTableInfo (st : t) (tb : string) : M (list TableInfoRow) :=
  send (QTableInfo tb) (tableInfo st tb).
Definition queryIndexList (st : t) (tb : string) : M (list IndexListRow) :=
  send (QIndexList tb) (indexList st tb).
Definition queryIndexInfo (st : t) (ix : string) : M (list IndexInfoRow) :=
  send (QIndexInfo ix) (indexInfo st ix).
Definition queryCoverage (st : t) (c k p pk : string) : M (list CoverageRow) :=
  send (QCoverage c k p pk) (coverage st c k p pk).
Definition queryCountRows (st : t) (tb : string) : M (list Z) :=
  send (QCountRows tb) (countRows st tb).
Definition queryCountDistinct (st : t) (tb c : string) : M (list Z) :=
  send (QCountDistinct tb c) (countDistinct st tb c).
Definition queryCoverageText (st : t) (c k p pk : string) : M (list CoverageRow) :=
  send (QCoverageText c k p pk) (coverageText st c k p pk).

Definition sent {A} (m : M A) : list Query := fst m.
Definition outcome {A} (m : M A) : result A := snd m.

(** An error and the causes chained below it. *)
Fixpoint causes (e : JsError) : list JsError :=
  match e with
  | StoreError _ => [e]
  | SqliteMetaError _ c => e :: causes c
  | TypeError => [e]
  end.

(** [err] is [e] or one of the causes below it. *)
Definition chained (err e : JsError) : Prop := err ∈ causes e.

(** [e] is a [SqliteMetaError] and [err] is in the chain of its cause. *)
Definition wrapped (err e : JsError) : Prop :=
  exists msg cause, e = SqliteMetaError msg cause /\ err ∈ causes cause.

(** A computation is faithful to the store when the statements it sent
    all succeeded and it returned, or all but the last one succeeded and it
    failed with an error related by [R] to the error of the last one. *)
Definition faithful (R : JsError -> JsError -> Prop) (st : t) {A} (m : M A) : Prop :=
  match outcome m with
  | Ok _ => Forall (fun q => failure st q = None) (sent m)
  | Err e =>
      exists log q err,
        sent m = log ++ [q]
        /\ Forall (fun q => failure st q = None) log
        /\ failure st q = Some err
        /\ R err e
  end.

Definition isTypeError (e : JsError) : Prop := e = TypeError.

(** As [faithful] with the store's own error, for a computation that can
    also throw of its own: it then fails, after statements that all
    succeeded, with an error [P] holds of. *)
Definition faithfulOr (P : JsError -> Prop) (st : t) {A} (m : M A) : Prop :=
  match outcome m with
  | Ok _ => Forall (fun q => failure st q = None) (sent m)
  | Err e =>
      (Forall (fun q => failure st q = None) (sent m) /\ P e)
      \/ exists log q,
           sent m = log ++ [q]
           /\ Forall (fun q => failure st q = None) log
           /\ failure st q = Some e
  end.

End Store.

#[global] Arguments Store.bind : simpl never.
#[global] Arguments Store.ret : simpl never.
#[global] Arguments Store.rethrow : simpl never.
#[global] Arguments Store.send : simpl never.
#[global] Arguments Store.queryListTables : simpl never.
#[global] Arguments Store.queryTableInfo : simpl never.
#[global] Arguments Store.queryIndexList : simpl never.
#[global] Arguments Store.queryIndexInfo : simpl never.
#[global] Arguments Store.queryCoverage : simpl never.
#[global] Arguments Store.queryCountRows : simpl never.
#[global] Arguments Store.queryCountDistinct : simpl never.
#[global] Arguments Store.queryCoverageText : simpl never.
#[global] Arguments Store.throw : simpl never.
#[global] Arguments Store.firstRow : simpl never.

Notation "'do' x <- m ; k" := (Store.bind m (fun x => k))
  (at level 10, x name, m at level 100, k at level 200).

(** ** sqliteMeta.ts *)

Module SqliteMeta.

Import Store.

Record ColumnMeta : Type := {
  name : string;
  dataType : string;
  uniqueNoNull : bool;
  isPk : bool
}.

Record TableMeta : Type := { tname : string; columns : list ColumnMeta }.

Record FKTuple : Type := {
  fromTable : string;
  fromColumn : string;
  toTable : string;
  toColumn : string
}.

(** The loop over [idxList] of [getUniqueColumns]. *)
Fixpoint uniqueIndexColumns (st : Store.t) (idxList : list IndexListRow)
         (uniques : list string) : M (list string) :=
  match idxList with
  | [] => ret uniques
  | idx :: rest =>
      if negb (Z.eqb (il_unique idx) 1) then uniqueIndexColumns st rest uniques
      else
        do cols <- queryIndexInfo st (il_name idx) ;
        match cols with
        | [c] =>
            if Js.isEmpty (ii_name c) then uniqueIndexColumns st rest uniques
            else uniqueIndexColumns st rest (Js.setAdd uniques (ii_name c))
        | _ => uniqueIndexColumns st rest uniques
        end
  end.

Definition getUniqueColumns (st : Store.t) (table : string) : M (list string) :=
  rethrow (SqliteMetaError ("getUniqueColumns failed: " +:+ table))
    (do idxList <- queryIndexList st table ;
     do uniques <- uniqueIndexColumns st idxList [] ;
     do ti <- queryTableInfo st table ;
     ret (fold_left
            (fun acc c => if Z.eqb (ti_pk c) 1 then Js.setAdd acc (ti_name c) else acc)
            ti uniques)).

Definition columnMeta (uniques : list string) (r : TableInfoRow) : ColumnMeta :=
  {| name := ti_name r;
     dataType := if Js.isEmpty (ti_type r) then "TEXT" else ti_type r;
     uniqueNoNull := Js.setHas uniques (ti_name r) && Z.eqb (ti_notnull r) 1;
     isPk := Z.eqb (ti_pk r) 1 |}.

(** The loop [for (const t of names)] of [getTablesMeta]. *)
Fixpoint tablesMeta (st : Store.t) (names : list string) : M (list TableMeta) :=
  match names with
  | [] => ret []
  | t :: rest =>
      do ti <- queryTableInfo st t ;
      do uniques <- getUniqueColumns st t ;
      do out <- tablesMeta st rest ;
      ret ({| tname := t; columns := map (columnMeta uniques) ti |} :: out)
  end.

Definition getTablesMeta (st : Store.t) : M (list TableMeta) :=
  rethrow (SqliteMetaError "getTablesMeta failed")
    (do names <- queryListTables st ;
     tablesMeta st names).

Record InferOptions : Type := {
  nameHintMinSim : Q;
  excludeBareId : bool;
  allowSelfReference : bool
}.

Definition defaultInferOptions : InferOptions :=
  {| nameHintMinSim := 8 # 10; excludeBareId := true; allowSelfReference := false |}.

(** [Partial<InferOptions>] and the spread that fills in the defaults. *)
Record PartialOptions : Type := {
  p_nameHintMinSim : option Q;
  p_excludeBareId : option bool;
  p_allowSelfReference : option bool
}.

Definition withDefaults (opts : option PartialOptions) : InferOptions :=
  match opts with
  | None => defaultInferOptions
  | Some p =>
      {| nameHintMinSim := default (nameHintMinSim defaultInferOptions) (p_nameHintMinSim p);
         excludeBareId := default (excludeBareId defaultInferOptions) (p_excludeBareId p);
         allowSelfReference :=
           default (allowSelfReference defaultInferOptions) (p_allowSelfReference p) |}
  end.

Definition isLowerAlnum (c : ascii) : bool := Js.isLower c || Js.isDigit c.

(** The three chained [replace] calls on the cleaned name. *)
Definition normalize (s : string) : string :=
  let t := Js.keep isLowerAlnum (Js.toLowerCase s) in
  let t1 := if Js.endsWith t "ies" then Js.dropLast 3 t +:+ "y" else t in
  let t2 := if existsb (Js.endsWith t1) ["sses"; "xes"; "zes"; "ches"; "shes"]
            then Js.dropLast 2 t1 else t1 in
  if Js.endsWith t2 "s" then Js.dropLast 1 t2 else t2.

(** [s.slice(i, i + 2)] for [i = 0 .. s.length - 2] *)
Fixpoint pairs (s : string) : list string :=
  match s with
  | String a ((String b _) as r) => String a (String b EmptyString) :: pairs r
  | _ => []
  end.

Definition bigrams (s : string) : gset string :=
  if Nat.ltb (String.length s) 2 then {[ s ]} else list_to_set (pairs s).

(** [for (const x of A) if (B.has(x)) inter++] *)
Definition countShared (A B : gset string) : nat :=
  length (List.filter (fun x => bool_decide (x ∈ B)) (elements A)).

Definition diceSim (a b : string) : Q :=
  let A := bigrams a in
  let B := bigrams b in
  let inter := countShared A B in
  let denom := size A + size B in
  if Nat.eqb denom 0 then 0 else ratio (2 * inter) denom.

(** [lc.match(/^(.+)_id$/)]: the captured group, when the name matches.
    [.] matches no line terminator and [+] wants one character at least. *)
Definition matchSnakeId (lc : string) : option string :=
  if Js.endsWith lc "_id" then
    let m1 := Js.dropLast 3 lc in
    if negb (Js.isEmpty m1) && Js.forallChars (fun c => negb (Js.isLineTerminator c)) m1
    then Some m1 else None
  else None.

(** The inner loop [for (const cand of normNames)]: [best] so far. *)
Definition pickBest (o : InferOptions) (self base : string)
           (normNames : list (string * string)) : option (string * Q) :=
  fold_left
    (fun best cand =>
       if negb (allowSelfReference o) && String.eqb (fst cand) self then best
       else
         let score := diceSim base (snd cand) in
         if atLeast score (nameHintMinSim o)
            && match best with
               | None => true
               | Some b => negb (Qle_bool score (snd b))
               end
         then Some (fst cand, score) else best)
    normNames None.

(** The set of key columns of one table, in insertion order. *)
Definition keyColumns (t : TableMeta) : list string :=
  Js.setOf (map name
    (List.filter (fun c => isPk c || String.eqb (Js.toLowerCase (name c)) "id" || uniqueNoNull c)
            (columns t))).

(** [uniqueMap.get(table)]: the last [set] under that name wins. *)
Definition uniqueMap (metas : list TableMeta) : gmap string (list string) :=
  fold_left (fun m t => <[ tname t := keyColumns t ]> m) metas ∅.

(** One turn of [for (const c of t.columns)]: the tuple pushed, if any. *)
Definition columnFk (o : InferOptions) (metas : list TableMeta)
           (t : TableMeta) (c : ColumnMeta) : option FKTuple :=
  let lc := Js.toLowerCase (name c) in
  if excludeBareId o && String.eqb lc "id" then None
  else
    match matchSnakeId lc with
    | None => None
    | Some m1 =>
        let base := normalize m1 in
        let normNames := map (fun t => (tname t, normalize (tname t))) metas in
        match pickBest o (tname t) base normNames with
        | None => None
        | Some (best, _) =>
            match uniqueMap metas !! best with
            | None | Some [] => None
            | Some ((first :: _) as uniqs) =>
                Some {| fromTable := tname t; fromColumn := name c; toTable := best;
                        toColumn := if Js.setHas uniqs "id" then "id" else first |}
            end
        end
    end.

Definition foreignKeys (o : InferOptions) (metas : list TableMeta) : list FKTuple :=
  flat_map (fun t => omap (columnFk o metas t) (columns t)) metas.

(** The body sends no statement; the [try] block wraps whatever it throws. *)
Definition inferForeignKeys (metas : list TableMeta) (opts : option PartialOptions)
  : M (list FKTuple) :=
  rethrow (SqliteMetaError "inferForeignKeys failed")
    (ret (foreignKeys (withDefaults opts) metas)).

End SqliteMeta.

(** ** badgeHeuristics.ts

    [buildNameBasedBadgeByTable] carries its own copies of [normalize],
    [bigrams] and [dice]; they are the text of the ones in sqliteMeta.ts. *)

Module BadgeHeuristics.

Definition bigrams (s : string) : gset string :=
  if Nat.ltb (String.length s) 2 then {[ s ]} else list_to_set (SqliteMeta.pairs s).

Definition dice (a b : string) : Q :=
  let A := bigrams a in
  let B := bigrams b in
  let inter := length (List.filter (fun x => bool_decide (x ∈ B)) (elements A)) in
  let denom := size A + size B in
  if Nat.eqb denom 0 then 0 else ratio (2 * inter) denom.


(** The copy of [normalize] this file carries. *)
Definition normalize (s : string) : string :=
  let t := Js.keep SqliteMeta.isLowerAlnum (Js.toLowerCase s) in
  let t1 := if Js.endsWith t "ies" then Js.dropLast 3 t +:+ "y" else t in
  let t2 := if existsb (Js.endsWith t1) ["sses"; "xes"; "zes"; "ches"; "shes"]
            then Js.dropLast 2 t1 else t1 in
  if Js.endsWith t2 "s" then Js.dropLast 1 t2 else t2.

(** One turn of [for (const col of t.columns)]: is the badge set? *)
Definition hasBadge (minDiceSim : Q) (tablesMeta : list SqliteMeta.TableMeta)
           (col : SqliteMeta.ColumnMeta) : bool :=
  match SqliteMeta.matchSnakeId (Js.toLowerCase (SqliteMeta.name col)) with
  | None => false
  | Some m1 =>
      let base := normalize m1 in
      if String.eqb base "id" then false
      else existsb (fun tt => atLeast (dice base (normalize (SqliteMeta.tname tt))) minDiceSim)
                   tablesMeta
  end.

(** The set built for one table, in insertion order. *)
Definition badgeColumns (minDiceSim : Q) (tablesMeta : list SqliteMeta.TableMeta)
           (t : SqliteMeta.TableMeta) : list string :=
  Js.setOf (map SqliteMeta.name
              (List.filter (hasBadge minDiceSim tablesMeta) (SqliteMeta.columns t))).

(** [opts?.minDiceSim ?? 0.8]; [map.set(t.name, set)] for every table. *)
Definition buildNameBasedBadgeByTable (tablesMeta : list SqliteMeta.TableMeta)
           (opts : option (option Q)) : gmap string (list string) :=
  let minDiceSim := match opts with Some (Some q) => q | _ => 8 # 10 end in
  fold_left (fun m t => <[ SqliteMeta.tname t := badgeColumns minDiceSim tablesMeta t ]> m)
            tablesMeta ∅.

End BadgeHeuristics.


(** ** fkKey.ts *)

Module FkKey.

(** [`${fromTable}.${fromColumn}->${toTable}.${toColumn}`] *)
Definition fkKey (k : SqliteMeta.FKTuple) : string :=
  SqliteMeta.fromTable k +:+ "." +:+ SqliteMeta.fromColumn k +:+ "->"
  +:+ SqliteMeta.toTable k +:+ "." +:+ SqliteMeta.toColumn k.

Definition manualEdgeId (fk : SqliteMeta.FKTuple) : string := "mfk-" +:+ fkKey fk.

End FkKey.

(** ** useCsvImport.ts: the batches of [importOne] *)

Module UseCsvImport.

(** A parsed row, [Record<string, string>]. *)
Definition Row : Type := list (string * string).

(** [r[name]], a [string | undefined]. *)
Fixpoint field (r : Row) (name : string) : option string :=
  match r with
  | [] => None
  | (k, v) :: rest => if String.eqb k name then Some v else field rest name
  end.

Definition BATCH : nat := 1000.

(** [rows.slice(off, Math.min(off + BATCH, rows.length))] *)
Definition sliceAt {A} (off : nat) (rows : list A) : list A :=
  firstn (Nat.min (off + BATCH) (length rows) - off) (skipn off rows).

(** [for (let off = 0; off < rows.length; off += BATCH)]: the slices, one
    per turn; [fuel] bounds the number of turns. *)
Fixpoint slicesFrom {A} (fuel off : nat) (rows : list A) : list (list A) :=
  match fuel with
  | 0 => []
  | S fuel' =>
      if Nat.ltb off (length rows)
      then sliceAt off rows :: slicesFrom fuel' (off + BATCH) rows
      else []
  end.

(** The tuples of one INSERT statement: one list of literals per row. *)
Definition valuesOf (cols : list Schema.InferredCol) (slice : list Row) : list (list string) :=
  map (fun r => map (fun c => Schema.toSqlLiteral (field r (Schema.name c)) c) cols) slice.

(** The INSERT statements of [importOne], by their tuples. *)
Definition insertBatches (fuel : nat) (cols : list Schema.InferredCol) (rows : list Row)
  : list (list (list string)) :=
  map (valuesOf cols) (slicesFrom fuel 0 rows).

(** [inserted] after the batches: [Math.min(cur + slice.length, rows.length)]
    at each turn, from 0. *)
Definition progress {A} (total : nat) (slices : list (list A)) : nat :=
  fold_left (fun cur slice => Nat.min (cur + length slice) total) slices 0.

End UseCsvImport.

(** ** analytics.ts *)

Module Analytics.

Import Store.

Record FkEdge : Type := {
  source : string;
  target : string;
  col : string;
  coverage : Q;
  matched : Z;
  total : Z
}.

Definition singularize (s : string) : string :=
  if Js.endsWith s "s" then Js.dropLast 1 s else s.

Definition noLineTerminator (s : string) : bool :=
  Js.forallChars (fun c => negb (Js.isLineTerminator c)) s.

(** [col.match(/^(.*?)(?:_?id)$/i)]: the captured group.  The lazy group
    stops at the first place where [_id] or [id] ends the name, so an
    underscore before [id] is never part of it. *)
Definition matchIdSuffix (col : string) : option string :=
  let lc := Js.toLowerCase col in
  if Js.endsWith lc "_id" then
    let m1 := Js.dropLast 3 col in
    if noLineTerminator m1 then Some m1 else None
  else if Js.endsWith lc "id" then
    let m1 := Js.dropLast 2 col in
    if noLineTerminator m1 then Some m1 else None
  else None.

(** [/^id$/i.test(col)] *)
Definition isBareId (col : string) : bool := String.eqb (Js.toLowerCase col) "id".

(** [m[1].replace(/[_\s]+$/g, "").toLowerCase()] *)
Definition baseOf (m1 : string) : string :=
  Js.toLowerCase (Js.dropWhileEnd (fun c => Ascii.eqb c "_"%char || Js.isSpace c) m1).

(** The base name of a column that passes the three [continue] tests. *)
Definition candidateBase (col : string) : option string :=
  match matchIdSuffix col with
  | None => None
  | Some m1 =>
      if isBareId col then None
      else
        let base := baseOf m1 in
        if Js.isEmpty base then None else Some base
  end.

Definition variants (base : string) : list string :=
  let sg := singularize base in
  Js.setOf [base; sg; base +:+ "s"; sg +:+ "s"].

(** [new Map(tables.map(n => [n.toLowerCase(), n]))] *)
Definition lowerToOrig (tables : list string) : gmap string string :=
  fold_left (fun m n => <[ Js.toLowerCase n := n ]> m) tables ∅.

(** The loop that fills [parents]. *)
Definition parentsOf (tables : list string) (base : string) : list string :=
  omap (fun v => lowerToOrig tables !! v) (variants base).

Definition MIN_COVERAGE : Q := 8 # 10.

(** [pcols.find(pc => pc.pk === 1)?.name ?? "id"] *)
Definition pkColOf (pcols : list TableInfoRow) : string :=
  match find (fun pc => Z.eqb (ti_pk pc) 1) pcols with
  | Some pc => ti_name pc
  | None => "id"
  end.

(** [res[0]?.matched ?? 0] and [res[0]?.total ?? 0] *)
Definition matchedOf (res : list CoverageRow) : Z :=
  match res with
  | r :: _ => default 0%Z (cr_matched r)
  | [] => 0%Z
  end.

Definition totalOf (res : list CoverageRow) : Z :=
  match res with
  | r :: _ => cr_total r
  | [] => 0%Z
  end.

(** The loop [for (const parent of parents)], left by [break] at the
    first parent whose coverage reaches [MIN_COVERAGE]. *)
Fixpoint scanParents (st : Store.t) (child col : string) (parents : list string)
  : M (option FkEdge) :=
  match parents with
  | [] => ret None
  | parent :: rest =>
      do pcols <- queryTableInfo st parent ;
      let pkCol := pkColOf pcols in
      do res <- queryCoverage st child col parent pkCol ;
      let matched := matchedOf res in
      let total := totalOf res in
      if Z.eqb total 0 then scanParents st child col rest
      else
        let coverage := (inject_Z matched / inject_Z total)%Q in
        if atLeast coverage MIN_COVERAGE then
          ret (Some {| source := child; target := parent; col := col;
                       coverage := coverage; matched := matched; total := total |})
        else scanParents st child col rest
  end.

(** One turn of [for (const c of cols)]. *)
Definition columnEdge (st : Store.t) (tables : list string) (child col : string)
  : M (option FkEdge) :=
  match candidateBase col with
  | None => ret None
  | Some base => scanParents st child col (parentsOf tables base)
  end.

Fixpoint columnsEdges (st : Store.t) (tables : list string) (child : string)
         (cols : list TableInfoRow) : M (list FkEdge) :=
  match cols with
  | [] => ret []
  | c :: rest =>
      do e <- columnEdge st tables child (ti_name c) ;
      do es <- columnsEdges st tables child rest ;
      ret (match e with Some x => x :: es | None => es end)
  end.

(** The loop [for (const child of tables)]; [all] is the caller's list. *)
Fixpoint tablesEdges (st : Store.t) (all : list string) (children : list string)
  : M (list FkEdge) :=
  match children with
  | [] => ret []
  | child :: rest =>
      do cols <- queryTableInfo st child ;
      do es <- columnsEdges st all child cols ;
      do es' <- tablesEdges st all rest ;
      ret (es ++ es')
  end.

(** [b.coverage - a.coverage || b.matched - a.matched] is negative. *)
Definition sortsBefore (a b : FkEdge) : bool :=
  match (coverage b ?= coverage a)%Q with
  | Lt => true
  | Gt => false
  | Eq => Z.ltb (matched b) (matched a)
  end.

Fixpoint insertEdge (x : FkEdge) (l : list FkEdge) : list FkEdge :=
  match l with
  | [] => [x]
  | y :: r => if sortsBefore x y then x :: l else y :: insertEdge x r
  end.

(** [Array.prototype.sort] with that comparator; the sort is stable. *)
Definition sortEdges (l : list FkEdge) : list FkEdge :=
  fold_left (fun acc x => insertEdge x acc) l [].

Definition inferFkEdges (st : Store.t) (tables : list string) : M (list FkEdge) :=
  do edges <- tablesEdges st tables tables ;
  ret (firstn 30 (sortEdges edges)).

(** The column an edge belongs to. *)
Definition edgeKey (e : FkEdge) : string * string := (source e, col e).

(** [e] was pushed while the loops were at a column of one of [children]. *)
Definition cameFrom (st : Store.t) (all children : list string) (e : FkEdge) : Prop :=
  exists child cols c,
    child ∈ children /\ tableInfo st child = Ok cols /\ c ∈ cols
    /\ outcome (columnEdge st all child (ti_name c)) = Ok (Some e).


Record TypeDistRow : Type := {
  td_table : string;
  td_INTEGER : nat;
  td_REAL : nat;
  td_NUMERIC : nat;
  td_TEXT : nat
}.

(** [row[mapAffinity(c.type)]++] *)
Definition countType (row : TypeDistRow) (c : TableInfoRow) : TypeDistRow :=
  match AffinityMap.mapAffinity (Some (ti_type c)) with
  | INTEGER => {| td_table := td_table row; td_INTEGER := S (td_INTEGER row);
                  td_REAL := td_REAL row; td_NUMERIC := td_NUMERIC row;
                  td_TEXT := td_TEXT row |}
  | REAL => {| td_table := td_table row; td_INTEGER := td_INTEGER row;
               td_REAL := S (td_REAL row); td_NUMERIC := td_NUMERIC row;
               td_TEXT := td_TEXT row |}
  | NUMERIC => {| td_table := td_table row; td_INTEGER := td_INTEGER row;
                  td_REAL := td_REAL row; td_NUMERIC := S (td_NUMERIC row);
                  td_TEXT := td_TEXT row |}
  | TEXT => {| td_table := td_table row; td_INTEGER := td_INTEGER row;
               td_REAL := td_REAL row; td_NUMERIC := td_NUMERIC row;
               td_TEXT := S (td_TEXT row) |}
  end.

Definition typeRow (t : string) (cols : list TableInfoRow) : TypeDistRow :=
  fold_left countType cols
    {| td_table := t; td_INTEGER := 0; td_REAL := 0; td_NUMERIC := 0; td_TEXT := 0 |}.

Definition typeTotal (r : TypeDistRow) : nat :=
  td_INTEGER r + td_REAL r + td_NUMERIC r + td_TEXT r.

(** The loop [for (const t of tables)] of [buildTypeDistribution]. *)
Fixpoint typeRows (st : Store.t) (tables : list string) : M (list TypeDistRow) :=
  match tables with
  | [] => ret []
  | t :: rest =>
      do cols <- queryTableInfo st t ;
      do out <- typeRows st rest ;
      ret (typeRow t cols :: out)
  end.

Definition buildTypeDistribution (st : Store.t) (tables : list string)
  : M (list TypeDistRow) :=
  do out <- typeRows st tables ;
  ret (firstn 5 (Js.sortDescending (fun r => Z.of_nat (typeTotal r)) out)).

End Analytics.


(** ** relationsService.ts *)

Module Relations.

Import Store.

Definition MIN_FK_COVERAGE : Js.double := Js.toNumber "0.8".

(** The identifier between double quotes, each one inside written twice. *)
Definition Q (s : string) : string :=
  String Js.dquote (Js.doubleChar Js.dquote s +:+ String Js.dquote EmptyString).

Definition singular (s : string) : string :=
  if Js.endsWith s "ies" then Js.dropLast 3 s +:+ "y"
  else if Js.endsWith s "ses" then Js.dropLast 2 s
  else if Js.endsWith s "s" then Js.dropLast 1 s
  else s.

(** Of a column, [inferRelations] reads the name. *)
Record ColumnMeta : Type := { name : string }.

Record Relation : Type := {
  direction : string;
  fromTable : string;
  fromColumn : string;
  toTable : string;
  toColumn : string;
  joinExample : string
}.

(** [cols.find(c => c.pk === 1)?.name
       ?? cols.find(c => c.name.toLowerCase() === "id")?.name] *)
Definition declaredKey (cols : list TableInfoRow) : option string :=
  match find (fun c => Z.eqb (ti_pk c) 1) cols with
  | Some c => Some (ti_name c)
  | None =>
      option_map ti_name
        (find (fun c => String.eqb (Js.toLowerCase (ti_name c)) "id") cols)
  end.

(** A name that is there and is not the empty text. *)
Definition truthyName (n : option string) : option string :=
  match n with
  | Some k => if Js.isEmpty k then None else Some k
  | None => None
  end.

(** The loop over the columns: the first whose number of distinct values
    that are not NULL is the number of rows. *)
Fixpoint firstAllDistinct (st : Store.t) (table : string) (total : Js.double)
         (cols : list TableInfoRow) : M (option string) :=
  match cols with
  | [] => ret None
  | c :: rest =>
      do rows <- queryCountDistinct st table (ti_name c) ;
      do d <- firstRow rows ;
      if Js.numEq (Js.ofZ d) total then ret (Some (ti_name c))
      else firstAllDistinct st table total rest
  end.

Definition getParentKey (st : Store.t) (table : string) : M (option string) :=
  do cols <- queryTableInfo st table ;
  match truthyName (declaredKey cols) with
  | Some pk => ret (Some pk)
  | None =>
      do idx <- queryIndexList st table ;
      do indexed <-
        match find (fun i => Z.eqb (il_unique i) 1) idx with
        | Some u =>
            do info <- queryIndexInfo st (il_name u) ;
            ret (truthyName (option_map ii_name (head info)))
        | None => ret None
        end ;
      match indexed with
      | Some k => ret (Some k)
      | None =>
          do rows <- queryCountRows st table ;
          do total <- firstRow rows ;
          if Js.numGt (Js.ofZ total) (Js.Finite 0)
          then firstAllDistinct st table (Js.ofZ total) cols
          else ret None
      end
  end.

(** [/_id$/i.test(name)] *)
Definition isFkCol (n : string) : bool := Js.endsWith (Js.toLowerCase n) "_id".

(** [name.toLowerCase().replace(/_id$/i, "")], of a name that passed the
    test. *)
Definition baseOf (n : string) : string := Js.dropLast 3 (Js.toLowerCase n).

Definition isCandidate (tableL base t : string) : bool :=
  let tl := Js.toLowerCase t in
  if String.eqb tl tableL then false
  else
    String.eqb tl base || String.eqb tl (base +:+ "s") || String.eqb tl (base +:+ "es")
    || String.eqb (singular tl) base || Js.startsWith tl base || Js.endsWith tl base.

Definition candidatesOf (table : string) (allTables : list string) (col : string)
  : list string :=
  List.filter (isCandidate (Js.toLowerCase table) (baseOf col)) allTables.

Record Best : Type := { parent : string; pk : string; coverage : Js.double }.

(** [total ? matched / total : 0]; a [matched] that is NULL counts as 0
    in the quotient. *)
Definition coverageOf (r : CoverageRow) : Js.double :=
  let total := Js.ofZ (cr_total r) in
  if Js.truthy total then Js.div (Js.ofZ (default 0%Z (cr_matched r))) total
  else Js.Finite 0.

(** [cov >= MIN_FK_COVERAGE && (!best || cov > best.coverage)] *)
Definition improves (cov : Js.double) (best : option Best) : bool :=
  Js.numGe cov MIN_FK_COVERAGE
  && match best with
     | None => true
     | Some b => Js.numGt cov (coverage b)
     end.

(** The loop [for (const parent of candidates)]. *)
Fixpoint scanCandidates (st : Store.t) (table col : string) (best : option Best)
         (candidates : list string) : M (option Best) :=
  match candidates with
  | [] => ret best
  | p :: rest =>
      do key <- getParentKey st p ;
      match truthyName key with
      | None => scanCandidates st table col best rest
      | Some k =>
          do rows <- queryCoverageText st table col p k ;
          do r <- firstRow rows ;
          let cov := coverageOf r in
          scanCandidates st table col
            (if improves cov best
             then Some {| parent := p; pk := k; coverage := cov |}
             else best)
            rest
      end
  end.

Definition exampleOf (table col : string) (b : Best) : string :=
  "SELECT * " +:+ String Js.newline (Js.spaces 24)
  +:+ "FROM " +:+ Q table +:+ " c " +:+ String Js.newline (Js.spaces 24)
  +:+ "JOIN " +:+ Q (parent b) +:+ " p " +:+ String Js.newline (Js.spaces 26)
  +:+ "ON c." +:+ Q col +:+ " = p." +:+ Q (pk b) +:+ ";".

Definition relationOf (table col : string) (b : Best) : Relation :=
  {| direction := "child"; fromTable := table; fromColumn := col;
     toTable := parent b; toColumn := pk b; joinExample := exampleOf table col b |}.

(** The loop [for (const col of fkCols)]. *)
Fixpoint columnsRelations (st : Store.t) (table : string) (allTables : list string)
         (fkCols : list ColumnMeta) : M (list Relation) :=
  match fkCols with
  | [] => ret []
  | c :: rest =>
      do best <- scanCandidates st table (name c) None
                   (candidatesOf table allTables (name c)) ;
      do rels <- columnsRelations st table allTables rest ;
      ret (match best with
           | Some b => relationOf table (name c) b :: rels
           | None => rels
           end)
  end.

Definition inferRelations (st : Store.t) (table : string) (columns : list ColumnMeta)
           (allTables : list string) : M (list Relation) :=
  let fkCols := List.filter (fun c => isFkCol (name c)) columns in
  if Nat.eqb (length fkCols) 0 then ret []
  else columnsRelations st table allTables fkCols.

End Relations.


(** ** selectors.ts

    The computations inside [React.useMemo]; the hook adds nothing but the
    cache. *)

Module Selectors.

Record Stat : Type := {
  name : string;
  rows : Z;
  cols : Z;
  sizeScore : Z;
  avgNullRate : Q
}.

Definition useTopRows (stats : list Stat) (n : Z) : list (string * Z) :=
  map (fun s => (name s, rows s)) (Js.sliceTo n (Js.sortDescending rows stats)).

(** [m.set(source, (m.get(source) ?? 0) + 1)] on a [Map] kept in insertion
    order. *)
Fixpoint countSource (m : list (string * Z)) (source : string) : list (string * Z) :=
  match m with
  | [] => [(source, 1%Z)]
  | (k, c) :: r =>
      if String.eqb k source then (k, (c + 1)%Z) :: r else (k, c) :: countSource r source
  end.

Definition outboundCounts (sources : list string) : list (string * Z) :=
  fold_left countSource sources [].

(** [fkEdges] is read through its [source] fields only. *)
Definition useOutboundTop (sources : list string) (n : Z) : list (string * Z) :=
  Js.sliceTo n (Js.sortDescending snd (outboundCounts sources)).


Record SizeRow : Type := {
  sr_name : string;
  sr_rows : Z;
  sr_cols : Z;
  sr_score : Z;
  sr_fill : option string
}.

(** [palette[i % palette.length]] is [undefined] ([None]) for an empty
    palette. *)
Definition useSizeTop (stats : list Stat) (n : Z) (palette : list string) : list SizeRow :=
  imap (fun i s =>
          {| sr_name := name s; sr_rows := rows s; sr_cols := cols s;
             sr_score := sizeScore s;
             sr_fill := match palette with
                        | [] => None
                        | _ => palette !! (i mod length palette)
                        end |})
       (Js.sliceTo n (Js.sortDescending sizeScore stats)).

End Selectors.

(** ** A relational reading of the store

    Tables with rows, and the answers SQLite gives to the statements of
    [Store.Query] on them. *)

Module Sql.

Import Store.

Inductive Value : Type :=
| VNull
| VInt (z : Z)
| VText (s : string).

Record Index : Type := { ix_name : string; ix_unique : bool; ix_columns : list string }.

(** The cells of a row follow the order of [t_columns]. *)
Record Table : Type := {
  t_name : string;
  t_columns : list TableInfoRow;
  t_rows : list (list Value);
  t_indexes : list Index
}.

Definition Db : Type := list Table.

Definition sameName (a b : string) : bool :=
  String.eqb (Js.toLowerCase a) (Js.toLowerCase b).

Definition findTable (db : Db) (n : string) : option Table :=
  find (fun t => sameName (t_name t) n) db.

Fixpoint position (n : string) (cols : list TableInfoRow) : option nat :=
  match cols with
  | [] => None
  | c :: r => if sameName (ti_name c) n then Some 0 else option_map S (position n r)
  end.

(** The cells of one column, top to bottom. *)
Definition columnCells (t : Table) (c : string) : option (list Value) :=
  option_map (fun i => map (fun row => nth i row VNull) (t_rows t))
             (position c (t_columns t)).

Definition isNull (v : Value) : bool :=
  match v with VNull => true | _ => false end.

(** [a = b] is true: neither side is NULL and the values are the same. *)
Definition equal (a b : Value) : bool :=
  match a, b with
  | VInt x, VInt y => Z.eqb x y
  | VText x, VText y => String.eqb x y
  | _, _ => false
  end.

(** [child c LEFT JOIN parent p ON c.col = p.pk]: pairs (c.col, p.pk). *)
Definition leftJoin (cs ps : list Value) : list (Value * Value) :=
  flat_map (fun c => match List.filter (equal c) ps with
                     | [] => [(c, VNull)]
                     | hits => map (pair c) hits
                     end) cs.

(** The SELECT of [inferFkEdges] over the joined rows. *)
Definition coverageRow (cs ps : list Value) : CoverageRow :=
  let rows := List.filter (fun r => negb (isNull (fst r))) (leftJoin cs ps) in
  {| cr_matched :=
       match rows with
       | [] => None
       | _ => Some (Z.of_nat (length (List.filter (fun r => negb (isNull (snd r))) rows)))
       end;
     cr_total := Z.of_nat (length (List.filter (fun r => negb (isNull (fst r))) rows)) |}.

Definition noSuchTable {A} (n : string) : result A :=
  Err (StoreError ("no such table: " +:+ n)).
Definition noSuchColumn {A} (n : string) : result A :=
  Err (StoreError ("no such column: " +:+ n)).

Definition runCoverage (db : Db) (child col parent pkCol : string)
  : result (list CoverageRow) :=
  match findTable db child with
  | None => noSuchTable child
  | Some c =>
      match findTable db parent with
      | None => noSuchTable parent
      | Some p =>
          match columnCells p pkCol with
          | None => noSuchColumn pkCol
          | Some ps =>
              match columnCells c col with
              | None => noSuchColumn col
              | Some cs => Ok [coverageRow cs ps]
              end
          end
      end
  end.

(** A PRAGMA on a table that does not exist answers no rows. *)
Definition runTableInfo (db : Db) (n : string) : result (list TableInfoRow) :=
  Ok (match findTable db n with Some t => t_columns t | None => [] end).

Definition runIndexList (db : Db) (n : string) : result (list IndexListRow) :=
  Ok (match findTable db n with
      | Some t => map (fun i => {| il_name := ix_name i;
                                   il_unique := if ix_unique i then 1%Z else 0%Z |})
                      (t_indexes t)
      | None => []
      end).

Definition runIndexInfo (db : Db) (n : string) : result (list IndexInfoRow) :=
  Ok (match find (fun i => sameName (ix_name i) n) (flat_map t_indexes db) with
      | Some i => map (fun c => {| ii_name := c |}) (ix_columns i)
      | None => []
      end).

(** [SELECT COUNT( * )] *)
Definition runCountRows (db : Db) (n : string) : result (list Z) :=
  match findTable db n with
  | Some t => Ok [Z.of_nat (length (t_rows t))]
  | None => noSuchTable n
  end.

(** Two values are the same for DISTINCT. *)
Definition sameValue (a b : Value) : bool :=
  match a, b with
  | VNull, VNull => true
  | VInt x, VInt y => Z.eqb x y
  | VText x, VText y => String.eqb x y
  | _, _ => false
  end.

Fixpoint distinct (l : list Value) : list Value :=
  match l with
  | [] => []
  | v :: r => if existsb (sameValue v) r then distinct r else v :: distinct r
  end.

(** [SELECT COUNT(DISTINCT col) FROM n WHERE col IS NOT NULL] *)
Definition runCountDistinct (db : Db) (n col : string) : result (list Z) :=
  match findTable db n with
  | None => noSuchTable n
  | Some t =>
      match columnCells t col with
      | None => noSuchColumn col
      | Some cs =>
          Ok [Z.of_nat (length (distinct (List.filter (fun v => negb (isNull v)) cs)))]
      end
  end.

(** [CAST(v AS TEXT)] *)
Definition castText (v : Value) : Value :=
  match v with
  | VNull => VNull
  | VInt z =>
      VText (if Z.ltb z 0 then "-" +:+ Js.decimal (Z.abs_nat z)
             else Js.decimal (Z.abs_nat z))
  | VText s => VText s
  end.

(** The SELECT of [inferRelations]: the join is on the two sides cast to
    text. *)
Definition runCoverageText (db : Db) (child col parent pkCol : string)
  : result (list CoverageRow) :=
  match findTable db child with
  | None => noSuchTable child
  | Some c =>
      match findTable db parent with
      | None => noSuchTable parent
      | Some p =>
          match columnCells p pkCol with
          | None => noSuchColumn pkCol
          | Some ps =>
              match columnCells c col with
              | None => noSuchColumn col
              | Some cs => Ok [coverageRow (map castText cs) (map castText ps)]
              end
          end
      end
  end.

Definition store (db : Db) : Store.t :=
  {| listTables := Ok (map t_name db);
     tableInfo := runTableInfo db;
     indexList := runIndexList db;
     indexInfo := runIndexInfo db;
     coverage := runCoverage db;
     countRows := runCountRows db;
     countDistinct := runCountDistinct db;
     coverageText := runCoverageText db |}.

End Sql.


(** ** The specification's notions, in its own words

    Definitions that follow the wording of the specification, to be set
    against the code above. *)

Module Spec.

(** The trimmed values that are not empty. *)
Definition nonEmpty (cells : list string) : list string :=
  List.filter (fun s => negb (Js.isEmpty s)) cells.

(** "size of distinct-value set" *)
Definition distinctCount (cells : list string) : nat :=
  size (list_to_set (nonEmpty cells) : gset string).

(** "unique = (nonEmptyCount > 0) AND (size of distinct-value set == nonEmptyCount)" *)
Definition unique (cells : list string) : bool :=
  Nat.ltb 0 (length (nonEmpty cells))
  && Nat.eqb (distinctCount cells) (length (nonEmpty cells)).

(** The trimmed text of the cells a column of [inferSchema] holds. *)
Definition schemaCells (rows : list Js.object) (h : string) : list string :=
  map (fun r => Schema.cell r h) rows.

(** The trimmed text of the values [inferColumns] looks at; a null is
    an empty value. *)
Definition csvText (v : Js.value) : string :=
  if CsvUtils.isNullOrEmpty v then "" else Js.trim (Js.toString v).

Definition csvCells (rows : list Js.object) (h : string) : list string :=
  map csvText (CsvUtils.columnValues rows h).

Fixpoint digitsValue (acc : Z) (s : list ascii) : option Z :=
  match s with
  | [] => Some acc
  | c :: r =>
      if Js.isDigit c then digitsValue (10 * acc + Z.of_nat (Js.code c - 48)) r
      else None
  end.

Definition unsignedValue (s : list ascii) : option Z :=
  match s with
  | [] => None
  | _ => digitsValue 0 s
  end.

(** "parsed back as an integer": an optional sign and decimal digits. *)
Definition parseInteger (s : string) : option Z :=
  match list_ascii_of_string s with
  | c :: r =>
      if Ascii.eqb c "-"%char then option_map Z.opp (unsignedValue r)
      else if Ascii.eqb c "+"%char then unsignedValue r
      else unsignedValue (c :: r)
  | [] => None
  end.

(** "ends with [_id] (case-insensitive, also accepting camelCase ...Id/...ID)" *)
Definition fkName (c : string) : bool :=
  Js.endsWith (Js.toLowerCase c) "_id" || Js.endsWith c "Id" || Js.endsWith c "ID".

(** Parent [p] is a candidate that meets the threshold for the column
    [child.col], with the edge [e] the code builds for it. *)
Definition meetsThreshold (st : Store.t) (child col p : string) (e : Analytics.FkEdge)
  : Prop :=
  exists pcols res,
    Store.tableInfo st p = Store.Ok pcols
    /\ Store.coverage st child col p (Analytics.pkColOf pcols) = Store.Ok res
    /\ Analytics.totalOf res <> 0%Z
    /\ atLeast (inject_Z (Analytics.matchedOf res) / inject_Z (Analytics.totalOf res))
               Analytics.MIN_COVERAGE = true
    /\ e = {| Analytics.source := child; Analytics.target := p; Analytics.col := col;
              Analytics.coverage :=
                inject_Z (Analytics.matchedOf res) / inject_Z (Analytics.totalOf res);
              Analytics.matched := Analytics.matchedOf res;
              Analytics.total := Analytics.totalOf res |}.


(** How SQL reads a quoted token: after the opening quote [q], a doubled
    [q] stands for one [q] and a single [q] ends the token.  The result is
    the text denoted and what follows the token. *)
Fixpoint readBody (q : ascii) (s : string) : option (string * string) :=
  match s with
  | EmptyString => None
  | String c r =>
      if Ascii.eqb c q then
        match r with
        | String c' r' =>
            if Ascii.eqb c' q
            then option_map (fun p => (String q (fst p), snd p)) (readBody q r')
            else Some (EmptyString, r)
        | EmptyString => Some (EmptyString, EmptyString)
        end
      else option_map (fun p => (String c (fst p), snd p)) (readBody q r)
  end.

Definition readQuoted (q : ascii) (s : string) : option (string * string) :=
  match s with
  | String c r => if Ascii.eqb c q then readBody q r else None
  | EmptyString => None
  end.

(** The characters of a plain SQL identifier and the ones it can start with. *)
Definition isIdentChar (c : ascii) : bool :=
  Js.isLower c || Js.isDigit c || Ascii.eqb c "_"%char.

Definition isIdentStart (c : ascii) : bool := Js.isLower c || Ascii.eqb c "_"%char.

(** The first character of a text, if any, satisfies [p]. *)
Definition startsIn (p : ascii -> bool) (s : string) : bool :=
  match s with
  | String c _ => p c
  | EmptyString => false
  end.


(** The text of a number: an integer or a real of the two patterns. *)
Definition isNumeric (s : string) : bool :=
  Re.test Patterns.intRe s || Re.test Patterns.realRe s.

(** [lit] is the literal of the bound value [b]: NULL for [null], a text
    of a number whose [Number] is the number bound, the quoted text for a
    text. *)
Definition writes (lit : string) (b : Sqlite.SqlValue) : Prop :=
  match b with
  | Sqlite.BNull => lit = "NULL"
  | Sqlite.BNumber d => isNumeric lit = true /\ d = Js.toNumber lit
  | Sqlite.BText s => lit = "'" +:+ Schema.escapeQuotes s +:+ "'"
  end.

(** A number bound is the [Number] of the text of a number, and a text
    bound is not empty. *)
Definition wellFormed (b : Sqlite.SqlValue) : Prop :=
  match b with
  | Sqlite.BNull => True
  | Sqlite.BNumber d => exists s, isNumeric s = true /\ d = Js.toNumber s
  | Sqlite.BText s => s <> ""
  end.


(** The candidates the inner loop of [inferForeignKeys] does not skip. *)
Definition allowedTarget (o : SqliteMeta.InferOptions) (self table : string) : bool :=
  SqliteMeta.allowSelfReference o || negb (String.eqb table self).

(** The score of a table name against the base of a column name. *)
Definition nameScore (base table : string) : Q :=
  SqliteMeta.diceSim base (SqliteMeta.normalize table).

(** A column that can be the target of a key. *)
Definition isKeyColumn (c : SqliteMeta.ColumnMeta) : bool :=
  SqliteMeta.isPk c || String.eqb (Js.toLowerCase (SqliteMeta.name c)) "id"
  || SqliteMeta.uniqueNoNull c.


(** Column [x] of [table] is the only column of one of its unique indexes. *)
Definition uniqueByIndex (st : Store.t) (table x : string) : Prop :=
  exists idxList idx c,
    Store.indexList st table = Store.Ok idxList
    /\ idx ∈ idxList /\ Store.il_unique idx = 1%Z
    /\ Store.indexInfo st (Store.il_name idx) = Store.Ok [c]
    /\ Store.ii_name c = x /\ x <> "".

(** Column [x] is named by a row of [table_info] with [pk = 1]. *)
Definition firstKeyColumn (ti : list Store.TableInfoRow) (x : string) : Prop :=
  exists r, r ∈ ti /\ Store.ti_pk r = 1%Z /\ Store.ti_name r = x.

(** Every statement the computation sent was answered. *)
Definition answered (st : Store.t) {A} (m : Store.M A) : Prop :=
  forall q, q ∈ Store.sent m -> Store.failure st q = None.


(** Edge [a] ranks no lower than edge [b]: it has the higher coverage, or
    the same coverage and at least as many matched rows. *)
Definition ranksBefore (a b : Analytics.FkEdge) : Prop :=
  (Analytics.coverage b < Analytics.coverage a)%Q
  \/ (Analytics.coverage b == Analytics.coverage a
      /\ (Analytics.matched b <= Analytics.matched a)%Z).


(** [kept] holds the [n] entries of [all] with the highest keys, highest
    first: [all] can be arranged as [kept] followed by entries of keys no
    higher than any key of [kept]. *)
Definition topBy {A} (key : A -> Z) (n : Z) (all kept : list A) : Prop :=
  exists rest,
    kept ++ rest ≡ₚ all
    /\ StronglySorted (fun a b => (key b <= key a)%Z) (kept ++ rest)
    /\ length kept = Z.to_nat (Z.max 0 (Z.min (if Z.ltb n 0 then Z.of_nat (length all) + n else n)
                                              (Z.of_nat (length all)))).

(** The number of entries of [l] equal to [x]. *)
Definition occurrences (l : list string) (x : string) : Z :=
  Z.of_nat (length (List.filter (String.eqb x) l)).


(** [m.get(k) ?? 0] on a [Map] listed in insertion order. *)
Definition countOf (m : list (string * Z)) (k : string) : Z :=
  match find (fun e => String.eqb (fst e) k) m with
  | Some e => snd e
  | None => 0%Z
  end.


(** The number of columns whose declared type [mapAffinity] reads as [a]. *)
Definition declaredAs (a : Affinity) (cols : list Store.TableInfoRow) : nat :=
  length (List.filter
            (fun c => Affinity_eqb (AffinityMap.mapAffinity (Some (Store.ti_type c))) a) cols).


(** No character of [s] is [c]. *)
Definition freeOf (c : ascii) (s : string) : bool :=
  Js.forallChars (fun x => negb (Ascii.eqb x c)) s.



End Spec.


(** ** Sample data *)

Module Examples.

(** The rows of a one-column CSV file. *)
Definition column (h : string) (cells : list string) : list Js.object :=
  map (fun v => [(h, Js.Str v)]) cells.

(** Scenario A of the specification. *)
Definition scenarioA : list Js.object := column "c" ["1"; "2"; "3"; ""].

(** A table [users] whose two key-like columns both qualify. *)
Definition twoKeys : list Js.object :=
  [ [("users_id", Js.Str "a"); ("id", Js.Str "1")];
    [("users_id", Js.Str "b"); ("id", Js.Str "2")] ].

(** An [id] column that repeats a value. *)
Definition repeatedId : list Js.object := column "id" ["1"; "1"; "2"].

(** Nineteen flags and one other integer: 95% boolean tokens. *)
Definition mostlyFlags : list Js.object := column "flag" (repeat "1" 19 ++ ["5"]).

Definition plainColumn (n : string) : Store.TableInfoRow :=
  {| Store.ti_name := n; Store.ti_type := "INTEGER"; Store.ti_notnull := 0; Store.ti_pk := 0 |}.

Definition keyColumn (n : string) : Store.TableInfoRow :=
  {| Store.ti_name := n; Store.ti_type := "INTEGER"; Store.ti_notnull := 1; Store.ti_pk := 1 |}.

Definition ints (l : list Z) : list (list Sql.Value) := map (fun z => [Sql.VInt z]) l.

(** [orders.user_id] finds four of its five values in [user] and all five
    in [users]. *)
Definition shop : Sql.Db :=
  [ {| Sql.t_name := "orders"; Sql.t_columns := [plainColumn "user_id"];
       Sql.t_rows := ints [1; 2; 3; 4; 5]%Z; Sql.t_indexes := [] |};
    {| Sql.t_name := "user"; Sql.t_columns := [keyColumn "id"];
       Sql.t_rows := ints [1; 2; 3; 4]%Z; Sql.t_indexes := [] |};
    {| Sql.t_name := "users"; Sql.t_columns := [keyColumn "id"];
       Sql.t_rows := ints [1; 2; 3; 4; 5]%Z; Sql.t_indexes := [] |} ].

Definition shopTables : list string := ["orders"; "user"; "users"].

Definition ordersColumns : list Relations.ColumnMeta := [ {| Relations.name := "user_id" |} ].



(** Scenarios B and C of the specification: [users.role_id] against
    [roles.id] = {1, 2, 3}. *)
Definition staff (roleIds : list Z) : Sql.Db :=
  [ {| Sql.t_name := "roles"; Sql.t_columns := [keyColumn "id"];
       Sql.t_rows := ints [1; 2; 3]%Z; Sql.t_indexes := [] |};
    {| Sql.t_name := "users"; Sql.t_columns := [plainColumn "role_id"];
       Sql.t_rows := ints roleIds; Sql.t_indexes := [] |} ].

(** A column [paid] next to a table called [pa]. *)
Definition ledger : Sql.Db :=
  [ {| Sql.t_name := "invoices"; Sql.t_columns := [plainColumn "paid"];
       Sql.t_rows := ints [1; 1; 2]%Z; Sql.t_indexes := [] |};
    {| Sql.t_name := "pa"; Sql.t_columns := [keyColumn "id"];
       Sql.t_rows := ints [1; 2]%Z; Sql.t_indexes := [] |} ].

Definition ledgerTables : list string := ["invoices"; "pa"].

(** A store whose every statement fails, as when the database cannot be
    opened. *)
Definition down : Store.t :=
  let e := Store.StoreError "database unavailable" in
  {| Store.listTables := Store.Err e;
     Store.tableInfo := fun _ => Store.Err e;
     Store.indexList := fun _ => Store.Err e;
     Store.indexInfo := fun _ => Store.Err e;
     Store.coverage := fun _ _ _ _ => Store.Err e;
     Store.countRows := fun _ => Store.Err e;
     Store.countDistinct := fun _ _ => Store.Err e;
     Store.coverageText := fun _ _ _ _ => Store.Err e |}.

End Examples.


(** * Properties *)

(** ** The embedding at work *)

Example intRe_examples :
  map (Re.test Patterns.intRe) ["1"; "-12"; "+007"; ""; "+"; "1.5"; "12a"; " 1"]
  = [true; true; true; false; false; false; false; false].
Proof. reflexivity. Qed.

Example realRe_examples :
  map (Re.test Patterns.realRe) ["1.5"; ".5"; "1."; "1e10"; "-2.5E-3"; "."; "e5"; "1e"]
  = [true; true; true; true; true; false; false; false].
Proof. reflexivity. Qed.

Example dateRe_examples :
  map (Re.test Patterns.dateRe)
      ["2024-01-02"; "2024-01-02 10:20"; "2024-01-02T10:20:30Z";
       "2024-01-02+09:00"; "2024-1-2"; "2024-01-02t10:20"]
  = [true; true; true; true; false; false].
Proof. reflexivity. Qed.

Example trim_examples :
  map Js.trim ["  a b  "; ""; "   "; "x"] = ["a b"; ""; ""; "x"].
Proof. reflexivity. Qed.

Example normalize_examples :
  map SqliteMeta.normalize ["Categories"; "Boxes"; "products"; "order_items"; "Classes"]
  = ["category"; "box"; "product"; "orderitem"; "clas"].
Proof. reflexivity. Qed.

Example candidateBase_examples :
  map Analytics.candidateBase ["user_id"; "userId"; "userID"; "id"; "ID"; "_id"; "category"]
  = [Some "user"; Some "user"; Some "user"; None; None; None; None].
Proof. reflexivity. Qed.

(** Scenario A: ["1"; "2"; "3"; ""] is an INTEGER column, unique, with a null. *)
Example scenario_A :
  Schema.cols (Schema.inferSchema Examples.scenarioA ["c"] "t")
  = [ {| Schema.name := "c"; Schema.affinity := INTEGER; Schema.notNull := false;
         Schema.unique := true; Schema.isBool := false; Schema.isDateLike := false |} ].
Proof. vm_compute. reflexivity. Qed.

(** Scenario B: all four [role_id] values are keys of [roles]. *)
Example scenario_B :
  Store.outcome (Analytics.inferFkEdges (Sql.store (Examples.staff [1; 1; 2; 3]%Z))
                                        ["roles"; "users"])
  = Store.Ok [ {| Analytics.source := "users"; Analytics.target := "roles";
                  Analytics.col := "role_id"; Analytics.coverage := 4 # 4;
                  Analytics.matched := 4; Analytics.total := 4 |} ].
Proof. vm_compute. reflexivity. Qed.

(** Scenario C: three of four match, 0.75 is below the threshold. *)
Example scenario_C :
  Analytics.inferFkEdges (Sql.store (Examples.staff [1; 1; 2; 99]%Z)) ["roles"; "users"]
  = ([Store.QTableInfo "roles"; Store.QTableInfo "users"; Store.QTableInfo "roles";
      Store.QCoverage "users" "role_id" "roles" "id"],
     Store.Ok []).
Proof. vm_compute. reflexivity. Qed.

(** Scenario E: six boolean tokens. *)
Example scenario_E :
  Schema.inferCol (Examples.column "b" ["true"; "false"; "TRUE"; "1"; "0"; "yes"]) "b"
  = {| Schema.name := "b"; Schema.affinity := INTEGER; Schema.notNull := true;
       Schema.unique := true; Schema.isBool := true; Schema.isDateLike := false |}
  /\ Sqlite.guessAffinity (map Js.Str ["true"; "false"; "TRUE"; "1"; "0"; "yes"])
     = {| Sqlite.affinity := INTEGER; Sqlite.isBool := true; Sqlite.isDateLike := false |}.
Proof. split; vm_compute; reflexivity. Qed.

(** ** Patterns and integers *)

Lemma many_remainders p s r :
  r ∈ Re.many p s -> exists pre, s = pre ++ r /\ forallb p pre = true.
Proof.
  revert r. induction s as [|c s IH]; simpl; intros r Hr.
  - apply list_elem_of_singleton in Hr. subst. exists []. auto.
  - destruct (p c) eqn:Hc.
    + apply elem_of_app in Hr. destruct Hr as [Hr|Hr].
      * destruct (IH _ Hr) as (pre & -> & Hp). exists (c :: pre). simpl. rewrite Hc. auto.
      * apply list_elem_of_singleton in Hr. subst. exists []. auto.
    + apply list_elem_of_singleton in Hr. subst. exists []. auto.
Qed.

Lemma existsb_isNil l : existsb Re.isNil l = true -> [] ∈ l.
Proof.
  induction l as [|x l IH]; simpl; [discriminate|].
  destruct x; simpl; intros H.
  - left.
  - right. auto.
Qed.

Lemma many1_all p s : existsb Re.isNil (Re.many1 p s) = true -> s <> [] /\ forallb p s = true.
Proof.
  intros H. apply existsb_isNil in H. unfold Re.many1, Re.seq, Re.cls in H.
  destruct s as [|c s]; simpl in H; [inversion H|].
  destruct (p c) eqn:Hc; simpl in H; [|inversion H].
  rewrite app_nil_r in H. apply many_remainders in H. destruct H as (pre & Hs & Hp).
  rewrite app_nil_r in Hs. subst. split; [discriminate|]. simpl. rewrite Hc. auto.
Qed.

Lemma digitsValue_defined s : forall acc, forallb Js.isDigit s = true -> exists z, Spec.digitsValue acc s = Some z.
Proof.
  induction s as [|c s IH]; simpl; intros acc H; eauto.
  apply andb_prop in H. destruct H as [Hc Hs]. rewrite Hc. eauto.
Qed.


Lemma seq_eps a s : Re.seq a Re.eps s = a s.
Proof.
  unfold Re.seq, Re.eps. induction (a s) as [|x l IH]; simpl; [reflexivity|].
  now rewrite IH.
Qed.

Lemma many1_value s :
  existsb Re.isNil (Re.many1 Js.isDigit s) = true -> exists z, Spec.unsignedValue s = Some z.
Proof.
  intros H. apply many1_all in H. destruct H as [Hne Hall].
  destruct s as [|c s]; [congruence|].
  unfold Spec.unsignedValue. now apply digitsValue_defined.
Qed.

Lemma intRe_parseInteger s :
  Re.test Patterns.intRe s = true -> exists z, Spec.parseInteger s = Some z.
Proof.
  unfold Re.test, Patterns.intRe, Spec.parseInteger.
  destruct (list_ascii_of_string s) as [|c r]; [discriminate|].
  unfold Re.cat. simpl fold_right. unfold Re.seq at 1.
  unfold Re.opt, Re.alt, Re.oneOf, Re.cls at 1, Re.eps.
  change (Re.seq (Re.many1 Js.isDigit) (fun s0 : list ascii => [s0]))
    with (Re.seq (Re.many1 Js.isDigit) Re.eps).
  simpl existsb at 2. rewrite orb_false_r.
  destruct (Ascii.eqb_spec c "-"%char) as [->|Hm].
  - simpl. rewrite seq_eps, app_nil_r.
    intros H. destruct (many1_value _ H) as [z ->]. simpl. eauto.
  - destruct (Ascii.eqb_spec c "+"%char) as [->|Hp].
    + simpl. rewrite seq_eps, app_nil_r. apply many1_value.
    + simpl. rewrite seq_eps, app_nil_r. apply many1_value.
Qed.

Lemma intRe_not_empty s : Re.test Patterns.intRe s = true -> s <> "".
Proof. intros H ->. discriminate H. Qed.

Lemma many_all p s : forallb p s = true -> existsb Re.isNil (Re.many p s) = true.
Proof.
  induction s as [|c s IH]; simpl; [reflexivity|].
  intros H. apply andb_prop in H. destruct H as [Hc Hs]. rewrite Hc.
  rewrite existsb_app, (IH Hs). reflexivity.
Qed.

Lemma digitsValue_digits s : forall acc z,
  Spec.digitsValue acc s = Some z -> forallb Js.isDigit s = true.
Proof.
  induction s as [|c s IH]; simpl; intros acc z H; [reflexivity|].
  destruct (Js.isDigit c); [|discriminate]. simpl. eauto.
Qed.

Lemma unsignedValue_many1 s z :
  Spec.unsignedValue s = Some z -> existsb Re.isNil (Re.many1 Js.isDigit s) = true.
Proof.
  destruct s as [|c s]; [discriminate|]. unfold Spec.unsignedValue. intros H.
  apply digitsValue_digits in H. simpl in H. apply andb_prop in H. destruct H as [Hc Hs].
  unfold Re.many1, Re.seq, Re.cls. rewrite Hc. simpl. rewrite app_nil_r.
  now apply many_all.
Qed.

(** The values [parseInteger] reads are the ones the integer pattern accepts. *)
Lemma parseInteger_intRe s z :
  Spec.parseInteger s = Some z -> Re.test Patterns.intRe s = true.
Proof.
  unfold Re.test, Patterns.intRe, Spec.parseInteger.
  destruct (list_ascii_of_string s) as [|c r]; [discriminate|].
  unfold Re.cat. simpl fold_right. unfold Re.seq at 1.
  unfold Re.opt, Re.alt, Re.oneOf, Re.cls at 1, Re.eps.
  change (Re.seq (Re.many1 Js.isDigit) (fun s0 : list ascii => [s0]))
    with (Re.seq (Re.many1 Js.isDigit) Re.eps).
  simpl existsb at 2. rewrite orb_false_r.
  destruct (Ascii.eqb_spec c "-"%char) as [->|Hm].
  - simpl. rewrite seq_eps, app_nil_r.
    destruct (Spec.unsignedValue r) as [u|] eqn:Hu; [|discriminate].
    intros _. now apply (unsignedValue_many1 r u).
  - destruct (Ascii.eqb_spec c "+"%char) as [->|Hp].
    + simpl. rewrite seq_eps, app_nil_r. apply unsignedValue_many1.
    + simpl existsb. simpl app. rewrite seq_eps, app_nil_r.
      apply unsignedValue_many1.
Qed.

(** *** Scanning a column in [inferSchema] *)

Section SchemaScan.

Variable h : string.

Let scan (st : Schema.Stats) (rows : list Js.object) : Schema.Stats :=
  fold_left (fun st r => Schema.scanCell st (Schema.cell r h)) rows st.

Lemma scan_cons st r rows : scan st (r :: rows) = scan (Schema.scanCell st (Schema.cell r h)) rows.
Proof. reflexivity. Qed.

Lemma scan_nonNull rows : forall st,
  Schema.nonNull (scan st rows)
  = Schema.nonNull st + length (Spec.nonEmpty (Spec.schemaCells rows h)).
Proof.
  induction rows as [|r rows IH]; intros st; [simpl; lia|].
  rewrite scan_cons, IH. unfold Schema.scanCell. simpl.
  destruct (Js.isEmpty (Schema.cell r h)); simpl; lia.
Qed.

Lemma scan_empty rows : forall st,
  Schema.empty (scan st rows) + length (Spec.nonEmpty (Spec.schemaCells rows h))
  = Schema.empty st + length rows.
Proof.
  induction rows as [|r rows IH]; intros st; [simpl; lia|].
  rewrite scan_cons. specialize (IH (Schema.scanCell st (Schema.cell r h))).
  unfold Schema.scanCell in *. simpl.
  destruct (Js.isEmpty (Schema.cell r h)); simpl in *; lia.
Qed.

Lemma scan_seen rows : forall st,
  Schema.seen (scan st rows)
  = Schema.seen st ∪ list_to_set (Spec.nonEmpty (Spec.schemaCells rows h)).
Proof.
  induction rows as [|r rows IH]; intros st.
  - simpl. set_solver.
  - rewrite scan_cons, IH. unfold Schema.scanCell. simpl.
    destruct (Js.isEmpty (Schema.cell r h)); simpl; set_solver.
Qed.

Lemma scan_asInt rows : forall st,
  Forall (fun s => Re.test Patterns.intRe s = true) (Spec.nonEmpty (Spec.schemaCells rows h)) ->
  Schema.asInt (scan st rows)
  = Schema.asInt st + length (Spec.nonEmpty (Spec.schemaCells rows h)).
Proof.
  induction rows as [|r rows IH]; intros st Hall; [simpl; lia|].
  rewrite scan_cons. simpl in Hall. unfold Schema.scanCell.
  destruct (Js.isEmpty (Schema.cell r h)) eqn:He; simpl in Hall.
  - rewrite IH by assumption. simpl. rewrite He. simpl. lia.
  - apply Forall_cons in Hall. destruct Hall as [Hr Hall].
    rewrite IH by assumption. simpl. rewrite He, Hr. simpl. lia.
Qed.

End SchemaScan.

Lemma inferCol_unique rows h :
  Schema.unique (Schema.inferCol rows h) = Schema.isUnique (Schema.scanColumn rows h).
Proof. unfold Schema.inferCol. destruct (Schema.classify _) as [[? ?] ?]. reflexivity. Qed.

Lemma inferCol_notNull rows h :
  Schema.notNull (Schema.inferCol rows h) = Schema.isNotNull (Schema.scanColumn rows h).
Proof. unfold Schema.inferCol. destruct (Schema.classify _) as [[? ?] ?]. reflexivity. Qed.

Lemma inferCol_affinity rows h :
  Schema.affinity (Schema.inferCol rows h) = fst (fst (Schema.classify (Schema.scanColumn rows h))).
Proof. unfold Schema.inferCol. destruct (Schema.classify _) as [[? ?] ?]. reflexivity. Qed.

Lemma inferCol_name rows h : Schema.name (Schema.inferCol rows h) = h.
Proof. unfold Schema.inferCol. destruct (Schema.classify _) as [[? ?] ?]. reflexivity. Qed.

Lemma inferSchema_unique_spec rows h :
  Schema.unique (Schema.inferCol rows h) = Spec.unique (Spec.schemaCells rows h).
Proof.
  rewrite inferCol_unique. unfold Schema.isUnique, Spec.unique, Spec.distinctCount, Schema.scanColumn.
  rewrite scan_nonNull, scan_seen. simpl.
  now rewrite (left_id_L ∅ (∪)).
Qed.

(** Where every non-empty cell is an integer and there is one at least,
    [inferSchema] gives the column the affinity INTEGER. *)
Lemma inferSchema_integer_column rows h :
  Forall (fun s => Re.test Patterns.intRe s = true) (Spec.nonEmpty (Spec.schemaCells rows h)) ->
  Spec.nonEmpty (Spec.schemaCells rows h) <> [] ->
  Schema.affinity (Schema.inferCol rows h) = INTEGER.
Proof.
  intros Hall Hne. rewrite inferCol_affinity. unfold Schema.classify, Schema.scanColumn.
  rewrite scan_nonNull, scan_asInt by assumption. simpl.
  destruct (Spec.nonEmpty (Spec.schemaCells rows h)) as [|x l]; [congruence|].
  simpl length. simpl Nat.ltb.
  destruct (atLeast _ _); [reflexivity|].
  now rewrite Nat.eqb_refl.
Qed.

(** *** Scanning a column in [inferColumns] *)

Lemma csv_scanValue_null st v :
  Js.isEmpty (Spec.csvText v) = true -> CsvUtils.scanValue st v = CsvUtils.sawNull st.
Proof.
  unfold Spec.csvText, CsvUtils.scanValue.
  destruct (CsvUtils.isNullOrEmpty v); [reflexivity|].
  intros H. destruct (Js.trim (Js.toString v)); [reflexivity|discriminate].
Qed.

Lemma csv_scanValue_value st v :
  Js.isEmpty (Spec.csvText v) = false ->
  CsvUtils.nullCount (CsvUtils.scanValue st v) = CsvUtils.nullCount st
  /\ CsvUtils.hasNull (CsvUtils.scanValue st v) = CsvUtils.hasNull st
  /\ CsvUtils.seen (CsvUtils.scanValue st v) = {[ Spec.csvText v ]} ∪ CsvUtils.seen st.
Proof.
  unfold Spec.csvText, CsvUtils.scanValue.
  destruct (CsvUtils.isNullOrEmpty v); [discriminate|].
  intros H. destruct (Js.trim (Js.toString v)); [discriminate|]. simpl. auto.
Qed.

Lemma csv_scan values : forall st,
  let st' := fold_left CsvUtils.scanValue values st in
  let cells := map Spec.csvText values in
  CsvUtils.nullCount st' + length (Spec.nonEmpty cells) = CsvUtils.nullCount st + length values
  /\ CsvUtils.hasNull st' = CsvUtils.hasNull st || existsb Js.isEmpty cells
  /\ CsvUtils.seen st' = CsvUtils.seen st ∪ list_to_set (Spec.nonEmpty cells).
Proof.
  induction values as [|v values IH]; intros st; simpl.
  - split; [|split]; [lia | now rewrite orb_false_r | set_solver].
  - destruct (IH (CsvUtils.scanValue st v)) as (Hn & Hh & Hs). clear IH.
    destruct (Js.isEmpty (Spec.csvText v)) eqn:He; simpl.
    + rewrite (csv_scanValue_null st v He) in *. simpl in *.
      split; [|split]; [lia | rewrite Hh; now rewrite orb_true_r | assumption].
    + destruct (csv_scanValue_value st v He) as (En & Eh & Es).
      rewrite En in Hn. rewrite Eh in Hh. rewrite Es in Hs.
      split; [|split]; [simpl; lia | assumption | rewrite Hs; simpl; set_solver].
Qed.

Lemma existsb_isEmpty_nonEmpty cells :
  existsb Js.isEmpty cells = false -> Spec.nonEmpty cells = cells.
Proof.
  induction cells as [|c cells IH]; simpl; [reflexivity|].
  destruct (Js.isEmpty c); simpl; [discriminate|]. intros H. now rewrite IH.
Qed.

Lemma inferColumns_unique_spec rows h :
  CsvUtils.unique (CsvUtils.inferColumn rows h)
  = negb (existsb Js.isEmpty (Spec.csvCells rows h)) && Spec.unique (Spec.csvCells rows h).
Proof.
  unfold CsvUtils.inferColumn, Spec.csvCells. simpl.
  destruct (csv_scan (CsvUtils.columnValues rows h) CsvUtils.noStats) as (Hn & Hh & Hs).
  simpl in *. rewrite Hh, Hs, (left_id_L ∅ (∪)).
  set (values := CsvUtils.columnValues rows h) in *.
  set (st' := fold_left CsvUtils.scanValue values CsvUtils.noStats) in *.
  assert (Hnn : length values - CsvUtils.nullCount st' = length (Spec.nonEmpty (map Spec.csvText values))) by lia.
  rewrite Hnn. unfold Spec.unique, Spec.distinctCount.
  destruct (existsb Js.isEmpty (map Spec.csvText values)); simpl; [reflexivity|].
  apply andb_comm.
Qed.

(** *** The primary key of [inferSchema] *)

Lemma filter_first {A} (p : A -> bool) l x rest :
  List.filter p l = x :: rest ->
  exists pre post, l = pre ++ x :: post /\ p x = true /\ Forall (fun y => p y = false) pre.
Proof.
  induction l as [|y l IH]; simpl; [discriminate|].
  destruct (p y) eqn:Hy.
  - intros [= -> <-]. exists [], l. auto.
  - intros H. destruct (IH H) as (pre & post & -> & Hx & Hpre).
    exists (y :: pre), post. auto.
Qed.

Lemma filter_none {A} (p : A -> bool) l :
  List.filter p l = [] -> Forall (fun y => p y = false) l.
Proof.
  induction l as [|y l IH]; simpl; [constructor|].
  destruct (p y) eqn:Hy; [discriminate|]. auto.
Qed.

Lemma isPkCandidate_name table c : Schema.isPkCandidate table c = true -> Schema.name c <> "".
Proof.
  unfold Schema.isPkCandidate, Schema.idLike. intros H Hn. rewrite Hn in H. simpl in H.
  destruct (Js.toLowerCase table); discriminate.
Qed.

Lemma choosePk_cases table cs p :
  Schema.choosePk table cs = Some p ->
  (exists pre c post,
      cs = pre ++ c :: post /\ Schema.name c = p
      /\ Schema.isPkCandidate table c = true
      /\ Forall (fun c' => Schema.isPkCandidate table c' = false) pre)
  \/ (Forall (fun c' => Schema.isPkCandidate table c' = false) cs
      /\ exists pre c post,
           cs = pre ++ c :: post /\ Schema.name c = p
           /\ Schema.isPlainId c = true
           /\ Forall (fun c' => Schema.isPlainId c' = false) pre).
Proof.
  unfold Schema.choosePk.
  destruct (List.filter _ cs) as [|c rest] eqn:Hf.
  - simpl. intros H. right. split; [now apply filter_none|].
    destruct (find Schema.isPlainId cs) as [c|] eqn:Hfind; [|discriminate].
    simpl in H. injection H as <-.
    clear Hf. induction cs as [|y cs IH]; [discriminate|]. simpl in Hfind.
    destruct (Schema.isPlainId y) eqn:Hy.
    + injection Hfind as ->. exists [], c, cs. auto.
    + destruct (IH Hfind) as (pre & c' & post & -> & Hn & Hp & Hpre).
      exists (y :: pre), c', post. rewrite Hn. auto.
  - simpl. destruct (filter_first _ _ _ _ Hf) as (pre & post & -> & Hc & Hpre).
    pose proof (isPkCandidate_name _ _ Hc) as Hne.
    destruct (Schema.name c) eqn:Hn; [congruence|]. simpl.
    intros [= <-]. left. exists pre, c, post. auto.
Qed.

Lemma choosePk_none table cs :
  Schema.choosePk table cs = None ->
  Forall (fun c' => Schema.isPkCandidate table c' = false) cs
  /\ Forall (fun c' => Schema.isPlainId c' = false) cs.
Proof.
  unfold Schema.choosePk.
  destruct (List.filter _ cs) as [|c rest] eqn:Hf.
  - simpl. destruct (find Schema.isPlainId cs) as [c|] eqn:Hfind; [discriminate|].
    intros _. split; [now apply filter_none|].
    rewrite Forall_forall. intros c Hc. apply list_elem_of_In in Hc.
    exact (find_none _ _ Hfind c Hc).
  - simpl. destruct (filter_first _ _ _ _ Hf) as (pre & post & -> & Hc & Hpre).
    pose proof (isPkCandidate_name _ _ Hc) as Hne.
    destruct (Schema.name c) eqn:Hn; [congruence|]. simpl. discriminate.
Qed.

(** ** Uniqueness (constraint profiler) *)

(** C2, as the code has it: [inferSchema] reports a column unique exactly
    when it has a non-empty value and as many distinct trimmed non-empty
    values as non-empty values; [inferColumns], the profiler that reports
    the null rate, asks in addition that no value be empty.  On
    ["1"; "2"; "3"; ""] the null rate is 1/4, [inferSchema] says unique and
    [inferColumns] says not unique. *)
Theorem unique_as_profiled (rows : list Js.object) (h : string) :
  Schema.unique (Schema.inferCol rows h) = Spec.unique (Spec.schemaCells rows h)
  /\ CsvUtils.unique (CsvUtils.inferColumn rows h)
     = negb (existsb Js.isEmpty (Spec.csvCells rows h)) && Spec.unique (Spec.csvCells rows h)
  /\ map Schema.unique (Schema.cols (Schema.inferSchema Examples.scenarioA ["c"] "t")) = [true]
  /\ map (fun c => (CsvUtils.nullRate c, CsvUtils.unique c))
         (CsvUtils.inferColumns Examples.scenarioA ["c"]) = [(1 # 4, false)].
Proof.
  split; [apply inferSchema_unique_spec|].
  split; [apply inferColumns_unique_spec|].
  split; vm_compute; reflexivity.
Qed.

(** C2, as the specification states it, fails on [inferColumns]: on
    ["1"; "2"; "3"; ""] the three non-empty values are distinct, so the
    stated rule gives unique = true, and the code reports unique = false
    next to the null rate 1/4. *)
Lemma inferColumns_empty_value_not_unique :
  Spec.unique (Spec.csvCells Examples.scenarioA "c") = true
  /\ map (fun c => (CsvUtils.nullRate c, CsvUtils.unique c))
         (CsvUtils.inferColumns Examples.scenarioA ["c"]) = [(1 # 4, false)].
Proof. split; vm_compute; reflexivity. Qed.

(** ** Affinity *)

(** C3, at the failing input: both values of ["1"; "2"] match the integer
    pattern, and [guessAffinity] answers TEXT.  The value "1" is counted as
    a boolean token only, so [ints] stays below [nn]. *)
Theorem guessAffinity_integer_column_is_text :
  forallb (fun v => Re.test Patterns.intRe (Js.toString v)) [Js.Str "1"; Js.Str "2"] = true
  /\ Sqlite.affinity (Sqlite.guessAffinity [Js.Str "1"; Js.Str "2"]) = TEXT
  /\ Schema.affinity (Schema.inferCol (Examples.column "c" ["1"; "2"]) "c") = INTEGER.
Proof. repeat split; vm_compute; reflexivity. Qed.

(** ** Primary key *)

(** C4, as the code has it: the key chosen by [inferSchema] is the first
    column, in header order, named [id] or [<table>_id] (names compared in
    lower case) that is not null, unique and of affinity INTEGER or TEXT;
    when no column qualifies, it is the first column named [id] that is not
    null and of affinity INTEGER, unique or not; there is no key only when
    neither kind of column exists. *)
Theorem inferSchema_pk_selection (rows : list Js.object) (headers : list string)
        (table : string) :
  let cs := Schema.cols (Schema.inferSchema rows headers table) in
  (forall p,
     Schema.pk (Schema.inferSchema rows headers table) = Some p ->
     (exists pre c post,
         cs = pre ++ c :: post /\ Schema.name c = p
         /\ Schema.idLike table p = true
         /\ Schema.notNull c = true /\ Schema.unique c = true
         /\ (Schema.affinity c = INTEGER \/ Schema.affinity c = TEXT)
         /\ Forall (fun c' => Schema.isPkCandidate table c' = false) pre)
     \/ (Forall (fun c' => Schema.isPkCandidate table c' = false) cs
         /\ exists pre c post,
              cs = pre ++ c :: post /\ Schema.name c = p
              /\ Js.toLowerCase p = "id"
              /\ Schema.notNull c = true /\ Schema.affinity c = INTEGER
              /\ Forall (fun c' => Schema.isPlainId c' = false) pre))
  /\ (Schema.pk (Schema.inferSchema rows headers table) = None ->
      Forall (fun c' => Schema.isPkCandidate table c' = false) cs
      /\ Forall (fun c' => Schema.isPlainId c' = false) cs).
Proof.
  intros cs. split; [|apply choosePk_none].
  intros p H. simpl in H. apply choosePk_cases in H.
  destruct H as [(pre & c & post & Hcs & Hn & Hc & Hpre)
                | (Hnone & pre & c & post & Hcs & Hn & Hc & Hpre)].
  - left. exists pre, c, post. subst p.
    unfold Schema.isPkCandidate in Hc.
    apply andb_prop in Hc. destruct Hc as [Hc Ha].
    apply andb_prop in Hc. destruct Hc as [Hc Hnn].
    apply andb_prop in Hc. destruct Hc as [Hid Hu].
    repeat split; try assumption.
    destruct (Schema.affinity c); simpl in Ha; auto; discriminate.
  - right. split; [assumption|]. exists pre, c, post. subst p.
    unfold Schema.isPlainId in Hc.
    apply andb_prop in Hc. destruct Hc as [Hc Ha].
    apply andb_prop in Hc. destruct Hc as [Hid Hnn].
    apply String.eqb_eq in Hid.
    repeat split; try assumption.
    destruct (Schema.affinity c); simpl in Ha; auto; discriminate.
Qed.

Lemma inferSchema_pk_selection_witness :
  let cs := Schema.cols (Schema.inferSchema Examples.repeatedId ["id"] "t") in
  (exists pre c post,
      cs = pre ++ c :: post /\ Schema.name c = "id"
      /\ Schema.idLike "t" "id" = true
      /\ Schema.notNull c = true /\ Schema.unique c = true
      /\ (Schema.affinity c = INTEGER \/ Schema.affinity c = TEXT)
      /\ Forall (fun c' => Schema.isPkCandidate "t" c' = false) pre)
  \/ (Forall (fun c' => Schema.isPkCandidate "t" c' = false) cs
      /\ exists pre c post,
           cs = pre ++ c :: post /\ Schema.name c = "id"
           /\ Js.toLowerCase "id" = "id"
           /\ Schema.notNull c = true /\ Schema.affinity c = INTEGER
           /\ Forall (fun c' => Schema.isPlainId c' = false) pre).
Proof.
  apply (inferSchema_pk_selection Examples.repeatedId ["id"] "t").
  vm_compute. reflexivity.
Defined.

(** C4, as the specification states it, fails: with the headers
    [users_id; id] of a table [users], both columns not null, unique and of
    an accepted affinity, the key is [users_id], the first in header order,
    and not [id]. *)
Lemma inferSchema_pk_follows_header_order :
  let r := Schema.inferSchema Examples.twoKeys ["users_id"; "id"] "users" in
  map (Schema.isPkCandidate "users") (Schema.cols r) = [true; true]
  /\ Schema.pk r = Some "users_id"
  /\ Schema.pk r <> Some "id".
Proof. split; [|split]; vm_compute; [reflexivity | reflexivity | discriminate]. Qed.

(** The second lookup does not ask for uniqueness: an [id] column that
    repeats a value is chosen all the same. *)
Lemma inferSchema_pk_not_unique :
  let r := Schema.inferSchema Examples.repeatedId ["id"] "t" in
  Schema.pk r = Some "id" /\ map Schema.unique (Schema.cols r) = [false].
Proof. split; vm_compute; reflexivity. Qed.

(** ** Literals *)

Lemma roundHalfEven_1 n : Js.roundHalfEven n 1 = n.
Proof. unfold Js.roundHalfEven. rewrite Z.mod_1_r, Z.div_1_r. reflexivity. Qed.

Lemma Qred_inject z : Qred (inject_Z z) = inject_Z z.
Proof.
  unfold Qred, inject_Z.
  generalize (Z.ggcd_gcd z 1) (Z.ggcd_correct_divisors z 1).
  destruct (Z.ggcd z 1) as [g [aa bb]]. simpl. intros Hg [Ha Hb].
  rewrite Z.gcd_1_r in Hg. subst g.
  rewrite Z.mul_1_l in Ha, Hb. subst aa bb. reflexivity.
Qed.

Lemma Qred_scaled z k : (0 <= k)%Z -> Qred ((z * 2 ^ k) # Z.to_pos (2 ^ k)) = inject_Z z.
Proof.
  intros Hk. assert (Hp : (0 < 2 ^ k)%Z) by (apply Z.pow_pos_nonneg; lia).
  rewrite (Qred_complete _ (inject_Z z)).
  - apply Qred_inject.
  - unfold Qeq, inject_Z. simpl. rewrite Z2Pos.id by assumption. lia.
Qed.

(** An integer of at most 53 bits is a double. *)
Lemma toDouble_integer z :
  (Z.abs z <= 2 ^ 53)%Z -> Js.toDouble (inject_Z z) = Js.Finite (inject_Z z).
Proof.
  intros Hz. unfold Js.toDouble. simpl Qnum. simpl Qden.
  destruct (Z.eqb_spec (Z.abs z) 0%Z) as [H0|H0].
  - assert (z = 0%Z) as -> by lia. reflexivity.
  - set (n := Z.abs z) in *. assert (Hn : (0 < n)%Z) by lia.
    pose proof (Z.log2_spec n Hn) as [Hlo Hhi].
    pose proof (Z.log2_nonneg n) as HL.
    assert (HL53 : (Z.log2 n <= 53)%Z).
    { change 53%Z with (Z.log2 (2 ^ 53)). now apply Z.log2_le_mono. }
    assert (Hb : Js.binade n 1 = Z.log2 n).
    { unfold Js.binade. change (Z.log2 1) with 0%Z. rewrite Z.sub_0_r.
      rewrite Z.max_r by lia. rewrite Z.max_l by lia.
      change (2 ^ 0)%Z with 1%Z. rewrite Z.mul_1_l, Z.mul_1_r.
      destruct (Z.leb_spec (2 ^ Z.log2 n)%Z n); [reflexivity|lia]. }
    rewrite Hb. rewrite Z.max_l by lia.
    set (L := Z.log2 n) in *.
    assert (Hsign : (if (z <? 0)%Z then (- n)%Z else n) = z).
    { unfold n. destruct (Z.ltb_spec z 0%Z); lia. }
    destruct (Z.eq_dec L 53%Z) as [E53|N53].
    + assert (Hn53 : n = (2 ^ 53)%Z) by (rewrite E53 in Hlo; lia).
      assert (Hcase : z = (2 ^ 53)%Z \/ z = (- 2 ^ 53)%Z) by lia.
      rewrite E53, Hn53. destruct Hcase as [-> | ->]; vm_compute; reflexivity.
    + destruct (Z.leb_spec 0%Z (L - 52)%Z) as [Hge|Hlt].
      * assert (L = 52%Z) as E52 by lia. rewrite E52.
        change (52 - 52)%Z with 0%Z. change (1 * 2 ^ 0)%Z with 1%Z.
        rewrite roundHalfEven_1. fold L. rewrite E52.
        change (1024 <=? 52 + 0)%Z with false. cbv iota.
        rewrite Hsign. change (2 ^ 0)%Z with 1%Z. now rewrite Z.mul_1_r.
      * rewrite roundHalfEven_1.
        assert (Hk : (0 <= - (L - 52))%Z) by lia.
        rewrite Z.log2_mul_pow2 by lia. fold L.
        match goal with
        | |- context [Z.leb 1024 ?x] => destruct (Z.leb_spec 1024%Z x); [lia|]
        end.
        replace (if (z <? 0)%Z then (- (n * 2 ^ (- (L - 52))))%Z else (n * 2 ^ (- (L - 52)))%Z)
          with (z * 2 ^ (- (L - 52)))%Z.
        -- rewrite Qred_scaled by lia. reflexivity.
        -- rewrite <- Hsign at 1. destruct (z <? 0)%Z; lia.
Qed.

Lemma readDigits_digitsValue s : forall acc z,
  Spec.digitsValue acc s = Some z -> Js.readDigits acc s = (z, length s, []).
Proof.
  induction s as [|c s IH]; simpl; intros acc z H.
  - now injection H as ->.
  - destruct (Js.isDigit c); [|discriminate]. now rewrite (IH _ _ H).
Qed.

Lemma scale10_integer z : Js.scale10 z (- Z.of_nat 0) = inject_Z z.
Proof. unfold Js.scale10. simpl. now rewrite Z.mul_1_r. Qed.

(** On the text of an integer, [Number] reads the integer [parseInteger]
    reads, and rounds it to a double. *)
Lemma toNumber_integer s z :
  Spec.parseInteger s = Some z -> Js.toNumber s = Js.toDouble (inject_Z z).
Proof.
  unfold Spec.parseInteger, Js.toNumber, Js.parseDecimal.
  destruct (list_ascii_of_string s) as [|c r]; [discriminate|].
  destruct (Ascii.eqb_spec c "-"%char) as [->|Hm].
  - destruct (Spec.unsignedValue r) as [u|] eqn:Hu; [|discriminate].
    intros [= <-]. change (Js.readSign ("-"%char :: r)) with (true, r).
    destruct r as [|c r]; [discriminate|]. unfold Spec.unsignedValue in Hu.
    rewrite (readDigits_digitsValue _ _ _ Hu). simpl length. simpl Nat.eqb. cbv iota.
    now rewrite scale10_integer.
  - destruct (Ascii.eqb_spec c "+"%char) as [->|Hp].
    + intros Hu. change (Js.readSign ("+"%char :: r)) with (false, r).
      destruct r as [|c r]; [discriminate|]. unfold Spec.unsignedValue in Hu.
      rewrite (readDigits_digitsValue _ _ _ Hu). simpl length. simpl Nat.eqb. cbv iota.
      now rewrite scale10_integer.
    + intros Hu.
      assert (Hs : Js.readSign (c :: r) = (false, c :: r)).
      { unfold Js.readSign. destruct (Ascii.eqb_spec c "-"%char); [congruence|].
        destruct (Ascii.eqb_spec c "+"%char); [congruence|reflexivity]. }
      rewrite Hs. unfold Spec.unsignedValue in Hu.
      rewrite (readDigits_digitsValue _ _ _ Hu). simpl length. simpl Nat.eqb. cbv iota.
      now rewrite scale10_integer.
Qed.

(** C7, as the code has it: in a column of affinity INTEGER that is not
    flagged boolean, a value that matches the integer pattern is written by
    [toSqlLiteral] as it is (trimmed), so that it parses back to its own
    integer value; [coerceByAffinity] binds the double nearest to that
    value, which is the value itself up to 2^53 in magnitude and need not
    be beyond: 9007199254740993 is bound as 9007199254740992.  In a column
    flagged boolean both yield 1 for a true token, 0 for a false token and
    NULL for any other value that is not empty. *)
Theorem toSqlLiteral_integer_roundtrip (col : Schema.InferredCol) (v : string) :
  (Schema.affinity col = INTEGER -> Schema.isBool col = false ->
   Re.test Patterns.intRe (Js.trim v) = true ->
   exists z,
     Spec.parseInteger (Js.trim v) = Some z
     /\ Schema.toSqlLiteral (Some v) col = Js.trim v
     /\ Spec.parseInteger (Schema.toSqlLiteral (Some v) col) = Some z
     /\ Sqlite.coerceByAffinity (Js.Str v) INTEGER false
        = Sqlite.BNumber (Js.toDouble (inject_Z z))
     /\ ((Z.abs z <= 2 ^ 53)%Z ->
         Sqlite.coerceByAffinity (Js.Str v) INTEGER false
         = Sqlite.BNumber (Js.Finite (inject_Z z))))
  /\ (Schema.isBool col = true -> Js.trim v <> "" ->
      Schema.toSqlLiteral (Some v) col
      = (if Patterns.isBoolTrue (Js.toLowerCase (Js.trim v)) then "1"
         else if Patterns.isBoolFalse (Js.toLowerCase (Js.trim v)) then "0"
         else "NULL")
      /\ Sqlite.coerceByAffinity (Js.Str v) (Schema.affinity col) true
         = (if Patterns.isBoolTrue (Js.toLowerCase (Js.trim v))
            then Sqlite.BNumber (Js.Finite 1)
            else if Patterns.isBoolFalse (Js.toLowerCase (Js.trim v))
            then Sqlite.BNumber (Js.Finite 0)
            else Sqlite.BNull))
  /\ Spec.parseInteger "9007199254740993" = Some 9007199254740993%Z
  /\ Sqlite.coerceByAffinity (Js.Str "9007199254740993") INTEGER false
     = Sqlite.BNumber (Js.Finite (inject_Z 9007199254740992)).
Proof.
  split; [|split; [|split; vm_compute; reflexivity]].
  - intros Ha Hb Hre.
    destruct (intRe_parseInteger _ Hre) as [z Hz]. exists z.
    pose proof (intRe_not_empty _ Hre) as Hne.
    assert (Hlit : Schema.toSqlLiteral (Some v) col = Js.trim v).
    { unfold Schema.toSqlLiteral. rewrite Ha, Hb, Hre.
      destruct (Js.trim v); [congruence|reflexivity]. }
    assert (Hbound : Sqlite.coerceByAffinity (Js.Str v) INTEGER false
                     = Sqlite.BNumber (Js.toDouble (inject_Z z))).
    { unfold Sqlite.coerceByAffinity. simpl. rewrite Hre.
      rewrite (toNumber_integer _ _ Hz).
      destruct (Js.trim v); [congruence|reflexivity]. }
    split; [assumption|]. split; [assumption|]. split; [now rewrite Hlit|].
    split; [assumption|]. intros Hsmall. rewrite Hbound. f_equal.
    now apply toDouble_integer.
  - intros Hb Hne. unfold Schema.toSqlLiteral, Sqlite.coerceByAffinity. rewrite Hb. simpl.
    destruct (Js.trim v) eqn:Hv; [congruence|]. simpl Js.isEmpty. cbv iota.
    split.
    + destruct (Patterns.isBoolTrue _); [reflexivity|].
      destruct (Patterns.isBoolFalse _); reflexivity.
    + destruct (Patterns.isBoolTrue _); [reflexivity|].
      destruct (Patterns.isBoolFalse _); reflexivity.
Qed.

Lemma toSqlLiteral_integer_roundtrip_witness :
  exists z,
    Spec.parseInteger (Js.trim " -42 ") = Some z
    /\ Schema.toSqlLiteral (Some " -42 ")
         (Schema.inferCol (Examples.column "n" ["7"; " -42 "]) "n") = Js.trim " -42 "
    /\ Spec.parseInteger
         (Schema.toSqlLiteral (Some " -42 ")
            (Schema.inferCol (Examples.column "n" ["7"; " -42 "]) "n")) = Some z
    /\ Sqlite.coerceByAffinity (Js.Str " -42 ") INTEGER false
       = Sqlite.BNumber (Js.toDouble (inject_Z z))
    /\ ((Z.abs z <= 2 ^ 53)%Z ->
        Sqlite.coerceByAffinity (Js.Str " -42 ") INTEGER false
        = Sqlite.BNumber (Js.Finite (inject_Z z))).
Proof.
  apply (toSqlLiteral_integer_roundtrip
           (Schema.inferCol (Examples.column "n" ["7"; " -42 "]) "n") " -42 ");
    vm_compute; reflexivity.
Defined.

(** C7, as the specification states it, fails: a column with nineteen "1"
    and one "5" is profiled INTEGER (flagged boolean, at 95%), and its value
    "5", whose integer value is 5, is coerced to NULL. *)
Lemma toSqlLiteral_boolean_column_drops_integer :
  let col := Schema.inferCol Examples.mostlyFlags "flag" in
  Schema.affinity col = INTEGER
  /\ Spec.parseInteger "5" = Some 5%Z
  /\ Schema.toSqlLiteral (Some "5") col = "NULL"
  /\ Spec.parseInteger (Schema.toSqlLiteral (Some "5") col) = None
  /\ Sqlite.coerceByAffinity (Js.Str "5") INTEGER true = Sqlite.BNull.
Proof. repeat split; vm_compute; reflexivity. Qed.

(** ** CSV import: the surrogate key *)

Lemma importCsv_columns rows plan :
  Sqlite.importCsv rows = Some plan ->
  exists first rest,
    rows = first :: rest
    /\ match Sqlite.naturalKey rows (Js.keys first) with
       | Some k =>
           k = "id" /\ Sqlite.pkClause plan = Some "id"
           /\ map Sqlite.cd_name (Sqlite.colDefs plan) = Js.keys first
           /\ Sqlite.insertCols plan = Js.keys first
       | None =>
           Sqlite.pkClause plan = None
           /\ Sqlite.colDefs plan = Sqlite.surrogate :: List.tl (Sqlite.colDefs plan)
           /\ map Sqlite.cd_name (Sqlite.colDefs plan) = "id" :: Js.keys first
           /\ Sqlite.insertCols plan = "id" :: Js.keys first
       end.
Proof.
  unfold Sqlite.importCsv. destruct rows as [|first rest]; [discriminate|].
  destruct (Nat.eqb _ 0); [discriminate|].
  intros [= <-]. exists first, rest. split; [reflexivity|].
  destruct (Sqlite.naturalKey (first :: rest) (Js.keys first)) as [k|] eqn:Hk; simpl.
  - assert (k = "id") as ->.
    { unfold Sqlite.naturalKey in Hk.
      destruct (existsb _ _); [|discriminate].
      destruct (_ && _); congruence. }
    repeat split. rewrite !map_map. simpl. apply map_id.
  - repeat split. rewrite !map_map. simpl. now rewrite map_id.
Qed.

(** C10, at the failing input: the file has a header [id] whose values
    repeat.  No natural key is found, the surrogate [id INTEGER PRIMARY KEY]
    is added, and the header [id] is declared as well: the statement names
    the column [id] twice, the surrogate is one of the input headers, and
    SQLite refuses the table. *)
Theorem importCsv_surrogate_repeats_header :
  exists plan,
    Sqlite.importCsv (Examples.column "id" ["1"; "1"]) = Some plan
    /\ Sqlite.pkClause plan = None
    /\ map Sqlite.cd_name (Sqlite.colDefs plan) = ["id"; "id"]
    /\ map Sqlite.cd_primaryKey (Sqlite.colDefs plan) = [true; false]
    /\ Sqlite.insertCols plan = ["id"; "id"]
    /\ Sqlite.ddlAccepted plan = false.
Proof. eexists. repeat split; vm_compute; reflexivity. Qed.
(** ** Name similarity *)

Lemma countShared_size (A B : gset string) : SqliteMeta.countShared A B = size (A ∩ B).
Proof.
  unfold SqliteMeta.countShared, size, set_size. simpl.
  apply Permutation_length. apply NoDup_Permutation.
  - apply NoDup_ListNoDup, List.NoDup_filter, NoDup_ListNoDup, NoDup_elements.
  - apply NoDup_elements.
  - intros x.
    rewrite list_elem_of_In, filter_In, <- list_elem_of_In, !elem_of_elements, bool_decide_eq_true.
    set_solver.
Qed.

Lemma countShared_comm (A B : gset string) : SqliteMeta.countShared A B = SqliteMeta.countShared B A.
Proof. rewrite !countShared_size. f_equal. apply (comm_L (∩)). Qed.

(** C8: the bigram Dice similarity is symmetric, in sqliteMeta.ts
    ([diceSim]) and in badgeHeuristics.ts ([dice]) alike: the number of
    bigrams of one name found in the other is the size of the intersection
    of the two sets of bigrams. *)
Theorem dice_symmetric (a b : string) :
  SqliteMeta.diceSim a b = SqliteMeta.diceSim b a
  /\ BadgeHeuristics.dice a b = BadgeHeuristics.dice b a.
Proof.
  assert (H : SqliteMeta.diceSim a b = SqliteMeta.diceSim b a).
  { unfold SqliteMeta.diceSim.
    rewrite (countShared_comm (SqliteMeta.bigrams a)), (Nat.add_comm (size (SqliteMeta.bigrams a))).
    reflexivity. }
  split; [exact H|exact H].
Qed.

(** ** Computations against the store *)

Section Monad.

Import Store.

Lemma bind_ok {A B} (m : M A) (f : A -> M B) a :
  outcome m = Ok a ->
  sent (bind m f) = sent m ++ sent (f a) /\ outcome (bind m f) = outcome (f a).
Proof.
  destruct m as [log r]. simpl. intros ->. unfold bind.
  destruct (f a) as [log' r']. simpl. auto.
Qed.

Lemma bind_err {A B} (m : M A) (f : A -> M B) e :
  outcome m = Err e ->
  sent (bind m f) = sent m /\ outcome (bind m f) = Err e.
Proof. destruct m as [log r]. simpl. intros ->. unfold bind. auto. Qed.

Lemma bind_outcome_ok {A B} (m : M A) (f : A -> M B) b :
  outcome (bind m f) = Ok b ->
  exists a, outcome m = Ok a /\ outcome (f a) = Ok b.
Proof.
  destruct (outcome m) as [a|e] eqn:Hm.
  - destruct (bind_ok m f a Hm) as [_ ->]. eauto.
  - destruct (bind_err m f e Hm) as [_ ->]. discriminate.
Qed.

Lemma ret_outcome {A} (a b : A) : outcome (ret a) = Ok b -> a = b.
Proof. unfold ret. simpl. congruence. Qed.

Lemma send_outcome {A} q (r : result A) : outcome (send q r) = r.
Proof. reflexivity. Qed.

Variable st : Store.t.
Variable R : JsError -> JsError -> Prop.

Lemma faithful_ret {A} (a : A) : faithful R st (ret a).
Proof. unfold faithful, ret. simpl. constructor. Qed.

Lemma faithful_bind {A B} (m : M A) (f : A -> M B) :
  faithful R st m -> (forall a, faithful R st (f a)) -> faithful R st (bind m f).
Proof.
  intros Hm Hf. unfold faithful in *.
  destruct (outcome m) as [a|e] eqn:Em.
  - destruct (bind_ok m f a Em) as [-> ->]. specialize (Hf a).
    destruct (outcome (f a)) as [b|e].
    + apply Forall_app. auto.
    + destruct Hf as (log & q & err & -> & Hlog & Hq & Hr).
      exists (sent m ++ log), q, err. rewrite app_assoc.
      repeat split; auto. apply Forall_app. auto.
  - destruct (bind_err m f e Em) as [-> ->]. assumption.
Qed.

Lemma faithful_send {A} q (r : result A) :
  (forall e, R e e) ->
  failure st q = match r with Ok _ => None | Err e => Some e end ->
  faithful R st (send q r).
Proof.
  intros Hrefl Hq. unfold faithful, send. simpl. destruct r as [a|e].
  - repeat constructor. assumption.
  - exists [], q, e. repeat split; auto.
Qed.

Lemma faithful_rethrow {A} (R' : JsError -> JsError -> Prop) wrap (m : M A) :
  faithful R st m ->
  (forall err e, R err e -> R' err (wrap e)) ->
  faithful R' st (rethrow wrap m).
Proof.
  intros Hm Hw. unfold faithful, rethrow in *. destruct m as [log [a|e]]; simpl in *.
  - assumption.
  - destruct Hm as (l & q & err & -> & Hl & Hq & Hr). exists l, q, err. auto.
Qed.

Lemma faithful_weaken {A} (R' : JsError -> JsError -> Prop) (m : M A) :
  faithful R st m -> (forall err e, R err e -> R' err e) -> faithful R' st m.
Proof.
  intros Hm Hw. unfold faithful in *. destruct (outcome m); [assumption|].
  destruct Hm as (l & q & err & -> & Hl & Hq & Hr). exists l, q, err. auto.
Qed.

(** In a faithful computation a statement that was sent and failed ends
    the computation with an error related to its own. *)
Lemma faithful_failure {A} (m : M A) q err :
  faithful R st m -> q ∈ sent m -> failure st q = Some err ->
  exists e, outcome m = Err e /\ R err e.
Proof.
  unfold faithful. intros Hm Hq Hf. destruct (outcome m) as [a|e].
  - rewrite Forall_forall in Hm. specialize (Hm q Hq). congruence.
  - destruct Hm as (l & q' & err' & Hs & Hl & Hq' & Hr). exists e. split; [reflexivity|].
    rewrite Hs in Hq. apply elem_of_app in Hq. destruct Hq as [Hq|Hq].
    + rewrite Forall_forall in Hl. specialize (Hl q Hq). congruence.
    + apply list_elem_of_singleton in Hq. subst q'. congruence.
Qed.

End Monad.

(** [bound H a Ha]: from [H : outcome (do x <- m; k) = Ok b], the value [a]
    of [m], [Ha : outcome m = Ok a], and [H] for the rest. *)
Ltac bound H a Ha :=
  apply bind_outcome_ok in H; destruct H as (a & Ha & H).

Section Queries.

Import Store.

Variable st : Store.t.
Variable R : JsError -> JsError -> Prop.
Hypothesis R_refl : forall e, R e e.

Lemma faithful_queryListTables : faithful R st (queryListTables st).
Proof. apply faithful_send; [assumption|]. simpl. destruct (listTables st); reflexivity. Qed.

Lemma faithful_queryTableInfo t : faithful R st (queryTableInfo st t).
Proof. apply faithful_send; [assumption|]. simpl. destruct (tableInfo st t); reflexivity. Qed.

Lemma faithful_queryIndexList t : faithful R st (queryIndexList st t).
Proof. apply faithful_send; [assumption|]. simpl. destruct (indexList st t); reflexivity. Qed.

Lemma faithful_queryIndexInfo i : faithful R st (queryIndexInfo st i).
Proof. apply faithful_send; [assumption|]. simpl. destruct (indexInfo st i); reflexivity. Qed.

Lemma faithful_queryCoverage c k p pk : faithful R st (queryCoverage st c k p pk).
Proof. apply faithful_send; [assumption|]. simpl. destruct (coverage st c k p pk); reflexivity. Qed.

End Queries.

Create HintDb faithful.
#[export] Hint Resolve faithful_ret faithful_bind faithful_queryListTables
  faithful_queryTableInfo faithful_queryIndexList faithful_queryIndexInfo
  faithful_queryCoverage : faithful.

(** *** sqliteMeta.ts is faithful, and wraps *)

Import Store.

Lemma chained_refl e : chained e e.
Proof. unfold chained. destruct e; simpl; left. Qed.

Lemma wrapped_chained err e : wrapped err e -> chained err e.
Proof. intros (msg & c & -> & H). unfold chained. simpl. now right. Qed.

Lemma chained_wrap msg err e : chained err e -> wrapped err (Store.SqliteMetaError msg e).
Proof. intros H. exists msg, e. auto. Qed.

#[export] Hint Resolve chained_refl : faithful.

Lemma uniqueIndexColumns_faithful st idxList : forall uniques,
  faithful chained st (SqliteMeta.uniqueIndexColumns st idxList uniques).
Proof.
  induction idxList as [|idx rest IH]; intros uniques; simpl.
  - apply faithful_ret.
  - destruct (negb _); [apply IH|].
    apply faithful_bind; [auto with faithful|].
    intros [|c [|c' cols]]; [apply IH | | apply IH].
    destruct (Js.isEmpty _); apply IH.
Qed.

Lemma getUniqueColumns_faithful st t :
  faithful wrapped st (SqliteMeta.getUniqueColumns st t).
Proof.
  unfold SqliteMeta.getUniqueColumns.
  apply (faithful_rethrow st chained).
  - apply faithful_bind; [auto with faithful|]. intros idxList.
    apply faithful_bind; [apply uniqueIndexColumns_faithful|]. intros uniques.
    apply faithful_bind; [auto with faithful|]. intros ti. apply faithful_ret.
  - intros err e. apply chained_wrap.
Qed.

Lemma tablesMeta_faithful st names : faithful chained st (SqliteMeta.tablesMeta st names).
Proof.
  induction names as [|t rest IH]; simpl.
  - apply faithful_ret.
  - apply faithful_bind; [auto with faithful|]. intros ti.
    apply faithful_bind.
    { apply (faithful_weaken st wrapped); [apply getUniqueColumns_faithful|].
      apply wrapped_chained. }
    intros uniques. apply faithful_bind; [apply IH|]. intros out. apply faithful_ret.
Qed.

Lemma getTablesMeta_faithful st : faithful wrapped st (SqliteMeta.getTablesMeta st).
Proof.
  unfold SqliteMeta.getTablesMeta. apply (faithful_rethrow st chained).
  - apply faithful_bind; [auto with faithful|]. intros names. apply tablesMeta_faithful.
  - intros err e. apply chained_wrap.
Qed.

Lemma inferForeignKeys_faithful st metas opts :
  faithful wrapped st (SqliteMeta.inferForeignKeys metas opts).
Proof.
  unfold SqliteMeta.inferForeignKeys. apply (faithful_rethrow st chained).
  - apply faithful_ret.
  - intros err e. apply chained_wrap.
Qed.

(** *** analytics.ts is faithful, and does not wrap *)

Lemma scanParents_faithful st child col parents :
  faithful eq st (Analytics.scanParents st child col parents).
Proof.
  induction parents as [|p rest IH]; simpl.
  - apply faithful_ret.
  - apply faithful_bind; [auto with faithful|]. intros pcols.
    apply faithful_bind; [auto with faithful|]. intros res.
    destruct (Z.eqb _ 0); [apply IH|].
    destruct (atLeast _ _); [apply faithful_ret|apply IH].
Qed.

Lemma columnEdge_faithful st tables child col :
  faithful eq st (Analytics.columnEdge st tables child col).
Proof.
  unfold Analytics.columnEdge. destruct (Analytics.candidateBase col).
  - apply scanParents_faithful.
  - apply faithful_ret.
Qed.

Lemma columnsEdges_faithful st tables child cols :
  faithful eq st (Analytics.columnsEdges st tables child cols).
Proof.
  induction cols as [|c rest IH]; simpl.
  - apply faithful_ret.
  - apply faithful_bind; [apply columnEdge_faithful|]. intros e.
    apply faithful_bind; [apply IH|]. intros es. apply faithful_ret.
Qed.

Lemma tablesEdges_faithful st all children :
  faithful eq st (Analytics.tablesEdges st all children).
Proof.
  induction children as [|c rest IH]; simpl.
  - apply faithful_ret.
  - apply faithful_bind; [auto with faithful|]. intros cols.
    apply faithful_bind; [apply columnsEdges_faithful|]. intros es.
    apply faithful_bind; [apply IH|]. intros es'. apply faithful_ret.
Qed.

Lemma inferFkEdges_faithful st tables : faithful eq st (Analytics.inferFkEdges st tables).
Proof.
  unfold Analytics.inferFkEdges.
  apply faithful_bind; [apply tablesEdges_faithful|]. intros es. apply faithful_ret.
Qed.

(** *** relationsService.ts does not wrap either, and may throw of its own *)

Section Thrower.

Import Store.

Variable st : Store.t.
Variable P : JsError -> Prop.

Lemma faithfulOr_ret {A} (a : A) : faithfulOr P st (ret a).
Proof. unfold faithfulOr, ret. simpl. constructor. Qed.

Lemma faithfulOr_throw {A} e : P e -> faithfulOr P st (@throw A e).
Proof. intros He. unfold faithfulOr, throw. simpl. left. split; [constructor|assumption]. Qed.

Lemma faithfulOr_bind {A B} (m : M A) (f : A -> M B) :
  faithfulOr P st m -> (forall a, faithfulOr P st (f a)) -> faithfulOr P st (bind m f).
Proof.
  intros Hm Hf. unfold faithfulOr in *.
  destruct (outcome m) as [a|e] eqn:Em.
  - destruct (bind_ok m f a Em) as [-> ->]. specialize (Hf a).
    destruct (outcome (f a)) as [b|e].
    + apply Forall_app. auto.
    + destruct Hf as [[Hall He] | (log & q & -> & Hlog & Hq)].
      * left. split; [apply Forall_app; auto|assumption].
      * right. exists (sent m ++ log), q. rewrite app_assoc.
        repeat split; auto. apply Forall_app. auto.
  - destruct (bind_err m f e Em) as [-> ->]. assumption.
Qed.

Lemma faithfulOr_send {A} q (r : result A) :
  failure st q = match r with Ok _ => None | Err e => Some e end ->
  faithfulOr P st (send q r).
Proof.
  intros Hq. unfold faithfulOr, send. simpl. destruct r as [a|e].
  - repeat constructor. assumption.
  - right. exists [], q. repeat split; auto.
Qed.

Lemma faithfulOr_failure {A} (m : M A) q err :
  faithfulOr P st m -> q ∈ sent m -> failure st q = Some err -> outcome m = Err err.
Proof.
  unfold faithfulOr. intros Hm Hq Hf. destruct (outcome m) as [a|e].
  - rewrite Forall_forall in Hm. specialize (Hm q Hq). congruence.
  - destruct Hm as [[Hall _] | (l & q' & Hs & Hl & Hq')].
    + rewrite Forall_forall in Hall. specialize (Hall q Hq). congruence.
    + rewrite Hs in Hq. apply elem_of_app in Hq. destruct Hq as [Hq|Hq].
      * rewrite Forall_forall in Hl. specialize (Hl q Hq). congruence.
      * apply list_elem_of_singleton in Hq. subst q'. congruence.
Qed.

Lemma faithfulOr_error {A} (m : M A) e :
  faithfulOr P st m -> outcome m = Err e ->
  P e \/ exists q, q ∈ sent m /\ failure st q = Some e.
Proof.
  unfold faithfulOr. intros Hm He. rewrite He in Hm.
  destruct Hm as [[_ Hp] | (l & q & Hs & _ & Hq)]; [now left|].
  right. exists q. split; [|assumption]. rewrite Hs. apply elem_of_app. right. left.
Qed.

End Thrower.

Section RelationsFaithful.

Import Store.

Variable st : Store.t.

Lemma faithfulOr_firstRow {A} (rows : list A) : faithfulOr isTypeError st (firstRow rows).
Proof.
  unfold firstRow. destruct rows; [now apply faithfulOr_throw|apply faithfulOr_ret].
Qed.

Ltac asks :=
  apply faithfulOr_send; simpl;
  match goal with |- context [match ?r with _ => _ end] => destruct r; reflexivity end.

Lemma firstAllDistinct_faithfulOr table total cols :
  faithfulOr isTypeError st (Relations.firstAllDistinct st table total cols).
Proof.
  induction cols as [|c rest IH]; simpl.
  - apply faithfulOr_ret.
  - apply faithfulOr_bind; [unfold queryCountDistinct; asks|]. intros rows.
    apply faithfulOr_bind; [apply faithfulOr_firstRow|]. intros d.
    destruct (Js.numEq _ _); [apply faithfulOr_ret|apply IH].
Qed.

Lemma getParentKey_faithfulOr table : faithfulOr isTypeError st (Relations.getParentKey st table).
Proof.
  unfold Relations.getParentKey.
  apply faithfulOr_bind; [unfold queryTableInfo; asks|]. intros cols.
  destruct (Relations.truthyName _); [apply faithfulOr_ret|].
  apply faithfulOr_bind; [unfold queryIndexList; asks|]. intros idx.
  apply faithfulOr_bind.
  { destruct (find _ idx); [|apply faithfulOr_ret].
    apply faithfulOr_bind; [unfold queryIndexInfo; asks|]. intros info. apply faithfulOr_ret. }
  intros [k|]; [apply faithfulOr_ret|].
  apply faithfulOr_bind; [unfold queryCountRows; asks|]. intros rows.
  apply faithfulOr_bind; [apply faithfulOr_firstRow|]. intros total.
  destruct (Js.numGt _ _); [apply firstAllDistinct_faithfulOr|apply faithfulOr_ret].
Qed.

Lemma scanCandidates_faithfulOr table col cands : forall best,
  faithfulOr isTypeError st (Relations.scanCandidates st table col best cands).
Proof.
  induction cands as [|p rest IH]; intros best; simpl.
  - apply faithfulOr_ret.
  - apply faithfulOr_bind; [apply getParentKey_faithfulOr|]. intros key.
    destruct (Relations.truthyName key); [|apply IH].
    apply faithfulOr_bind; [unfold queryCoverageText; asks|]. intros rows.
    apply faithfulOr_bind; [apply faithfulOr_firstRow|]. intros r. apply IH.
Qed.

Lemma columnsRelations_faithfulOr table allTables fkCols :
  faithfulOr isTypeError st (Relations.columnsRelations st table allTables fkCols).
Proof.
  induction fkCols as [|c rest IH]; simpl.
  - apply faithfulOr_ret.
  - apply faithfulOr_bind; [apply scanCandidates_faithfulOr|]. intros best.
    apply faithfulOr_bind; [apply IH|]. intros rels. apply faithfulOr_ret.
Qed.

Lemma inferRelations_faithfulOr table columns allTables :
  faithfulOr isTypeError st
    (Relations.inferRelations st table columns allTables).
Proof.
  unfold Relations.inferRelations.
  destruct (Nat.eqb _ 0); [apply faithfulOr_ret|apply columnsRelations_faithfulOr].
Qed.

End RelationsFaithful.

(** C6, as the code has it: a statement that fails ends the call with one
    error and no list.  In sqliteMeta.ts the functions that send
    statements, [getUniqueColumns] and [getTablesMeta], fail with a
    [SqliteMetaError] whose chain of causes holds the error of the
    statement; [inferForeignKeys] sends no statement.  [inferFkEdges] and
    [inferRelations] fail with the error of the statement itself, not
    wrapped; [inferRelations] fails otherwise only with the [TypeError] of
    reading the first row of an answer that has none. *)
Theorem store_failure_ends_the_call (st : Store.t) (table : string)
        (tables : list string) (columns : list Relations.ColumnMeta)
        (q : Store.Query) (err : Store.JsError) :
  Store.failure st q = Some err ->
  (q ∈ Store.sent (SqliteMeta.getUniqueColumns st table) ->
   exists msg cause,
     Store.outcome (SqliteMeta.getUniqueColumns st table)
     = Store.Err (Store.SqliteMetaError msg cause)
     /\ err ∈ Store.causes cause)
  /\ (q ∈ Store.sent (SqliteMeta.getTablesMeta st) ->
      exists msg cause,
        Store.outcome (SqliteMeta.getTablesMeta st) = Store.Err (Store.SqliteMetaError msg cause)
        /\ err ∈ Store.causes cause)
  /\ (forall metas opts, Store.sent (SqliteMeta.inferForeignKeys metas opts) = [])
  /\ (q ∈ Store.sent (Analytics.inferFkEdges st tables) ->
      Store.outcome (Analytics.inferFkEdges st tables) = Store.Err err)
  /\ (q ∈ Store.sent (Relations.inferRelations st table columns tables) ->
      Store.outcome (Relations.inferRelations st table columns tables) = Store.Err err)
  /\ (forall e,
        Store.outcome (Relations.inferRelations st table columns tables) = Store.Err e ->
        e = Store.TypeError
        \/ exists q', q' ∈ Store.sent (Relations.inferRelations st table columns tables)
                      /\ Store.failure st q' = Some e).
Proof.
  intros Hq. split; [|split; [|split; [|split; [|split]]]].
  - intros Hin.
    destruct (faithful_failure st wrapped _ q err (getUniqueColumns_faithful st table) Hin Hq)
      as (e & He & msg & cause & -> & Hc). eauto.
  - intros Hin.
    destruct (faithful_failure st wrapped _ q err (getTablesMeta_faithful st) Hin Hq)
      as (e & He & msg & cause & -> & Hc). eauto.
  - reflexivity.
  - intros Hin.
    destruct (faithful_failure st eq _ q err (inferFkEdges_faithful st tables) Hin Hq)
      as (e & He & ->). assumption.
  - intros Hin.
    exact (faithfulOr_failure st _ _ q err
             (inferRelations_faithfulOr st table columns tables) Hin Hq).
  - intros e He.
    exact (faithfulOr_error st _ _ e (inferRelations_faithfulOr st table columns tables) He).
Qed.

Lemma store_failure_ends_the_call_witness :
  (exists msg cause,
     Store.outcome (SqliteMeta.getTablesMeta Examples.down)
     = Store.Err (Store.SqliteMetaError msg cause)
     /\ Store.StoreError "database unavailable" ∈ Store.causes cause)
  /\ Store.outcome (Relations.inferRelations Examples.down "orders" Examples.ordersColumns
                      Examples.shopTables)
     = Store.Err (Store.StoreError "database unavailable").
Proof.
  split.
  - destruct (store_failure_ends_the_call Examples.down "t" ["t"] [] Store.QListTables
                (Store.StoreError "database unavailable")) as (_ & H & _).
    + reflexivity.
    + apply H. vm_compute. constructor.
  - destruct (store_failure_ends_the_call Examples.down "orders" Examples.shopTables
                Examples.ordersColumns (Store.QTableInfo "user")
                (Store.StoreError "database unavailable")) as (_ & _ & _ & _ & H & _).
    + reflexivity.
    + apply H. vm_compute. constructor.
Defined.

(** C6, as the specification states it, fails on [inferFkEdges]: its first
    statement fails and the call fails with the error of the store as it
    is, not with an error that wraps it. *)
Lemma inferFkEdges_failure_not_wrapped :
  let m := Analytics.inferFkEdges Examples.down ["t"] in
  Store.QTableInfo "t" ∈ Store.sent m
  /\ Store.failure Examples.down (Store.QTableInfo "t")
     = Some (Store.StoreError "database unavailable")
  /\ Store.outcome m = Store.Err (Store.StoreError "database unavailable")
  /\ ~ exists msg cause, Store.outcome m = Store.Err (Store.SqliteMetaError msg cause).
Proof.
  split; [vm_compute; constructor|].
  split; [reflexivity|].
  split; [reflexivity|].
  intros (msg & cause & H). vm_compute in H. discriminate H.
Qed.

(** ** The edges of [inferFkEdges] *)

Section Edges.

Import Store.

Variable st : Store.t.

Lemma queryTableInfo_ok t pcols :
  outcome (queryTableInfo st t) = Ok pcols -> tableInfo st t = Ok pcols.
Proof. auto. Qed.

Lemma queryCoverage_ok c k p pk res :
  outcome (queryCoverage st c k p pk) = Ok res -> coverage st c k p pk = Ok res.
Proof. auto. Qed.

(** The edge kept for a column is built for the first parent, in the order
    of the list, that meets the threshold. *)
Lemma scanParents_some child col parents e :
  outcome (Analytics.scanParents st child col parents) = Ok (Some e) ->
  exists pre post,
    parents = pre ++ Analytics.target e :: post
    /\ Spec.meetsThreshold st child col (Analytics.target e) e
    /\ Forall (fun p => forall e', ~ Spec.meetsThreshold st child col p e') pre.
Proof.
  induction parents as [|p rest IH]; simpl; intros H.
  - apply ret_outcome in H. discriminate.
  - bound H pcols Hp.
    apply queryTableInfo_ok in Hp.
    bound H res Hr.
    apply queryCoverage_ok in Hr.
    destruct (Z.eqb_spec (Analytics.totalOf res) 0) as [Hz|Hz].
    + destruct (IH H) as (pre & post & -> & Hm & Hpre).
      exists (p :: pre), post. repeat split; auto.
      constructor; [|assumption].
      intros e' (pcols' & res' & Hp' & Hr' & Ht & _).
      rewrite Hp in Hp'. injection Hp' as <-. rewrite Hr in Hr'. injection Hr' as <-.
      contradiction.
    + destruct (atLeast _ Analytics.MIN_COVERAGE) eqn:Hc.
      * apply ret_outcome in H. injection H as <-. simpl.
        exists [], rest. repeat split; auto.
        exists pcols, res. auto.
      * destruct (IH H) as (pre & post & -> & Hm & Hpre).
        exists (p :: pre), post. repeat split; auto.
        constructor; [|assumption].
        intros e' (pcols' & res' & Hp' & Hr' & _ & Hc' & _).
        rewrite Hp in Hp'. injection Hp' as <-. rewrite Hr in Hr'. injection Hr' as <-.
        congruence.
Qed.


Lemma meetsThreshold_fields child col p e :
  Spec.meetsThreshold st child col p e ->
  Analytics.source e = child /\ Analytics.col e = col /\ Analytics.target e = p.
Proof. intros (pcols & res & _ & _ & _ & _ & ->). auto. Qed.

Lemma columnEdge_some tables child c e :
  outcome (Analytics.columnEdge st tables child c) = Ok (Some e) ->
  Analytics.source e = child /\ Analytics.col e = c
  /\ exists base pre post,
       Analytics.candidateBase c = Some base
       /\ Analytics.parentsOf tables base = pre ++ Analytics.target e :: post
       /\ Spec.meetsThreshold st child c (Analytics.target e) e
       /\ Forall (fun p => forall e', ~ Spec.meetsThreshold st child c p e') pre.
Proof.
  unfold Analytics.columnEdge. destruct (Analytics.candidateBase c) as [base|] eqn:Hb.
  - intros H. apply scanParents_some in H. destruct H as (pre & post & Hp & Hm & Hpre).
    destruct (meetsThreshold_fields _ _ _ _ Hm) as (Hs & Hc & _).
    repeat split; auto. exists base, pre, post. auto.
  - intros H. apply ret_outcome in H. discriminate.
Qed.

Lemma columnsEdges_ok tables child cols : forall es,
  outcome (Analytics.columnsEdges st tables child cols) = Ok es ->
  Forall (fun e => exists c, c ∈ cols
            /\ outcome (Analytics.columnEdge st tables child (ti_name c)) = Ok (Some e)) es
  /\ map Analytics.col es `sublist_of` map ti_name cols.
Proof.
  induction cols as [|c rest IH]; simpl; intros es H.
  - apply ret_outcome in H. subst es. split; constructor.
  - bound H e He.
    apply bind_outcome_ok in H. destruct H as (es' & Hes & H).
    apply ret_outcome in H. destruct (IH es' Hes) as [Hall Hsub].
    assert (Hall' : Forall (fun e => exists c0, c0 ∈ c :: rest
              /\ outcome (Analytics.columnEdge st tables child (ti_name c0)) = Ok (Some e)) es').
    { eapply Forall_impl; [exact Hall|]. intros x (c0 & Hc0 & Hx). exists c0. split; [now right|assumption]. }
    destruct e as [x|]; subst es.
    + split.
      * constructor; [|assumption]. exists c. split; [left|assumption].
      * simpl. destruct (columnEdge_some _ _ _ _ He) as (_ & -> & _).
        now apply sublist_skip.
    + split; [assumption|]. now apply sublist_cons.
Qed.

Lemma cameFrom_source all children e :
  Analytics.cameFrom st all children e -> Analytics.source e ∈ children.
Proof.
  intros (child & cols & c & Hin & _ & _ & He).
  destruct (columnEdge_some _ _ _ _ He) as (-> & _). assumption.
Qed.

Lemma tablesEdges_ok all children : forall es,
  outcome (Analytics.tablesEdges st all children) = Ok es ->
  Forall (Analytics.cameFrom st all children) es
  /\ (NoDup children ->
      (forall t cols, tableInfo st t = Ok cols -> NoDup (map ti_name cols)) ->
      NoDup (map Analytics.edgeKey es)).
Proof.
  induction children as [|child rest IH]; simpl; intros es H.
  - apply ret_outcome in H. subst es. split; constructor.
  - bound H cols Hcols.
    apply queryTableInfo_ok in Hcols.
    bound H es1 H1.
    bound H es2 H2.
    apply ret_outcome in H. subst es.
    destruct (columnsEdges_ok _ _ _ _ H1) as [Hall1 Hsub].
    destruct (IH _ H2) as [Hall2 Hnd2].
    assert (Hfrom1 : Forall (Analytics.cameFrom st all (child :: rest)) es1).
    { eapply Forall_impl; [exact Hall1|]. intros e (c & Hc & He).
      exists child, cols, c. repeat split; auto. left. }
    assert (Hfrom2 : Forall (Analytics.cameFrom st all (child :: rest)) es2).
    { eapply Forall_impl; [exact Hall2|]. intros e (ch & cs & c & Hch & Hcs & Hc & He).
      exists ch, cs, c. repeat split; auto. now right. }
    split; [apply Forall_app; auto|].
    intros Hnd Hstore. apply NoDup_cons in Hnd. destruct Hnd as [Hfresh Hnd].
    rewrite map_app. apply NoDup_app. split; [|split].
    + assert (Hk : map Analytics.edgeKey es1 = map (pair child) (map Analytics.col es1)).
      { rewrite map_map. apply map_ext_Forall.
        eapply Forall_impl; [exact Hall1|]. intros e (c & _ & He).
        destruct (columnEdge_some _ _ _ _ He) as (Hs & _). unfold Analytics.edgeKey. now rewrite Hs. }
      rewrite Hk. apply (NoDup_fmap_2 (pair child)).
      eapply sublist_NoDup; [|exact Hsub]. now apply (Hstore child).
    + intros k Hk1 Hk2.
      apply (list_elem_of_fmap Analytics.edgeKey) in Hk1. destruct Hk1 as (e1 & -> & He1).
      apply (list_elem_of_fmap Analytics.edgeKey) in Hk2. destruct Hk2 as (e2 & Hk & He2).
      rewrite Forall_forall in Hall1, Hall2.
      destruct (Hall1 _ He1) as (c & _ & Hc).
      destruct (columnEdge_some _ _ _ _ Hc) as (Hs & _).
      pose proof (cameFrom_source _ _ _ (Hall2 _ He2)) as Hin.
      unfold Analytics.edgeKey in Hk. injection Hk as Hsrc _. rewrite <- Hsrc, Hs in Hin.
      contradiction.
    + now apply Hnd2.
Qed.

End Edges.

Lemma insertEdge_perm x l : Analytics.insertEdge x l ≡ₚ x :: l.
Proof.
  induction l as [|y l IH]; simpl; [reflexivity|].
  destruct (Analytics.sortsBefore x y); [reflexivity|].
  rewrite IH. apply Permutation_swap.
Qed.

Lemma sortEdges_perm l : Analytics.sortEdges l ≡ₚ l.
Proof.
  unfold Analytics.sortEdges.
  assert (H : forall acc, fold_left (fun acc x => Analytics.insertEdge x acc) l acc ≡ₚ l ++ acc).
  { induction l as [|x l IH]; intros acc; simpl; [reflexivity|].
    rewrite IH, insertEdge_perm. symmetry. apply Permutation_middle. }
  rewrite H. now rewrite app_nil_r.
Qed.

Lemma inferFkEdges_ok st tables edges :
  Store.outcome (Analytics.inferFkEdges st tables) = Store.Ok edges ->
  exists es,
    Store.outcome (Analytics.tablesEdges st tables tables) = Store.Ok es
    /\ edges = take 30 (Analytics.sortEdges es).
Proof.
  unfold Analytics.inferFkEdges. intros H.
  bound H es Hes.
  apply ret_outcome in H. eauto.
Qed.

Lemma inferFkEdges_from_column st tables edges e :
  Store.outcome (Analytics.inferFkEdges st tables) = Store.Ok edges ->
  e ∈ edges -> Analytics.cameFrom st tables tables e.
Proof.
  intros H He. apply inferFkEdges_ok in H. destruct H as (es & Hes & ->).
  apply subseteq_take in He. rewrite sortEdges_perm in He.
  destruct (tablesEdges_ok st tables tables es Hes) as [Hall _].
  rewrite Forall_forall in Hall. auto.
Qed.


Section Complete.

Import Store.

Variable st : Store.t.




End Complete.


(** ** Names of foreign-key columns *)

Lemma endsWith_nil suffix :
  Js.endsWith "" suffix = String.eqb "" suffix.
Proof. unfold Js.endsWith. apply orb_false_r. Qed.

Lemma endsWith_cons c s suffix :
  Js.endsWith (String c s) suffix = String.eqb (String c s) suffix || Js.endsWith s suffix.
Proof. reflexivity. Qed.

Lemma endsWith_spec s suffix :
  Js.endsWith s suffix = true <-> exists pre, s = pre +:+ suffix.
Proof.
  split.
  - induction s as [|c s IH].
    + rewrite endsWith_nil. intros H. apply String.eqb_eq in H. subst. now exists "".
    + rewrite endsWith_cons. intros H. apply orb_prop in H. destruct H as [H|H].
      * apply String.eqb_eq in H. subst. now exists "".
      * destruct (IH H) as [pre ->]. now exists (String c pre).
  - intros [pre ->]. induction pre as [|c pre IH].
    + change ("" +:+ suffix) with suffix.
      destruct suffix as [|c s]; [reflexivity|].
      rewrite endsWith_cons, String.eqb_refl. reflexivity.
    + change (String c pre +:+ suffix) with (String c (pre +:+ suffix)).
      rewrite endsWith_cons, IH. apply orb_true_r.
Qed.

Lemma append_assoc (a b c : string) : (a +:+ b) +:+ c = a +:+ (b +:+ c).
Proof.
  induction a as [|x a IH]; [reflexivity|].
  change (String x ((a +:+ b) +:+ c) = String x (a +:+ (b +:+ c))). now rewrite IH.
Qed.

Lemma endsWith_snake_id s : Js.endsWith s "_id" = true -> Js.endsWith s "id" = true.
Proof.
  rewrite !endsWith_spec. intros [pre ->]. exists (pre +:+ "_").
  now rewrite append_assoc.
Qed.

Lemma candidateBase_name c base :
  Analytics.candidateBase c = Some base ->
  Js.endsWith (Js.toLowerCase c) "id" = true /\ Js.toLowerCase c <> "id".
Proof.
  unfold Analytics.candidateBase, Analytics.matchIdSuffix, Analytics.isBareId.
  destruct (Js.endsWith (Js.toLowerCase c) "_id") eqn:H3.
  - destruct (Analytics.noLineTerminator _); [|discriminate].
    destruct (String.eqb_spec (Js.toLowerCase c) "id") as [|Hne]; [discriminate|].
    intros _. split; [now apply endsWith_snake_id|assumption].
  - destruct (Js.endsWith (Js.toLowerCase c) "id") eqn:H2; [|discriminate].
    destruct (Analytics.noLineTerminator _); [|discriminate].
    destruct (String.eqb_spec (Js.toLowerCase c) "id") as [|Hne]; [discriminate|].
    intros _. split; [reflexivity|assumption].
Qed.

Lemma matchSnakeId_name lc m1 :
  SqliteMeta.matchSnakeId lc = Some m1 ->
  Js.endsWith lc "_id" = true /\ lc <> "_id" /\ lc <> "id".
Proof.
  unfold SqliteMeta.matchSnakeId. destruct (Js.endsWith lc "_id") eqn:H3; [|discriminate].
  intros H. split; [reflexivity|]. split; intros ->; discriminate.
Qed.

Lemma columnFk_name o metas t c fk :
  SqliteMeta.columnFk o metas t c = Some fk ->
  SqliteMeta.fromColumn fk = SqliteMeta.name c
  /\ Js.endsWith (Js.toLowerCase (SqliteMeta.name c)) "_id" = true
  /\ Js.toLowerCase (SqliteMeta.name c) <> "_id"
  /\ Js.toLowerCase (SqliteMeta.name c) <> "id".
Proof.
  unfold SqliteMeta.columnFk. destruct (_ && _); [discriminate|].
  destruct (SqliteMeta.matchSnakeId _) as [m1|] eqn:Hm; [|discriminate].
  destruct (SqliteMeta.pickBest _ _ _ _) as [[best score]|]; [|discriminate].
  destruct (SqliteMeta.uniqueMap metas !! best) as [[|first uniqs]|]; try discriminate.
  intros [= <-]. simpl. split; [reflexivity|]. now apply (matchSnakeId_name _ m1).
Qed.

Lemma foreignKeys_name o metas fk :
  fk ∈ SqliteMeta.foreignKeys o metas ->
  Js.endsWith (Js.toLowerCase (SqliteMeta.fromColumn fk)) "_id" = true
  /\ Js.toLowerCase (SqliteMeta.fromColumn fk) <> "_id"
  /\ Js.toLowerCase (SqliteMeta.fromColumn fk) <> "id".
Proof.
  unfold SqliteMeta.foreignKeys. rewrite list_elem_of_In, in_flat_map.
  intros (t & _ & H). rewrite <- list_elem_of_In, list_elem_of_omap in H.
  destruct H as (c & _ & H). apply columnFk_name in H. destruct H as (-> & H). exact H.
Qed.

(** C5, as the code has it: [inferFkEdges] takes a column as a candidate
    only if its name ends with [id] in any letter case, with or without an
    underscore before it, and is not [id] itself; [inferForeignKeys] only if
    its lower-cased name ends with [_id] after at least one character.
    Neither takes a column named [category], and neither takes the bare
    [id], whatever [excludeBareId] says. *)
Theorem fk_candidate_names (st : Store.t) (tables : list string)
        (metas : list SqliteMeta.TableMeta) (opts : option SqliteMeta.PartialOptions) :
  (forall c base,
      Analytics.candidateBase c = Some base ->
      Js.endsWith (Js.toLowerCase c) "id" = true /\ Js.toLowerCase c <> "id")
  /\ (forall edges e,
      Store.outcome (Analytics.inferFkEdges st tables) = Store.Ok edges -> e ∈ edges ->
      Js.endsWith (Js.toLowerCase (Analytics.col e)) "id" = true
      /\ Js.toLowerCase (Analytics.col e) <> "id"
      /\ Analytics.col e <> "category")
  /\ (forall fks fk,
      Store.outcome (SqliteMeta.inferForeignKeys metas opts) = Store.Ok fks -> fk ∈ fks ->
      Js.endsWith (Js.toLowerCase (SqliteMeta.fromColumn fk)) "_id" = true
      /\ Js.toLowerCase (SqliteMeta.fromColumn fk) <> "_id"
      /\ Js.toLowerCase (SqliteMeta.fromColumn fk) <> "id"
      /\ SqliteMeta.fromColumn fk <> "category").
Proof.
  split; [exact candidateBase_name|]. split.
  - intros edges e H He.
    destruct (inferFkEdges_from_column st tables edges e H He) as (child & cols & c & _ & _ & _ & Hc).
    destruct (columnEdge_some _ _ _ _ _ Hc) as (_ & Hcol & base & _ & _ & Hb & _).
    rewrite Hcol. destruct (candidateBase_name _ _ Hb) as [Hid Hne].
    repeat split; try assumption.
    intros Heq. rewrite Heq in Hid. discriminate Hid.
  - intros fks fk H Hfk. apply ret_outcome in H. subst fks.
    destruct (foreignKeys_name _ _ _ Hfk) as (H1 & H2 & H3).
    repeat split; try assumption.
    intros Heq. rewrite Heq in H1. discriminate H1.
Qed.

Lemma fk_candidate_names_witness :
  Js.endsWith (Js.toLowerCase "user_id") "id" = true
  /\ Js.toLowerCase "user_id" <> "id"
  /\ "user_id" <> "category".
Proof.
  destruct (fk_candidate_names (Sql.store Examples.shop) Examples.shopTables [] None)
    as (_ & H & _).
  apply (H [ {| Analytics.source := "orders"; Analytics.target := "user";
                Analytics.col := "user_id"; Analytics.coverage := 4 # 5;
                Analytics.matched := 4; Analytics.total := 5 |} ]
           {| Analytics.source := "orders"; Analytics.target := "user";
              Analytics.col := "user_id"; Analytics.coverage := 4 # 5;
              Analytics.matched := 4; Analytics.total := 5 |}).
  - vm_compute. reflexivity.
  - constructor.
Defined.

(** C5, as the specification states it, fails: [paid] does not end with
    [_id], [Id] or [ID], and [inferFkEdges] takes it as a candidate (base
    [pa]) and returns an edge for it. *)
Lemma inferFkEdges_takes_any_id_ending :
  Spec.fkName "paid" = false
  /\ Analytics.candidateBase "paid" = Some "pa"
  /\ exists e,
       Store.outcome (Analytics.inferFkEdges (Sql.store Examples.ledger) Examples.ledgerTables)
       = Store.Ok [e]
       /\ Analytics.col e = "paid" /\ Analytics.target e = "pa".
Proof.
  split; [reflexivity|]. split; [reflexivity|].
  eexists. split; [vm_compute; reflexivity|]. split; reflexivity.
Qed.

(** ** Coverage *)

Lemma filter_idem {A} (f : A -> bool) l : List.filter f (List.filter f l) = List.filter f l.
Proof.
  induction l as [|x l IH]; simpl; [reflexivity|].
  destruct (f x) eqn:Hx; simpl; [rewrite Hx, IH|]; auto.
Qed.

(** The counts of the coverage SELECT: [matched] never exceeds [total]. *)
Lemma coverageRow_bounds cs ps :
  (0 <= Analytics.matchedOf [Sql.coverageRow cs ps]
     <= Analytics.totalOf [Sql.coverageRow cs ps])%Z.
Proof.
  unfold Sql.coverageRow, Analytics.matchedOf, Analytics.totalOf.
  cbn [Store.cr_matched Store.cr_total].
  rewrite filter_idem.
  generalize (List.filter (fun r => negb (Sql.isNull (fst r))) (Sql.leftJoin cs ps)).
  intros [|r rows]; [simpl; lia|].
  pose proof (List.filter_length_le (fun r => negb (Sql.isNull (snd r))) (r :: rows)) as Hle.
  change (0 <= Z.of_nat (length (List.filter (fun r => negb (Sql.isNull (snd r))) (r :: rows)))
            <= Z.of_nat (length (r :: rows)))%Z.
  lia.
Qed.

Lemma runCoverage_rows db child col parent pk res :
  Sql.runCoverage db child col parent pk = Store.Ok res ->
  exists cs ps, res = [Sql.coverageRow cs ps].
Proof.
  unfold Sql.runCoverage, Sql.noSuchTable, Sql.noSuchColumn.
  destruct (Sql.findTable db child); [|discriminate].
  destruct (Sql.findTable db parent); [|discriminate].
  destruct (Sql.columnCells _ pk); [|discriminate].
  destruct (Sql.columnCells _ col); [|discriminate].
  intros [= <-]. eauto.
Qed.

Lemma quotient_bounds (m t : Z) :
  (0 <= m <= t)%Z -> t <> 0%Z ->
  (0 <= inject_Z m / inject_Z t)%Q /\ (inject_Z m / inject_Z t <= 1)%Q.
Proof.
  intros [Hm Hmt] Ht.
  assert (Hpos : (0 < inject_Z t)%Q).
  { change 0%Q with (inject_Z 0). rewrite <- Zlt_Qlt. lia. }
  split.
  - apply Qle_shift_div_l; [assumption|]. rewrite Qmult_0_l.
    change 0%Q with (inject_Z 0). rewrite <- Zle_Qle. assumption.
  - apply Qle_shift_div_r; [assumption|]. rewrite Qmult_1_l.
    rewrite <- Zle_Qle. assumption.
Qed.

(** C9: on a relational store, every edge [inferFkEdges] returns has
    integer counts with 0 <= matched <= total and total <> 0, and its
    coverage is matched / total, between 0 and 1. *)
Theorem inferFkEdges_edge_invariants (db : Sql.Db) (tables : list string)
        (edges : list Analytics.FkEdge) (e : Analytics.FkEdge) :
  Store.outcome (Analytics.inferFkEdges (Sql.store db) tables) = Store.Ok edges ->
  e ∈ edges ->
  (0 <= Analytics.matched e <= Analytics.total e)%Z
  /\ Analytics.total e <> 0%Z
  /\ Analytics.coverage e = (inject_Z (Analytics.matched e) / inject_Z (Analytics.total e))%Q
  /\ (0 <= Analytics.coverage e)%Q /\ (Analytics.coverage e <= 1)%Q.
Proof.
  intros H He.
  destruct (inferFkEdges_from_column _ _ _ _ H He) as (child & cols & c & _ & _ & _ & Hc).
  destruct (columnEdge_some _ _ _ _ _ Hc) as (_ & _ & base & pre & post & _ & _ & Hm & _).
  destruct Hm as (pcols & res & _ & Hres & Ht & _ & ->). simpl in *.
  apply runCoverage_rows in Hres. destruct Hres as (cs & ps & ->).
  pose proof (coverageRow_bounds cs ps) as Hb.
  destruct (quotient_bounds _ _ Hb Ht) as [H0 H1].
  repeat split; try assumption; apply Hb.
Qed.

Lemma inferFkEdges_edge_invariants_witness :
  let e := {| Analytics.source := "orders"; Analytics.target := "user";
              Analytics.col := "user_id"; Analytics.coverage := 4 # 5;
              Analytics.matched := 4; Analytics.total := 5 |} in
  (0 <= Analytics.matched e <= Analytics.total e)%Z
  /\ Analytics.total e <> 0%Z
  /\ Analytics.coverage e = (inject_Z (Analytics.matched e) / inject_Z (Analytics.total e))%Q
  /\ (0 <= Analytics.coverage e)%Q /\ (Analytics.coverage e <= 1)%Q.
Proof.
  intros e.
  apply (inferFkEdges_edge_invariants Examples.shop Examples.shopTables [e] e).
  - vm_compute. reflexivity.
  - constructor.
Defined.

(** ** The parent kept for a column *)






Section Candidates.

Import Store.

Variable st : Store.t.
Variables table col : string.




End Candidates.

Section Relations.

Import Store.

Variable st : Store.t.
Variable table : string.
Variable allTables : list string.



End Relations.




(** * Further properties *)

(** ** Quoting *)

Lemma append_cons c (a b : string) : String c a +:+ b = String c (a +:+ b).
Proof. reflexivity. Qed.

Lemma append_nil (b : string) : "" +:+ b = b.
Proof. reflexivity. Qed.

Lemma readBody_doubleChar q n :
  Spec.readBody q (Js.doubleChar q n +:+ String q "") = Some (n, "").
Proof.
  induction n as [|c n IH].
  - simpl. now rewrite Ascii.eqb_refl.
  - cbn [Js.doubleChar]. destruct (Ascii.eqb_spec c q) as [->|Hne].
    + rewrite !append_cons. cbn [Spec.readBody]. rewrite Ascii.eqb_refl, IH. reflexivity.
    + rewrite append_cons. cbn [Spec.readBody].
      destruct (Ascii.eqb_spec c q); [contradiction|]. rewrite IH. reflexivity.
Qed.

Lemma escapeQuotes_doubleChar s : Schema.escapeQuotes s = Js.doubleChar "'"%char s.
Proof. induction s as [|c s IH]; simpl; [reflexivity|]. now rewrite IH. Qed.

(** X1: an identifier quoted by [safeIdent] is read back by SQL as one
    quoted token that denotes the name itself, with nothing left over; two
    names are never quoted to the same text. *)
Theorem safeIdent_reads_back (name other : string) :
  Spec.readQuoted Js.dquote (Schema.safeIdent name) = Some (name, "")
  /\ (Schema.safeIdent name = Schema.safeIdent other -> name = other).
Proof.
  assert (H : forall n, Spec.readQuoted Js.dquote (Schema.safeIdent n) = Some (n, "")).
  { intros n. unfold Schema.safeIdent, Spec.readQuoted.
    rewrite Ascii.eqb_refl. apply readBody_doubleChar. }
  split; [apply H|].
  intros Heq. pose proof (H name) as H1. rewrite Heq, H in H1. congruence.
Qed.

(** X2: whatever the value and the column, the literal [toSqlLiteral]
    writes is a single SQL token: the word NULL, a number of the integer or
    decimal pattern, or a quoted string that SQL reads back as the trimmed
    value, with nothing left over. *)
Theorem toSqlLiteral_single_token (raw : option string) (col : Schema.InferredCol) :
  let r := Schema.toSqlLiteral raw col in
  r = "NULL"
  \/ Re.test Patterns.intRe r = true
  \/ Re.test Patterns.realRe r = true
  \/ Spec.readQuoted "'"%char r
     = Some (Js.trim (match raw with Some s => s | None => "" end), "").
Proof.
  unfold Schema.toSqlLiteral.
  set (v := Js.trim match raw with Some s => s | None => "" end).
  destruct (Js.isEmpty v); [now left|].
  destruct (Schema.isBool col).
  - destruct (Patterns.isBoolTrue _); [right; left; reflexivity|].
    destruct (Patterns.isBoolFalse _); [right; left; reflexivity|now left].
  - destruct (Affinity_eqb (Schema.affinity col) INTEGER && Re.test Patterns.intRe v) eqn:Hi.
    { apply andb_prop in Hi. right. left. apply Hi. }
    destruct (Affinity_eqb (Schema.affinity col) REAL
              && (Re.test Patterns.intRe v || Re.test Patterns.realRe v)) eqn:Hr.
    { apply andb_prop in Hr. destruct Hr as [_ Hr]. apply orb_prop in Hr.
      destruct Hr as [Hr|Hr]; [right; left; exact Hr | right; right; left; exact Hr]. }
    right. right. right. cbv zeta.
    rewrite escapeQuotes_doubleChar, append_cons, append_nil. unfold Spec.readQuoted.
    rewrite Ascii.eqb_refl. apply readBody_doubleChar.
Qed.

(** ** Table names *)

Ltac each_ascii c := destruct c as [[] [] [] [] [] [] [] []].

Lemma lowerChar_word c : Schema.isWord c = true -> Spec.isIdentChar (Js.lowerChar c) = true.
Proof. each_ascii c; vm_compute; intros H; first [reflexivity | discriminate H]. Qed.

Lemma lowerChar_start c :
  Schema.isLetter c || Ascii.eqb c "_"%char = true -> Spec.isIdentStart (Js.lowerChar c) = true.
Proof. each_ascii c; vm_compute; intros H; first [reflexivity | discriminate H]. Qed.

Lemma squashNonWord_word s : forall b, Js.forallChars Schema.isWord (Schema.squashNonWord b s) = true.
Proof.
  induction s as [|c s IH]; intros b; simpl; [reflexivity|].
  destruct (Schema.isWord c) eqn:Hc; simpl.
  - now rewrite Hc, IH.
  - destruct b; [apply IH|]. simpl. apply IH.
Qed.

Lemma dropWhileStart_forall p q s :
  Js.forallChars q s = true -> Js.forallChars q (Js.dropWhileStart p s) = true.
Proof.
  induction s as [|c s IH]; simpl; [reflexivity|].
  intros H. apply andb_prop in H. destruct H as [Hc Hs].
  destruct (p c); [now apply IH|]. simpl. now rewrite Hc, Hs.
Qed.

Lemma dropWhileStart_start p s :
  Js.isEmpty (Js.dropWhileStart p s) = false ->
  Spec.startsIn (fun c => negb (p c)) (Js.dropWhileStart p s) = true.
Proof.
  induction s as [|c s IH]; simpl; [discriminate|].
  destruct (p c) eqn:Hc; [assumption|]. simpl. now rewrite Hc.
Qed.

Lemma substring_prefix_forall q n s :
  Js.forallChars q s = true -> Js.forallChars q (substring 0 n s) = true.
Proof.
  revert n. induction s as [|c s IH]; intros n; simpl.
  - destruct n; reflexivity.
  - intros H. apply andb_prop in H. destruct H as [Hc Hs].
    destruct n; [reflexivity|]. simpl. now rewrite Hc, IH.
Qed.

Lemma substring_prefix_length n s : n <= String.length s -> String.length (substring 0 n s) = n.
Proof.
  revert n. induction s as [|c s IH]; intros n; simpl.
  - intros H. assert (n = 0) as -> by lia. reflexivity.
  - destruct n; [reflexivity|]. intros H. simpl. rewrite IH; lia.
Qed.

Lemma substring_prefix_start p n s :
  Spec.startsIn p s = true -> Spec.startsIn p (substring 0 (S n) s) = true.
Proof. destruct s; simpl; auto. Qed.

Lemma toLowerCase_length s : String.length (Js.toLowerCase s) = String.length s.
Proof. induction s as [|c s IH]; simpl; [reflexivity|]. now rewrite IH. Qed.

Lemma toLowerCase_ident s :
  Js.forallChars Schema.isWord s = true ->
  Js.forallChars Spec.isIdentChar (Js.toLowerCase s) = true.
Proof.
  induction s as [|c s IH]; simpl; [reflexivity|].
  intros H. apply andb_prop in H. destruct H as [Hc Hs].
  now rewrite lowerChar_word, IH.
Qed.

Lemma toLowerCase_start s :
  Spec.startsIn (fun c => Schema.isLetter c || Ascii.eqb c "_"%char) s = true ->
  Spec.startsIn Spec.isIdentStart (Js.toLowerCase s) = true.
Proof. destruct s as [|c s]; simpl; [discriminate|]. apply lowerChar_start. Qed.

(** X3: whatever the file name, [toSafeTableNameFromFile] yields a plain
    identifier: not empty, of 63 characters at most, made of lower-case
    letters, digits and underscores only, and starting with a letter or an
    underscore. *)
Theorem toSafeTableNameFromFile_identifier (fileName : string) :
  let t := Schema.toSafeTableNameFromFile fileName in
  1 <= String.length t <= 63
  /\ Js.forallChars Spec.isIdentChar t = true
  /\ Spec.startsIn Spec.isIdentStart t = true.
Proof.
  unfold Schema.toSafeTableNameFromFile.
  set (s0 := Schema.squashNonWord false (Schema.stripExtension fileName)).
  set (p := fun c => negb (Schema.isLetter c || Ascii.eqb c "_"%char)).
  set (s1 := Js.dropWhileStart p s0).
  assert (Hw1 : Js.forallChars Schema.isWord s1 = true).
  { apply dropWhileStart_forall, squashNonWord_word. }
  set (s2 := if Js.isEmpty s1 then "table" else s1).
  assert (Hw2 : Js.forallChars Schema.isWord s2 = true).
  { unfold s2. destruct (Js.isEmpty s1); [reflexivity|assumption]. }
  assert (Hs2 : Spec.startsIn (fun c => Schema.isLetter c || Ascii.eqb c "_"%char) s2 = true).
  { unfold s2. destruct (Js.isEmpty s1) eqn:He; [reflexivity|].
    pose proof (dropWhileStart_start p s0 He) as H. fold s1 in H.
    destruct s1 as [|c r]; [discriminate|]. simpl in *. unfold p in H.
    now rewrite negb_involutive in H. }
  assert (Hl2 : 1 <= String.length s2).
  { destruct s2; [discriminate|]. simpl. lia. }
  cbv zeta. rewrite toLowerCase_length.
  destruct (Nat.ltb_spec 63 (String.length s2)) as [Hlong|Hshort].
  - rewrite substring_prefix_length by lia. split; [lia|]. split.
    + apply toLowerCase_ident. now apply substring_prefix_forall.
    + apply toLowerCase_start. now apply substring_prefix_start.
  - split; [lia|]. split.
    + now apply toLowerCase_ident.
    + now apply toLowerCase_start.
Qed.

Lemma setHas_elem_of l x : Js.setHas l x = true <-> x ∈ l.
Proof.
  unfold Js.setHas. rewrite existsb_exists. split.
  - intros (y & Hy & He). apply String.eqb_eq in He. subst. now apply list_elem_of_In.
  - intros H. exists x. split; [now apply list_elem_of_In|apply String.eqb_refl].
Qed.

Lemma decimal_inj a b : Js.decimal a = Js.decimal b -> a = b.
Proof.
  unfold Js.decimal. intros H.
  assert (Hu : Nat.to_uint a = Nat.to_uint b).
  { pose proof (NilEmpty.usu (Nat.to_uint a)) as Ha. rewrite H, NilEmpty.usu in Ha. congruence. }
  rewrite <- (DecimalNat.Unsigned.of_to a), <- (DecimalNat.Unsigned.of_to b). now rewrite Hu.
Qed.

Lemma toLowerCase_append a b : Js.toLowerCase (a +:+ b) = Js.toLowerCase a +:+ Js.toLowerCase b.
Proof.
  induction a as [|c a IH]; [reflexivity|].
  rewrite append_cons. simpl. now rewrite IH.
Qed.

Lemma toLowerCase_digits d :
  Js.toLowerCase (NilEmpty.string_of_uint d) = NilEmpty.string_of_uint d.
Proof. induction d; simpl; [reflexivity| now rewrite IHd ..]. Qed.

Lemma lower_candidate base i :
  Js.toLowerCase (base +:+ "_" +:+ Js.decimal i) = Js.toLowerCase base +:+ "_" +:+ Js.decimal i.
Proof. rewrite !toLowerCase_append. unfold Js.decimal. now rewrite toLowerCase_digits. Qed.

Lemma lower_candidate_inj base i j :
  Js.toLowerCase (base +:+ "_" +:+ Js.decimal i) = Js.toLowerCase (base +:+ "_" +:+ Js.decimal j) ->
  i = j.
Proof.
  rewrite !lower_candidate. intros H.
  apply (inj (String.app _)) in H. apply (inj (String.app _)) in H. now apply decimal_inj.
Qed.

(** The loop ends when a suffix is free, and stops at the first free one. *)
Lemma nextFreeName_some existing base : forall fuel i r,
  Schema.nextFreeName fuel i base existing = Some r ->
  exists j, i <= j /\ r = base +:+ "_" +:+ Js.decimal j
    /\ (Js.toLowerCase r ∉ existing)
    /\ forall k, i <= k < j -> Js.toLowerCase (base +:+ "_" +:+ Js.decimal k) ∈ existing.
Proof.
  induction fuel as [|fuel IH]; intros i r; simpl; [discriminate|].
  destruct (Js.setHas existing _) eqn:Hhas.
  - intros H. destruct (IH _ _ H) as (j & Hj & -> & Hfree & Hbelow).
    exists j. split; [lia|]. split; [reflexivity|]. split; [assumption|].
    intros k Hk. destruct (Nat.eq_dec k i) as [->|Hne].
    + now apply setHas_elem_of.
    + apply Hbelow. lia.
  - intros [= <-]. exists i. split; [lia|]. split; [reflexivity|]. split.
    + intros Hin. apply setHas_elem_of in Hin. congruence.
    + intros k Hk. lia.
Qed.

(** If the loop runs out of turns, every suffix it tried is taken. *)
Lemma nextFreeName_none existing base : forall fuel i,
  Schema.nextFreeName fuel i base existing = None ->
  forall k, i <= k < i + fuel -> Js.toLowerCase (base +:+ "_" +:+ Js.decimal k) ∈ existing.
Proof.
  induction fuel as [|fuel IH]; intros i; simpl; [intros _ k Hk; lia|].
  destruct (Js.setHas existing _) eqn:Hhas; [|discriminate].
  intros H k Hk. destruct (Nat.eq_dec k i) as [->|Hne].
  - now apply setHas_elem_of.
  - apply (IH _ H). lia.
Qed.

(** More turns than names: the loop cannot run out. *)
Lemma nextFreeName_enough existing base fuel i :
  length existing < fuel -> Schema.nextFreeName fuel i base existing <> None.
Proof.
  intros Hlen Hnone. pose proof (nextFreeName_none _ _ _ _ Hnone) as Hall.
  set (tried := map (fun k => Js.toLowerCase (base +:+ "_" +:+ Js.decimal k)) (seq i fuel)).
  assert (Hnd : NoDup tried).
  { apply (NoDup_fmap_2_strong _ (seq i fuel)).
    - intros a b _ _ Hab. now apply lower_candidate_inj in Hab.
    - apply NoDup_seq. }
  assert (Hsub : tried ⊆+ existing).
  { apply NoDup_submseteq; [assumption|]. intros x Hx.
    apply (list_elem_of_fmap _ (seq i fuel)) in Hx. destruct Hx as (k & -> & Hk).
    apply elem_of_seq in Hk. apply Hall. lia. }
  apply submseteq_length in Hsub. unfold tried in Hsub.
  rewrite length_map, length_seq in Hsub. lia.
Qed.

(** X4: given more turns than there are tables, [ensureUniqueTableName]
    returns a name, and the name is free: no existing table has it, case
    aside.  It is [base] itself when [base] is free, and otherwise [base_j]
    for the least [j >= 2] whose name is free. *)
Theorem ensureUniqueTableName_free (fuel : nat) (base : string) (existingNames : list string) :
  length existingNames < fuel ->
  exists r,
    Schema.ensureUniqueTableName fuel base existingNames = Some r
    /\ (Js.toLowerCase r ∉ map Js.toLowerCase existingNames)
    /\ (Js.toLowerCase base ∉ map Js.toLowerCase existingNames -> r = base)
    /\ (Js.toLowerCase base ∈ map Js.toLowerCase existingNames ->
        exists j, 2 <= j /\ r = base +:+ "_" +:+ Js.decimal j
          /\ forall k, 2 <= k < j ->
               Js.toLowerCase (base +:+ "_" +:+ Js.decimal k) ∈ map Js.toLowerCase existingNames).
Proof.
  intros Hfuel. unfold Schema.ensureUniqueTableName.
  set (existing := map Js.toLowerCase existingNames).
  destruct (Js.setHas existing (Js.toLowerCase base)) eqn:Hbase; simpl.
  - apply setHas_elem_of in Hbase.
    destruct (Schema.nextFreeName fuel 2 base existing) as [r|] eqn:Hr.
    + destruct (nextFreeName_some _ _ _ _ _ Hr) as (j & Hj & Hrj & Hfree & Hbelow).
      exists r. split; [reflexivity|]. split; [assumption|]. split; [contradiction|].
      intros _. exists j. auto.
    + exfalso. apply (nextFreeName_enough existing base fuel 2); [|assumption].
      unfold existing. now rewrite length_map.
  - assert (Hfree : Js.toLowerCase base ∉ existing).
    { intros Hin. apply setHas_elem_of in Hin. congruence. }
    exists base. split; [reflexivity|]. split; [assumption|]. split; [reflexivity|contradiction].
Qed.

Lemma ensureUniqueTableName_free_witness :
  exists r,
    Schema.ensureUniqueTableName 4 "users" ["Users"; "users_2"; "USERS_3"] = Some r
    /\ (Js.toLowerCase r ∉ map Js.toLowerCase ["Users"; "users_2"; "USERS_3"])
    /\ (Js.toLowerCase "users" ∉ map Js.toLowerCase ["Users"; "users_2"; "USERS_3"] -> r = "users")
    /\ (Js.toLowerCase "users" ∈ map Js.toLowerCase ["Users"; "users_2"; "USERS_3"] ->
        exists j, 2 <= j /\ r = "users" +:+ "_" +:+ Js.decimal j
          /\ forall k, 2 <= k < j ->
               Js.toLowerCase ("users" +:+ "_" +:+ Js.decimal k)
               ∈ map Js.toLowerCase ["Users"; "users_2"; "USERS_3"]).
Proof.
  apply (ensureUniqueTableName_free 4 "users" ["Users"; "users_2"; "USERS_3"]).
  simpl. lia.
Defined.

(** ** The schema does not depend on the order of the rows *)

Lemma scanCell_comm st a b :
  Schema.scanCell (Schema.scanCell st a) b = Schema.scanCell (Schema.scanCell st b) a.
Proof.
  unfold Schema.scanCell, Schema.bump.
  destruct (Js.isEmpty a), (Js.isEmpty b); simpl; try reflexivity.
  f_equal.
  - destruct (Re.test Patterns.intRe a), (Re.test Patterns.intRe b); reflexivity.
  - destruct (negb _ && _), (negb _ && _); reflexivity.
  - destruct (_ || _), (_ || _); reflexivity.
  - destruct (Re.test Patterns.dateRe a), (Re.test Patterns.dateRe b); reflexivity.
  - apply leibniz_equiv. set_solver.
Qed.

Lemma scanColumn_perm rows rows' h :
  rows ≡ₚ rows' -> Schema.scanColumn rows h = Schema.scanColumn rows' h.
Proof.
  unfold Schema.scanColumn. generalize Schema.noStats.
  intros st H. revert st. induction H; intros st; simpl.
  - reflexivity.
  - apply IHPermutation.
  - now rewrite scanCell_comm.
  - now rewrite IHPermutation1.
Qed.

(** X5: [inferSchema] gives the same columns, the same key and the same
    unique columns whatever the order of the rows. *)
Theorem inferSchema_row_order (rows rows' : list Js.object) (headers : list string)
        (table : string) :
  rows ≡ₚ rows' ->
  Schema.inferSchema rows headers table = Schema.inferSchema rows' headers table.
Proof.
  intros H.
  assert (Hc : map (Schema.inferCol rows) headers = map (Schema.inferCol rows') headers).
  { apply map_ext. intros h. unfold Schema.inferCol. now rewrite (scanColumn_perm rows rows' h H). }
  unfold Schema.inferSchema. now rewrite Hc.
Qed.

Lemma inferSchema_row_order_witness :
  Schema.inferSchema (Examples.column "c" ["1"; "2"; "x"]) ["c"] "t"
  = Schema.inferSchema (Examples.column "c" ["x"; "1"; "2"]) ["c"] "t".
Proof.
  apply (inferSchema_row_order (Examples.column "c" ["1"; "2"; "x"])
           (Examples.column "c" ["x"; "1"; "2"])).
  symmetry.
  exact (Permutation_cons_append (Examples.column "c" ["1"; "2"]) [("c", Js.Str "x")]).
Defined.

(** ** The unique columns and the key of [inferSchema] *)

Lemma size_list_to_set_le (l : list string) : size (list_to_set l : gset string) <= length l.
Proof.
  induction l as [|x l IH].
  - rewrite list_to_set_nil, size_empty. simpl. lia.
  - rewrite list_to_set_cons. simpl length. destruct (decide (x ∈ (list_to_set l : gset string))) as [Hin|Hout].
    + replace ({[x]} ∪ list_to_set l : gset string) with (list_to_set l : gset string)
        by (apply leibniz_equiv; set_solver).
      lia.
    + rewrite size_union by set_solver. rewrite size_singleton. lia.
Qed.

Lemma size_list_to_set_NoDup (l : list string) :
  size (list_to_set l : gset string) = length l <-> NoDup l.
Proof.
  split; [|apply size_list_to_set].
  induction l as [|x l IH]; intros H; [constructor|].
  rewrite list_to_set_cons in H. simpl length in H.
  pose proof (size_list_to_set_le l) as Hle.
  destruct (decide (x ∈ (list_to_set l : gset string))) as [Hin|Hout].
  - replace ({[x]} ∪ list_to_set l : gset string) with (list_to_set l : gset string) in H
      by (apply leibniz_equiv; set_solver).
    lia.
  - rewrite size_union in H by set_solver. rewrite size_singleton in H.
    constructor; [set_solver|]. apply IH. lia.
Qed.

Lemma nonEmpty_length cells : length (Spec.nonEmpty cells) <= length cells.
Proof. apply filter_length_le. Qed.

Lemma nonEmpty_all cells :
  length (Spec.nonEmpty cells) = length cells <-> Forall (fun s => s <> "") cells.
Proof.
  induction cells as [|c cells IH]; simpl.
  - split; [constructor|reflexivity].
  - pose proof (nonEmpty_length cells) as Hle. unfold Spec.nonEmpty in *.
    destruct c as [|a c]; simpl.
    + split; [lia|]. intros H. apply Forall_cons in H. now destruct H.
    + rewrite Forall_cons. split.
      * intros H. split; [discriminate|]. apply IH. lia.
      * intros [_ H]. apply IH in H. lia.
Qed.

Lemma nonEmpty_id cells : Forall (fun s => s <> "") cells -> Spec.nonEmpty cells = cells.
Proof.
  induction 1 as [|c cells Hc _ IH]; [reflexivity|].
  unfold Spec.nonEmpty in *. simpl. destruct c; [congruence|]. simpl. now rewrite IH.
Qed.

(** A column is not null exactly when no cell is empty once trimmed. *)
Lemma inferCol_notNull_cells rows h :
  Schema.notNull (Schema.inferCol rows h) = true
  <-> Forall (fun s => s <> "") (Spec.schemaCells rows h).
Proof.
  rewrite inferCol_notNull. unfold Schema.isNotNull, Schema.scanColumn.
  pose proof (scan_empty h rows Schema.noStats) as He. simpl in He.
  rewrite <- nonEmpty_all. unfold Spec.schemaCells at 2. rewrite length_map.
  rewrite Nat.eqb_eq. lia.
Qed.

Lemma inferCol_unique_notNull rows h :
  Schema.unique (Schema.inferCol rows h) && Schema.notNull (Schema.inferCol rows h) = true
  <-> rows <> [] /\ Forall (fun s => s <> "") (Spec.schemaCells rows h)
      /\ NoDup (Spec.schemaCells rows h).
Proof.
  rewrite andb_true_iff, inferCol_notNull_cells, inferSchema_unique_spec.
  unfold Spec.unique, Spec.distinctCount. split.
  - intros [Hu Hall]. rewrite (nonEmpty_id _ Hall) in Hu.
    apply andb_prop in Hu. destruct Hu as [Hpos Hsz].
    apply Nat.eqb_eq, size_list_to_set_NoDup in Hsz. apply Nat.ltb_lt in Hpos.
    split; [|auto]. intros ->. simpl in Hpos. lia.
  - intros (Hne & Hall & Hnd). split; [|assumption].
    rewrite (nonEmpty_id _ Hall). apply andb_true_intro. split.
    + apply Nat.ltb_lt. unfold Spec.schemaCells. rewrite length_map.
      destruct rows; [congruence|simpl; lia].
    + apply Nat.eqb_eq, size_list_to_set_NoDup, Hnd.
Qed.

Lemma classify_integer st :
  fst (fst (Schema.classify st)) = INTEGER -> 0 < Schema.nonNull st.
Proof.
  unfold Schema.classify. destruct (Nat.ltb 0 (Schema.nonNull st)) eqn:H.
  - intros _. now apply Nat.ltb_lt.
  - discriminate.
Qed.

Lemma inferCol_of_name rows headers c :
  c ∈ map (Schema.inferCol rows) headers ->
  Schema.name c ∈ headers /\ c = Schema.inferCol rows (Schema.name c).
Proof.
  intros H. apply list_elem_of_In, in_map_iff in H. destruct H as (h & <- & Hh).
  rewrite inferCol_name. split; [now apply list_elem_of_In|reflexivity].
Qed.

(** X6: the unique columns of [inferSchema] are, in header order, the
    headers whose cells are all non-empty once trimmed and pairwise
    distinct, over at least one row; a key is only chosen among the
    headers, over at least one row, and none of its cells is empty. *)
Theorem inferSchema_unique_columns (rows : list Js.object) (headers : list string)
        (table : string) :
  let r := Schema.inferSchema rows headers table in
  Schema.uniqueCols r `sublist_of` headers
  /\ (forall h,
        h ∈ Schema.uniqueCols r
        <-> h ∈ headers /\ rows <> []
            /\ Forall (fun s => s <> "") (Spec.schemaCells rows h)
            /\ NoDup (Spec.schemaCells rows h))
  /\ (forall p,
        Schema.pk r = Some p ->
        p ∈ headers /\ rows <> [] /\ Forall (fun s => s <> "") (Spec.schemaCells rows p)).
Proof.
  simpl. split; [|split].
  - induction headers as [|h headers IH]; simpl; [constructor|].
    destruct (_ && _); simpl.
    + rewrite inferCol_name. now apply sublist_skip.
    + now apply sublist_cons.
  - intros h. rewrite <- inferCol_unique_notNull. split.
    + intros H. apply list_elem_of_In, in_map_iff in H. destruct H as (c & <- & Hc).
      apply filter_In in Hc. destruct Hc as [Hc Hu].
      apply list_elem_of_In, inferCol_of_name in Hc. destruct Hc as [Hh <-]. auto.
    + intros [Hh Hu]. apply list_elem_of_In, in_map_iff.
      exists (Schema.inferCol rows h). split; [apply inferCol_name|].
      apply filter_In. split; [|assumption].
      apply in_map, list_elem_of_In, Hh.
  - intros p H. apply choosePk_cases in H.
    destruct H as [(pre & c & post & Hcs & Hn & Hc & _) | (_ & pre & c & post & Hcs & Hn & Hc & _)].
    + assert (Hin : c ∈ map (Schema.inferCol rows) headers) by (rewrite Hcs; set_solver).
      apply inferCol_of_name in Hin. rewrite Hn in Hin. destruct Hin as [Hp ->].
      unfold Schema.isPkCandidate in Hc.
      apply andb_prop in Hc. destruct Hc as [Hc _].
      apply andb_prop in Hc. destruct Hc as [Hc Hnn].
      apply andb_prop in Hc. destruct Hc as [_ Hu].
      assert (Hun : Schema.unique (Schema.inferCol rows p) && Schema.notNull (Schema.inferCol rows p) = true)
        by (rewrite Hu, Hnn; reflexivity).
      apply inferCol_unique_notNull in Hun. tauto.
    + assert (Hin : c ∈ map (Schema.inferCol rows) headers) by (rewrite Hcs; set_solver).
      apply inferCol_of_name in Hin. rewrite Hn in Hin. destruct Hin as [Hp ->].
      unfold Schema.isPlainId in Hc.
      apply andb_prop in Hc. destruct Hc as [Hc Ha].
      apply andb_prop in Hc. destruct Hc as [_ Hnn].
      split; [assumption|]. split; [|now apply inferCol_notNull_cells].
      assert (Haff : Schema.affinity (Schema.inferCol rows p) = INTEGER)
        by (destruct (Schema.affinity _); simpl in Ha; congruence).
      rewrite inferCol_affinity in Haff. apply classify_integer in Haff.
      intros ->. unfold Schema.scanColumn in Haff. simpl in Haff. lia.
Qed.

(** ** The null rate of [inferColumns] *)

Lemma ratio_zero a n : n <> 0 -> (ratio a n == 0 <-> a = 0).
Proof.
  intros Hn. unfold ratio, Qdiv. split.
  - intros H. apply Qmult_integral in H. destruct H as [H|H].
    + unfold Qeq in H. simpl in H. lia.
    + exfalso. revert H. unfold Qinv, Qeq. simpl.
      destruct (Z.of_nat n) eqn:Hz; simpl; lia.
  - intros ->. simpl. apply Qmult_0_l.
Qed.

Lemma inferColumn_counts rows h :
  let values := CsvUtils.columnValues rows h in
  let st := fold_left CsvUtils.scanValue values CsvUtils.noStats in
  CsvUtils.nullCount st + length (Spec.nonEmpty (Spec.csvCells rows h)) = length values
  /\ length (Spec.csvCells rows h) = length values.
Proof.
  simpl. destruct (csv_scan (CsvUtils.columnValues rows h) CsvUtils.noStats) as (Hn & _ & _).
  simpl in Hn. unfold Spec.csvCells. rewrite length_map. auto.
Qed.

(** X7: the null rate [inferColumns] reports for a column is the share of
    its values (those that are not [undefined]) that are null or empty once
    trimmed; it lies between 0 and 1, is 0 exactly when no value is empty,
    and is 0 for every column reported unique. *)
Theorem inferColumns_nullRate (rows : list Js.object) (headers : list string) :
  Forall (fun c =>
            let cells := Spec.csvCells rows (CsvUtils.name c) in
            (0 <= CsvUtils.nullRate c)%Q /\ (CsvUtils.nullRate c <= 1)%Q
            /\ (cells <> [] ->
                CsvUtils.nullRate c
                = ratio (length cells - length (Spec.nonEmpty cells)) (length cells))
            /\ (CsvUtils.nullRate c == 0 <-> Forall (fun s => s <> "") cells)
            /\ (CsvUtils.unique c = true -> CsvUtils.nullRate c == 0))
         (CsvUtils.inferColumns rows headers).
Proof.
  unfold CsvUtils.inferColumns. rewrite Forall_forall. intros c Hc.
  apply list_elem_of_In, in_map_iff in Hc. destruct Hc as (h & <- & _).
  destruct (inferColumn_counts rows h) as [Hn Hl]. simpl in Hn.
  unfold CsvUtils.inferColumn. simpl.
  set (values := CsvUtils.columnValues rows h) in *.
  set (st := fold_left CsvUtils.scanValue values CsvUtils.noStats) in *.
  set (cells := Spec.csvCells rows h) in *.
  assert (Hd : (if Nat.eqb (length values) 0 then 1 else length values) <> 0)
    by (destruct (length values); simpl; lia).
  assert (Hz : CsvUtils.nullCount st = 0 <-> Forall (fun s => s <> "") cells)
    by (rewrite <- nonEmpty_all; lia).
  split; [|split; [|split; [|split]]].
  - apply quotient_bounds; [|lia]. destruct (length values); simpl; lia.
  - apply quotient_bounds; [|lia]. destruct (length values) eqn:E; simpl; lia.
  - intros Hne. rewrite Hl. destruct (length values) eqn:E.
    + destruct cells; [congruence|discriminate].
    + simpl Nat.eqb. cbv iota. f_equal. lia.
  - rewrite (ratio_zero _ _ Hd). exact Hz.
  - intros Hu. apply (ratio_zero _ _ Hd).
    apply andb_prop in Hu. destruct Hu as [Hu _]. apply andb_prop in Hu. destruct Hu as [Hu _].
    destruct (csv_scan values CsvUtils.noStats) as (_ & Hh & _). simpl in Hh.
    fold st in Hh. rewrite Hh in Hu. apply negb_true_iff in Hu.
    apply Hz. fold cells in Hu. unfold cells, Spec.csvCells. fold values.
    clear -Hu. induction (map Spec.csvText values) as [|x l IH]; [constructor|].
    simpl in Hu. apply orb_false_elim in Hu. destruct Hu as [Hx Hl].
    constructor; [|auto]. intros ->. discriminate.
Qed.

(** ** The two ways a cell is written *)

(** X8: for a text cell, the literal [toSqlLiteral] writes is a literal
    of the value [coerceByAffinity] binds for the same column: NULL for
    NULL, the quoted text for a text, and for a number a text of a number
    of which the number bound is the [Number]: the double nearest to what
    the literal denotes, so that the literal 9007199254740993 goes with
    the number 9007199254740992. *)
Theorem toSqlLiteral_coerceByAffinity (raw : string) (col : Schema.InferredCol) :
  Spec.writes (Schema.toSqlLiteral (Some raw) col)
    (Sqlite.coerceByAffinity (Js.Str raw) (Schema.affinity col) (Schema.isBool col))
  /\ (forall z d,
        Spec.parseInteger (Schema.toSqlLiteral (Some raw) col) = Some z ->
        Sqlite.coerceByAffinity (Js.Str raw) (Schema.affinity col) (Schema.isBool col)
        = Sqlite.BNumber d ->
        d = Js.toDouble (inject_Z z)
        /\ ((Z.abs z <= 2 ^ 53)%Z -> d = Js.Finite (inject_Z z)))
  /\ Schema.toSqlLiteral (Some "9007199254740993")
       (Schema.inferCol (Examples.column "n" ["9007199254740993"]) "n")
     = "9007199254740993"
  /\ Sqlite.coerceByAffinity (Js.Str "9007199254740993")
       (Schema.affinity (Schema.inferCol (Examples.column "n" ["9007199254740993"]) "n"))
       (Schema.isBool (Schema.inferCol (Examples.column "n" ["9007199254740993"]) "n"))
     = Sqlite.BNumber (Js.Finite (inject_Z 9007199254740992)).
Proof.
  assert (Hw : Spec.writes (Schema.toSqlLiteral (Some raw) col)
                 (Sqlite.coerceByAffinity (Js.Str raw) (Schema.affinity col)
                    (Schema.isBool col))).
  { unfold Schema.toSqlLiteral, Sqlite.coerceByAffinity, Spec.writes, Spec.isNumeric. simpl.
    destruct (Js.isEmpty (Js.trim raw)); [reflexivity|].
    destruct (Schema.isBool col).
    - destruct (Patterns.isBoolTrue _); [split; vm_compute; reflexivity|].
      destruct (Patterns.isBoolFalse _); [split; vm_compute; reflexivity|reflexivity].
    - destruct (Affinity_eqb (Schema.affinity col) INTEGER && _) eqn:Hi.
      + apply andb_prop in Hi. destruct Hi as [_ ->]. now split.
      + destruct (Affinity_eqb (Schema.affinity col) REAL && _) eqn:Hr; [|reflexivity].
        apply andb_prop in Hr. destruct Hr as [_ ->]. now split. }
  split; [exact Hw|]. split; [|split; vm_compute; reflexivity].
  intros z d Hz Hd. rewrite Hd in Hw. destruct Hw as [_ ->].
  rewrite (toNumber_integer _ _ Hz). split; [reflexivity|]. apply toDouble_integer.
Qed.

(** ** The rows [importCsv] inserts *)

Lemma string_of_uint_digits d :
  forallb Js.isDigit (list_ascii_of_string (NilEmpty.string_of_uint d)) = true.
Proof. induction d; simpl; auto. Qed.

Lemma to_uint_not_nil n : Nat.to_uint n <> Decimal.Nil.
Proof.
  rewrite <- (DecimalNat.Unsigned.of_to n) at 1. rewrite DecimalNat.Unsigned.to_of.
  apply DecimalFacts.unorm_nonnil.
Qed.

Lemma decimal_intRe n : Re.test Patterns.intRe (Js.decimal n) = true.
Proof.
  unfold Js.decimal. pose proof (to_uint_not_nil n) as Hn.
  pose proof (string_of_uint_digits (Nat.to_uint n)) as Hd.
  destruct (Nat.to_uint n) as [|d|d|d|d|d|d|d|d|d|d]; [congruence|..];
    simpl in Hd;
    match goal with
    | |- Re.test _ ?s = true =>
        destruct (digitsValue_defined (list_ascii_of_string s) 0%Z) as [z Hz];
          [exact Hd | apply (parseInteger_intRe s z); exact Hz]
    end.
Qed.

Lemma digitsValue_of_uint d : forall acc,
  Spec.digitsValue (Z.of_nat acc) (list_ascii_of_string (NilEmpty.string_of_uint d))
  = Some (Z.of_nat (Nat.of_uint_acc d acc)).
Proof.
  induction d; intros acc; simpl; [reflexivity|..];
    rewrite <- IHd; f_equal; rewrite Nat.tail_mul_spec; lia.
Qed.

(** The decimal text of a natural number reads back as that number. *)
Lemma parseInteger_decimal n : Spec.parseInteger (Js.decimal n) = Some (Z.of_nat n).
Proof.
  unfold Js.decimal. pose proof (to_uint_not_nil n) as Hn.
  pose proof (digitsValue_of_uint (Nat.to_uint n) 0) as Hd.
  change (Nat.of_uint_acc (Nat.to_uint n) 0) with (Nat.of_uint (Nat.to_uint n)) in Hd.
  rewrite DecimalNat.Unsigned.of_to in Hd. simpl Z.of_nat in Hd.
  unfold Spec.parseInteger.
  destruct (Nat.to_uint n) as [|d|d|d|d|d|d|d|d|d|d]; [congruence|..]; exact Hd.
Qed.

Lemma coerceByAffinity_wellFormed v aff b :
  Spec.wellFormed (Sqlite.coerceByAffinity v aff b).
Proof.
  unfold Sqlite.coerceByAffinity, Spec.wellFormed, Spec.isNumeric.
  destruct (Js.isNullish v); [exact I|].
  set (s := match v with Js.Str x => Js.trim x | _ => Js.toString v end).
  destruct (Js.isEmpty s) eqn:He; [exact I|].
  destruct b.
  - destruct (Patterns.isBoolTrue _); [exists "1"; split; vm_compute; reflexivity|].
    destruct (Patterns.isBoolFalse _); [exists "0"; split; vm_compute; reflexivity|exact I].
  - destruct (Affinity_eqb aff INTEGER && Re.test Patterns.intRe s) eqn:Hi.
    + apply andb_prop in Hi. destruct Hi as [_ Hi]. exists s. now rewrite Hi.
    + destruct (Affinity_eqb aff REAL && _) eqn:Hr.
      * apply andb_prop in Hr. destruct Hr as [_ Hr]. exists s. now rewrite Hr.
      * intros ->. discriminate.
Qed.

(** X9: when [importCsv] goes on to insert, it binds one list of values
    per row, each as long as the column list of the INSERT statement; with
    no natural key, the first value of the row of index [i] is the
    surrogate [i + 1], as a number: the double of [i + 1], which is
    [i + 1] itself up to 2^53; every number bound is the [Number] of an
    integer or real text, and no text bound is empty. *)
Theorem importCsv_insert_rows (rows : list Js.object) (plan : Sqlite.Plan) :
  Sqlite.importCsv rows = Some plan ->
  length (Sqlite.insertRows rows) = length rows
  /\ Forall (fun values => length values = length (Sqlite.insertCols plan))
            (Sqlite.insertRows rows)
  /\ (Sqlite.pkClause plan = None ->
      forall i values, Sqlite.insertRows rows !! i = Some values ->
        head values = Some (Sqlite.BNumber (Js.toNumber (Js.decimal (i + 1))))
        /\ head values = Some (Sqlite.BNumber (Js.toDouble (inject_Z (Z.of_nat (i + 1)))))
        /\ ((Z.of_nat (i + 1) <= 2 ^ 53)%Z ->
            head values = Some (Sqlite.BNumber (Js.Finite (inject_Z (Z.of_nat (i + 1)))))))
  /\ Forall (Forall Spec.wellFormed) (Sqlite.insertRows rows).
Proof.
  unfold Sqlite.importCsv, Sqlite.insertRows.
  destruct rows as [|first rest]; [discriminate|].
  destruct (Nat.eqb (length (Js.keys first)) 0); [discriminate|].
  set (rows := first :: rest). set (headers := Js.keys first).
  intros [= <-]. simpl Sqlite.insertCols. simpl Sqlite.pkClause.
  split; [apply length_imap|]. split; [|split].
  - rewrite Forall_forall. intros values Hv. apply list_elem_of_lookup in Hv.
    destruct Hv as [i Hi]. rewrite list_lookup_imap in Hi.
    destruct (rows !! i) as [r|]; [|discriminate]. simpl in Hi. injection Hi as <-.
    unfold Sqlite.rowValues, Sqlite.inferredColumns.
    rewrite length_app, !length_map.
    destruct (Sqlite.naturalKey rows headers); simpl; lia.
  - intros Hpk i values Hi. rewrite list_lookup_imap in Hi.
    destruct (rows !! i) as [r|]; [|discriminate]. simpl in Hi. injection Hi as <-.
    unfold Sqlite.rowValues. rewrite Hpk. simpl head.
    rewrite (toNumber_integer _ _ (parseInteger_decimal (i + 1))).
    split; [reflexivity|]. split; [reflexivity|]. intros Hsmall.
    rewrite toDouble_integer by lia. reflexivity.
  - rewrite Forall_forall. intros values Hv. apply list_elem_of_lookup in Hv.
    destruct Hv as [i Hi]. rewrite list_lookup_imap in Hi.
    destruct (rows !! i) as [r|]; [|discriminate]. simpl in Hi. injection Hi as <-.
    unfold Sqlite.rowValues. apply Forall_app. split.
    + destruct (Sqlite.naturalKey rows headers); constructor; [|constructor].
      exists (Js.decimal (i + 1)). unfold Spec.isNumeric. rewrite decimal_intRe.
      split; [reflexivity|].
      now rewrite (toNumber_integer _ _ (parseInteger_decimal (i + 1))).
    + rewrite Forall_forall. intros b Hb. apply list_elem_of_In, in_map_iff in Hb.
      destruct Hb as (c & <- & _). apply coerceByAffinity_wellFormed.
Qed.

Lemma importCsv_insert_rows_witness :
  length (Sqlite.insertRows (Examples.column "x" ["1"; ""; "7"])) = 3
  /\ Sqlite.insertRows (Examples.column "x" ["1"; ""; "7"])
     = [[Sqlite.BNumber (Js.Finite 1); Sqlite.BText "1"];
        [Sqlite.BNumber (Js.Finite 2); Sqlite.BNull];
        [Sqlite.BNumber (Js.Finite 3); Sqlite.BText "7"]].
Proof.
  split; [|reflexivity].
  destruct (importCsv_insert_rows (Examples.column "x" ["1"; ""; "7"])
              {| Sqlite.colDefs := [Sqlite.surrogate;
                                    {| Sqlite.cd_name := "x"; Sqlite.cd_affinity := TEXT;
                                       Sqlite.cd_primaryKey := false;
                                       Sqlite.cd_notNull := false |}];
                 Sqlite.pkClause := None; Sqlite.uniqueClauses := ["x"];
                 Sqlite.insertCols := ["id"; "x"] |}) as [H _].
  - vm_compute. reflexivity.
  - exact H.
Defined.

(** ** When the table of [importCsv] can be created *)

(** X10: the CREATE TABLE statement of [importCsv] names no column twice
    (names compared as SQLite compares them, without regard to case)
    exactly when the headers are distinct in that sense and, where no
    natural key is found, none of them is [id] in any letter case. *)
Theorem importCsv_ddl_accepted (rows : list Js.object) (plan : Sqlite.Plan) :
  Sqlite.importCsv rows = Some plan ->
  exists first rest,
    rows = first :: rest
    /\ (Sqlite.ddlAccepted plan = true
        <-> NoDup (map Js.toLowerCase (Js.keys first))
            /\ (Sqlite.pkClause plan = None ->
                Forall (fun h => Js.toLowerCase h <> "id") (Js.keys first))).
Proof.
  intros H. destruct (importCsv_columns rows plan H) as (first & rest & -> & Hk).
  exists first, rest. split; [reflexivity|].
  unfold Sqlite.ddlAccepted. rewrite bool_decide_eq_true.
  rewrite <- (map_map Sqlite.cd_name Js.toLowerCase).
  destruct (Sqlite.naturalKey (first :: rest) (Js.keys first)) as [k|].
  - destruct Hk as (_ & Hpk & -> & _). rewrite Hpk. split; [|tauto].
    intros Hnd. split; [assumption|discriminate].
  - destruct Hk as (Hpk & _ & -> & _). rewrite Hpk.
    change (map Js.toLowerCase ("id" :: Js.keys first))
      with ("id" :: map Js.toLowerCase (Js.keys first)).
    rewrite NoDup_cons. split.
    + intros [Hid Hnd]. split; [assumption|]. intros _.
      rewrite Forall_forall. intros h Hh Heq. apply Hid. rewrite <- Heq.
      apply list_elem_of_In, in_map, list_elem_of_In, Hh.
    + intros [Hnd Hall]. split; [|assumption].
      intros Hin. apply list_elem_of_In, in_map_iff in Hin.
      destruct Hin as (h & Heq & Hh). specialize (Hall eq_refl).
      rewrite Forall_forall in Hall. apply (Hall h); [now apply list_elem_of_In|assumption].
Qed.

Lemma importCsv_ddl_accepted_witness :
  exists plan,
    Sqlite.importCsv (Examples.column "x" ["1"; ""; "7"]) = Some plan
    /\ Sqlite.ddlAccepted plan = true.
Proof.
  eexists. split; [reflexivity|].
  destruct (importCsv_ddl_accepted (Examples.column "x" ["1"; ""; "7"]) _ eq_refl)
    as (first & rest & Hrows & Hiff).
  injection Hrows as <- <-. apply Hiff. split.
  - apply NoDup_singleton.
  - intros _. repeat constructor. discriminate.
Defined.

(** ** The similarity score *)

Lemma pairs_nonempty s : 2 <= String.length s -> SqliteMeta.pairs s <> [].
Proof. destruct s as [|a [|b s]]; simpl; [lia | lia | discriminate]. Qed.

Lemma bigrams_size s : 1 <= size (SqliteMeta.bigrams s).
Proof.
  unfold SqliteMeta.bigrams. destruct (Nat.ltb_spec (String.length s) 2) as [Hlt|Hge].
  - rewrite size_singleton. lia.
  - pose proof (pairs_nonempty s Hge) as Hne.
    destruct (SqliteMeta.pairs s) as [|p l]; [congruence|].
    rewrite list_to_set_cons.
    assert (Hsub : ({[p]} : gset string) ⊆ {[p]} ∪ list_to_set l) by set_solver.
    apply subseteq_size in Hsub. rewrite size_singleton in Hsub. exact Hsub.
Qed.

Lemma diceSim_ratio a b :
  SqliteMeta.diceSim a b
  = ratio (2 * size (SqliteMeta.bigrams a ∩ SqliteMeta.bigrams b))
          (size (SqliteMeta.bigrams a) + size (SqliteMeta.bigrams b)).
Proof.
  unfold SqliteMeta.diceSim. rewrite countShared_size.
  pose proof (bigrams_size a). pose proof (bigrams_size b).
  destruct (Nat.eqb_spec (size (SqliteMeta.bigrams a) + size (SqliteMeta.bigrams b)) 0); [lia|].
  reflexivity.
Qed.

Lemma ratio_one a n : n <> 0 -> (ratio a n == 1 <-> a = n).
Proof.
  intros Hn. unfold ratio. 
  assert (Hq : ~ inject_Z (Z.of_nat n) == 0) by (unfold Qeq; simpl; lia).
  split.
  - intros H. apply (Qmult_inj_r _ _ (inject_Z (Z.of_nat n)) Hq) in H.
    rewrite Qmult_1_l in H. unfold Qdiv in H. rewrite <- Qmult_assoc in H.
    rewrite (Qmult_comm (/ _)), Qmult_inv_r, Qmult_1_r in H by assumption.
    unfold Qeq in H. simpl in H. lia.
  - intros ->. apply Qmult_inv_r. assumption.
Qed.

(** X11: the score of [diceSim] (and of its copy [dice]) lies between 0
    and 1; it is 1 exactly when the two names have the same set of bigrams,
    so a name scores 1 against itself, and 0 exactly when they share none. *)
Theorem diceSim_bounds (a b : string) :
  (0 <= SqliteMeta.diceSim a b)%Q /\ (SqliteMeta.diceSim a b <= 1)%Q
  /\ (SqliteMeta.diceSim a b == 1 <-> SqliteMeta.bigrams a = SqliteMeta.bigrams b)
  /\ (SqliteMeta.diceSim a b == 0 <-> SqliteMeta.bigrams a ∩ SqliteMeta.bigrams b = ∅)
  /\ SqliteMeta.diceSim a a == 1
  /\ BadgeHeuristics.dice a b = SqliteMeta.diceSim a b.
Proof.
  rewrite (diceSim_ratio a a), diceSim_ratio.
  set (A := SqliteMeta.bigrams a). set (B := SqliteMeta.bigrams b).
  pose proof (bigrams_size a) as HA. pose proof (bigrams_size b) as HB. fold A in HA. fold B in HB.
  assert (HiA : size (A ∩ B) <= size A) by (apply subseteq_size; set_solver).
  assert (HiB : size (A ∩ B) <= size B) by (apply subseteq_size; set_solver).
  assert (Hd : size A + size B <> 0) by lia.
  split; [|split; [|split; [|split; [|split]]]].
  - apply quotient_bounds; lia.
  - apply quotient_bounds; lia.
  - rewrite (ratio_one _ _ Hd). split.
    + intros H. apply leibniz_equiv.
      assert (EA : A ∩ B ≡ A) by (apply set_subseteq_size_equiv; [set_solver|lia]).
      assert (EB : A ∩ B ≡ B) by (apply set_subseteq_size_equiv; [set_solver|lia]).
      now rewrite <- EA at 1.
    + intros ->. replace (B ∩ B) with B by (apply leibniz_equiv; set_solver). lia.
  - rewrite (ratio_zero _ _ Hd). split.
    + intros H. apply leibniz_equiv, size_empty_inv. lia.
    + intros ->. rewrite size_empty. lia.
  - apply ratio_one; [lia|].
    replace (A ∩ A) with A by (apply leibniz_equiv; set_solver). lia.
  - unfold A, B. rewrite <- diceSim_ratio. reflexivity.
Qed.

(** ** Normalised names *)

Lemma keep_forall p s : Js.forallChars p (Js.keep p s) = true.
Proof.
  induction s as [|c s IH]; simpl; [reflexivity|].
  destruct (p c) eqn:Hc; simpl; [now rewrite Hc|assumption].
Qed.

Lemma keep_length p s : String.length (Js.keep p s) <= String.length s.
Proof. induction s as [|c s IH]; simpl; [lia|]. destruct (p c); simpl; lia. Qed.

Lemma forallChars_append p a b :
  Js.forallChars p (a +:+ b) = Js.forallChars p a && Js.forallChars p b.
Proof.
  induction a as [|c a IH]; [reflexivity|].
  rewrite append_cons. simpl. now rewrite IH, andb_assoc.
Qed.

Lemma dropLast_forall p k s :
  Js.forallChars p s = true -> Js.forallChars p (Js.dropLast k s) = true.
Proof. apply substring_prefix_forall. Qed.

Lemma dropLast_length k s : String.length (Js.dropLast k s) = String.length s - k.
Proof. unfold Js.dropLast. apply substring_prefix_length. lia. Qed.

Lemma append_length a b : String.length (a +:+ b) = String.length a + String.length b.
Proof. induction a as [|c a IH]; [reflexivity|]. rewrite append_cons. simpl. now rewrite IH. Qed.

Lemma endsWith_length s suffix :
  Js.endsWith s suffix = true -> String.length suffix <= String.length s.
Proof.
  intros H. apply endsWith_spec in H. destruct H as [pre ->]. rewrite append_length. lia.
Qed.

Lemma lower_upper c : Js.lowerChar (Js.upperChar c) = Js.lowerChar c.
Proof. each_ascii c; reflexivity. Qed.

Lemma lower_lower c : Js.lowerChar (Js.lowerChar c) = Js.lowerChar c.
Proof. each_ascii c; reflexivity. Qed.

Lemma toLowerCase_toUpperCase s : Js.toLowerCase (Js.toUpperCase s) = Js.toLowerCase s.
Proof. induction s as [|c s IH]; simpl; [reflexivity|]. now rewrite lower_upper, IH. Qed.

Lemma toLowerCase_idem s : Js.toLowerCase (Js.toLowerCase s) = Js.toLowerCase s.
Proof. induction s as [|c s IH]; simpl; [reflexivity|]. now rewrite lower_lower, IH. Qed.

(** X12: a normalised name holds lower-case letters and digits only and
    is no longer than the name; [normalize] does not see the letter case of
    the name, nor any character that is not a letter or a digit; the copy
    in badgeHeuristics.ts computes the same. *)
Theorem normalize_shape (s : string) :
  Js.forallChars SqliteMeta.isLowerAlnum (SqliteMeta.normalize s) = true
  /\ String.length (SqliteMeta.normalize s) <= String.length s
  /\ SqliteMeta.normalize (Js.toUpperCase s) = SqliteMeta.normalize s
  /\ SqliteMeta.normalize (Js.toLowerCase s) = SqliteMeta.normalize s
  /\ SqliteMeta.normalize (Js.keep SqliteMeta.isLowerAlnum (Js.toLowerCase s))
     = SqliteMeta.normalize s
  /\ BadgeHeuristics.normalize s = SqliteMeta.normalize s.
Proof.
  split; [|split; [|split; [|split; [|split]]]].
  - unfold SqliteMeta.normalize.
    set (t := Js.keep SqliteMeta.isLowerAlnum (Js.toLowerCase s)).
    assert (Ht : Js.forallChars SqliteMeta.isLowerAlnum t = true) by apply keep_forall.
    set (t1 := if Js.endsWith t "ies" then _ else t).
    assert (Ht1 : Js.forallChars SqliteMeta.isLowerAlnum t1 = true).
    { unfold t1. destruct (Js.endsWith t "ies"); [|assumption].
      rewrite forallChars_append, dropLast_forall by assumption. reflexivity. }
    set (t2 := if existsb _ _ then _ else t1).
    assert (Ht2 : Js.forallChars SqliteMeta.isLowerAlnum t2 = true).
    { unfold t2. destruct (existsb _ _); [|assumption]. now apply dropLast_forall. }
    destruct (Js.endsWith t2 "s"); [|assumption]. now apply dropLast_forall.
  - unfold SqliteMeta.normalize.
    set (t := Js.keep SqliteMeta.isLowerAlnum (Js.toLowerCase s)).
    assert (Ht : String.length t <= String.length s).
    { unfold t. etransitivity; [apply keep_length|]. now rewrite toLowerCase_length. }
    set (t1 := if Js.endsWith t "ies" then _ else t).
    assert (Ht1 : String.length t1 <= String.length t).
    { unfold t1. destruct (Js.endsWith t "ies") eqn:He; [|lia].
      apply endsWith_length in He. simpl in He.
      rewrite append_length, dropLast_length. simpl. lia. }
    set (t2 := if existsb _ _ then _ else t1).
    assert (Ht2 : String.length t2 <= String.length t1).
    { unfold t2. destruct (existsb _ _); [|lia]. rewrite dropLast_length. lia. }
    destruct (Js.endsWith t2 "s"); [|lia]. rewrite dropLast_length. lia.
  - unfold SqliteMeta.normalize. now rewrite toLowerCase_toUpperCase.
  - unfold SqliteMeta.normalize. now rewrite toLowerCase_idem.
  - unfold SqliteMeta.normalize.
    assert (E : Js.keep SqliteMeta.isLowerAlnum
                  (Js.toLowerCase (Js.keep SqliteMeta.isLowerAlnum (Js.toLowerCase s)))
                = Js.keep SqliteMeta.isLowerAlnum (Js.toLowerCase s)).
    { induction s as [|c s IH]; [reflexivity|]. simpl.
      destruct (SqliteMeta.isLowerAlnum (Js.lowerChar c)) eqn:Hc; [|assumption].
      simpl. rewrite lower_lower, Hc, IH. reflexivity. }
    now rewrite E.
  - reflexivity.
Qed.

(** ** The references of [inferForeignKeys] *)

Section PickBest.

Variable o : SqliteMeta.InferOptions.
Variables self base : string.

Let step (best : option (string * Q)) (cand : string * string) : option (string * Q) :=
  if negb (SqliteMeta.allowSelfReference o) && String.eqb (fst cand) self then best
  else
    let score := SqliteMeta.diceSim base (snd cand) in
    if atLeast score (SqliteMeta.nameHintMinSim o)
       && match best with
          | None => true
          | Some b => negb (Qle_bool score (snd b))
          end
    then Some (fst cand, score) else best.

Let allowed (cand : string * string) : bool := Spec.allowedTarget o self (fst cand).
Let score (cand : string * string) : Q := SqliteMeta.diceSim base (snd cand).

(** What the loop has found after the candidates [l]. *)
Let found (l : list (string * string)) (best : option (string * Q)) : Prop :=
  match best with
  | None =>
      Forall (fun cand => allowed cand = true ->
                          atLeast (score cand) (SqliteMeta.nameHintMinSim o) = false) l
  | Some (t, sc) =>
      exists pre n post,
        l = pre ++ (t, n) :: post
        /\ allowed (t, n) = true /\ sc = score (t, n)
        /\ atLeast sc (SqliteMeta.nameHintMinSim o) = true
        /\ Forall (fun cand => allowed cand = true -> (score cand < sc)%Q) pre
        /\ Forall (fun cand => allowed cand = true -> (score cand <= sc)%Q) post
  end.

Lemma allowed_skip cand :
  negb (SqliteMeta.allowSelfReference o) && String.eqb (fst cand) self = negb (allowed cand).
Proof.
  unfold allowed, Spec.allowedTarget.
  destruct (SqliteMeta.allowSelfReference o), (String.eqb (fst cand) self); reflexivity.
Qed.

Lemma below_threshold x y :
  atLeast x (SqliteMeta.nameHintMinSim o) = false ->
  atLeast y (SqliteMeta.nameHintMinSim o) = true -> (x < y)%Q.
Proof.
  unfold atLeast. intros Hx Hy. apply Qle_bool_iff in Hy.
  apply Qnot_le_lt. intros Hle. apply not_true_iff_false in Hx. apply Hx.
  apply Qle_bool_iff. now apply (Qle_trans _ y).
Qed.

Lemma found_step l best cand : found l best -> found (l ++ [cand]) (step best cand).
Proof.
  unfold step. rewrite allowed_skip.
  destruct (allowed cand) eqn:Ha; simpl.
  - fold (score cand).
    destruct (atLeast (score cand) (SqliteMeta.nameHintMinSim o)) eqn:Ht; simpl.
    + destruct best as [[t sc]|]; simpl.
      * intros (pre & n & post & -> & Hal & Hsc & Hthr & Hpre & Hpost).
        destruct (Qle_bool (score cand) sc) eqn:Hle; simpl.
        -- exists pre, n, (post ++ [cand]). rewrite <- app_assoc. simpl.
           repeat split; try assumption.
           apply Forall_app. split; [assumption|]. constructor; [|constructor].
           intros _. now apply Qle_bool_iff.
        -- assert (Hlt : (sc < score cand)%Q).
           { apply Qnot_le_lt. intros H. apply Qle_bool_iff in H. congruence. }
           exists (pre ++ (t, n) :: post), (snd cand), [].
           destruct cand as [ct cn]. simpl.
           repeat split; try assumption; [|constructor].
           apply Forall_app. split; [|constructor].
           ++ eapply Forall_impl; [exact Hpre|]. simpl. intros x Hx Hax.
              apply (Qlt_trans _ sc); auto.
           ++ intros _. now rewrite <- Hsc.
           ++ eapply Forall_impl; [exact Hpost|]. simpl. intros x Hx Hax.
              apply (Qle_lt_trans _ sc); auto.
      * intros Hall. exists l, (snd cand), []. destruct cand as [ct cn]. simpl.
        repeat split; try assumption; [|constructor].
        eapply Forall_impl; [exact Hall|]. simpl. intros x Hx Hax.
        apply below_threshold; auto.
    + destruct best as [[t sc]|]; simpl.
      * intros (pre & n & post & -> & Hal & Hsc & Hthr & Hpre & Hpost).
        exists pre, n, (post ++ [cand]). rewrite <- app_assoc. simpl.
        repeat split; try assumption.
        apply Forall_app. split; [assumption|]. constructor; [|constructor].
        intros _. apply Qlt_le_weak. now apply below_threshold.
      * intros Hall. apply Forall_app. split; [assumption|].
        constructor; [|constructor]. auto.
  - destruct best as [[t sc]|]; simpl.
    + intros (pre & n & post & -> & Hal & Hsc & Hthr & Hpre & Hpost).
      exists pre, n, (post ++ [cand]). rewrite <- app_assoc. simpl.
      repeat split; try assumption.
      apply Forall_app. split; [assumption|]. constructor; [|constructor]. congruence.
    + intros Hall. apply Forall_app. split; [assumption|].
      constructor; [|constructor]. congruence.
Qed.

Lemma pickBest_found l : found l (SqliteMeta.pickBest o self base l).
Proof.
  unfold SqliteMeta.pickBest. fold step.
  induction l as [|cand l IH] using rev_ind.
  - simpl. constructor.
  - rewrite fold_left_app. simpl. now apply found_step.
Qed.

End PickBest.

Lemma setAdd_elem acc x y : y ∈ Js.setAdd acc x <-> y ∈ acc \/ y = x.
Proof.
  unfold Js.setAdd. destruct (existsb (String.eqb x) acc) eqn:He.
  - split; [auto|]. intros [H| ->]; [assumption|].
    apply existsb_exists in He. destruct He as (z & Hz & Heq).
    apply String.eqb_eq in Heq. subst. now apply list_elem_of_In.
  - rewrite elem_of_app, list_elem_of_singleton. reflexivity.
Qed.

Lemma setOf_elem l y : y ∈ Js.setOf l <-> y ∈ l.
Proof.
  unfold Js.setOf.
  assert (H : forall acc, y ∈ fold_left Js.setAdd l acc <-> y ∈ acc \/ y ∈ l).
  { induction l as [|x l IH]; intros acc; simpl.
    - rewrite elem_of_nil. tauto.
    - rewrite IH, setAdd_elem, elem_of_cons. tauto. }
  rewrite H, elem_of_nil. tauto.
Qed.

Lemma keyColumns_elem t x :
  x ∈ SqliteMeta.keyColumns t
  <-> exists c, c ∈ SqliteMeta.columns t /\ SqliteMeta.name c = x /\ Spec.isKeyColumn c = true.
Proof.
  unfold SqliteMeta.keyColumns. rewrite setOf_elem, list_elem_of_In, in_map_iff. split.
  - intros (c & Hn & Hc). apply filter_In in Hc. destruct Hc as [Hc Hk].
    exists c. rewrite list_elem_of_In. auto.
  - intros (c & Hc & Hn & Hk). exists c. split; [assumption|].
    apply filter_In. rewrite <- list_elem_of_In. auto.
Qed.

Lemma uniqueMap_lookup metas n l :
  SqliteMeta.uniqueMap metas !! n = Some l ->
  exists t, t ∈ metas /\ SqliteMeta.tname t = n /\ l = SqliteMeta.keyColumns t.
Proof.
  unfold SqliteMeta.uniqueMap.
  assert (H : forall m : gmap string (list string),
             fold_left (fun m t => <[SqliteMeta.tname t := SqliteMeta.keyColumns t]> m) metas m !! n
             = Some l ->
             m !! n = Some l
             \/ exists t, t ∈ metas /\ SqliteMeta.tname t = n /\ l = SqliteMeta.keyColumns t).
  { induction metas as [|t metas IH]; intros m; simpl; [auto|].
    intros H. apply IH in H. destruct H as [H|(t' & Ht' & Hn & Hl)].
    - destruct (decide (SqliteMeta.tname t = n)) as [Heq|Hne].
      + subst n. rewrite lookup_insert_eq in H. injection H as <-.
        right. exists t. split; [constructor|auto].
      + rewrite lookup_insert_ne in H by assumption. auto.
    - right. exists t'. split; [now constructor|auto]. }
  intros Hl. apply H in Hl. destruct Hl as [Hl|Hl]; [|assumption].
  rewrite lookup_empty in Hl. discriminate.
Qed.

(** What [inferForeignKeys] pushes for one column. *)
Lemma columnFk_some o metas t c fk :
  SqliteMeta.columnFk o metas t c = Some fk ->
  SqliteMeta.fromTable fk = SqliteMeta.tname t
  /\ SqliteMeta.fromColumn fk = SqliteMeta.name c
  /\ (exists m1 pre tt post,
        SqliteMeta.matchSnakeId (Js.toLowerCase (SqliteMeta.name c)) = Some m1
        /\ metas = pre ++ tt :: post
        /\ SqliteMeta.tname tt = SqliteMeta.toTable fk
        /\ Spec.allowedTarget o (SqliteMeta.tname t) (SqliteMeta.toTable fk) = true
        /\ atLeast (Spec.nameScore (SqliteMeta.normalize m1) (SqliteMeta.toTable fk))
                   (SqliteMeta.nameHintMinSim o) = true
        /\ Forall (fun t' =>
                     Spec.allowedTarget o (SqliteMeta.tname t) (SqliteMeta.tname t') = true ->
                     (Spec.nameScore (SqliteMeta.normalize m1) (SqliteMeta.tname t')
                      < Spec.nameScore (SqliteMeta.normalize m1) (SqliteMeta.toTable fk))%Q) pre
        /\ Forall (fun t' =>
                     Spec.allowedTarget o (SqliteMeta.tname t) (SqliteMeta.tname t') = true ->
                     (Spec.nameScore (SqliteMeta.normalize m1) (SqliteMeta.tname t')
                      <= Spec.nameScore (SqliteMeta.normalize m1) (SqliteMeta.toTable fk))%Q) post)
  /\ (exists uniqs,
        SqliteMeta.uniqueMap metas !! SqliteMeta.toTable fk = Some uniqs
        /\ SqliteMeta.toColumn fk ∈ uniqs
        /\ ("id" ∈ uniqs -> SqliteMeta.toColumn fk = "id")
        /\ ("id" ∉ uniqs -> head uniqs = Some (SqliteMeta.toColumn fk))).
Proof.
  unfold SqliteMeta.columnFk. destruct (_ && _); [discriminate|].
  destruct (SqliteMeta.matchSnakeId _) as [m1|] eqn:Hm; [|discriminate].
  pose proof (pickBest_found o (SqliteMeta.tname t) (SqliteMeta.normalize m1)
                (map (fun t => (SqliteMeta.tname t, SqliteMeta.normalize (SqliteMeta.tname t))) metas))
    as Hbest.
  destruct (SqliteMeta.pickBest _ _ _ _) as [[best score]|]; [|discriminate].
  destruct Hbest as (pre & n & post & Hl & Hal & Hsc & Hthr & Hpre & Hpost).
  apply map_eq_app in Hl. destruct Hl as (mpre & mrest & -> & Hmpre & Hmrest).
  destruct mrest as [|tt mpost]; [discriminate|].
  change (map (fun t => (SqliteMeta.tname t, SqliteMeta.normalize (SqliteMeta.tname t)))
              (tt :: mpost))
    with ((SqliteMeta.tname tt, SqliteMeta.normalize (SqliteMeta.tname tt))
          :: map (fun t => (SqliteMeta.tname t, SqliteMeta.normalize (SqliteMeta.tname t))) mpost)
    in Hmrest.
  injection Hmrest as Ht Hn Hmpost. subst best n pre post. cbn [fst snd] in *.
  rewrite Forall_map in Hpre. rewrite Forall_map in Hpost.
  destruct (SqliteMeta.uniqueMap (mpre ++ tt :: mpost) !! SqliteMeta.tname tt)
    as [[|first uniqs]|] eqn:Hu; try discriminate.
  pose proof (setHas_elem_of (first :: uniqs) "id") as Hset.
  assert (Hfrom :
    exists m2 pre tt' post,
      Some m1 = Some m2 /\ mpre ++ tt :: mpost = pre ++ tt' :: post
      /\ SqliteMeta.tname tt' = SqliteMeta.tname tt
      /\ Spec.allowedTarget o (SqliteMeta.tname t) (SqliteMeta.tname tt) = true
      /\ atLeast (Spec.nameScore (SqliteMeta.normalize m2) (SqliteMeta.tname tt))
                 (SqliteMeta.nameHintMinSim o) = true
      /\ Forall (fun t' =>
                   Spec.allowedTarget o (SqliteMeta.tname t) (SqliteMeta.tname t') = true ->
                   (Spec.nameScore (SqliteMeta.normalize m2) (SqliteMeta.tname t')
                    < Spec.nameScore (SqliteMeta.normalize m2) (SqliteMeta.tname tt))%Q) pre
      /\ Forall (fun t' =>
                   Spec.allowedTarget o (SqliteMeta.tname t) (SqliteMeta.tname t') = true ->
                   (Spec.nameScore (SqliteMeta.normalize m2) (SqliteMeta.tname t')
                    <= Spec.nameScore (SqliteMeta.normalize m2) (SqliteMeta.tname tt))%Q) post).
  { exists m1, mpre, tt, mpost. unfold Spec.nameScore. rewrite <- Hsc. repeat split; assumption. }
  destruct (Js.setHas (first :: uniqs) "id") eqn:Hid; intros [= <-];
    cbn [SqliteMeta.fromTable SqliteMeta.fromColumn SqliteMeta.toTable SqliteMeta.toColumn];
    (split; [reflexivity|]); (split; [reflexivity|]); (split; [exact Hfrom|]);
    exists (first :: uniqs); (split; [exact Hu|]); (split; [|split]).
  - now apply Hset.
  - reflexivity.
  - intros Hn. exfalso. now apply Hn, Hset.
  - constructor.
  - intros Hin. apply Hset in Hin. discriminate.
  - reflexivity.
Qed.

Lemma foreignKeys_elem o metas fk :
  fk ∈ SqliteMeta.foreignKeys o metas ->
  exists t c, t ∈ metas /\ c ∈ SqliteMeta.columns t /\ SqliteMeta.columnFk o metas t c = Some fk.
Proof.
  unfold SqliteMeta.foreignKeys. rewrite list_elem_of_In, in_flat_map.
  intros (t & Ht & H). rewrite <- list_elem_of_In, list_elem_of_omap in H.
  destruct H as (c & Hc & H). exists t, c. rewrite list_elem_of_In. auto.
Qed.

(** X13: [inferForeignKeys] sends no statement and always returns.  Every
    reference it returns starts at a column of one of the tables and, unless
    self references are allowed, ends at another table; it ends at a table
    of the list, on a column of that table that is a primary key, is named
    [id] or is unique and not null, and on [id] whenever that table has
    such a column named [id]. *)
Theorem inferForeignKeys_references (metas : list SqliteMeta.TableMeta)
        (opts : option SqliteMeta.PartialOptions) :
  exists fks,
    Store.outcome (SqliteMeta.inferForeignKeys metas opts) = Store.Ok fks
    /\ Store.sent (SqliteMeta.inferForeignKeys metas opts) = []
    /\ Forall (fun fk =>
         (exists t c,
             t ∈ metas /\ c ∈ SqliteMeta.columns t
             /\ SqliteMeta.fromTable fk = SqliteMeta.tname t
             /\ SqliteMeta.fromColumn fk = SqliteMeta.name c)
         /\ (SqliteMeta.allowSelfReference (SqliteMeta.withDefaults opts) = false ->
             SqliteMeta.toTable fk <> SqliteMeta.fromTable fk)
         /\ (exists t c,
               t ∈ metas /\ SqliteMeta.tname t = SqliteMeta.toTable fk
               /\ c ∈ SqliteMeta.columns t /\ SqliteMeta.name c = SqliteMeta.toColumn fk
               /\ Spec.isKeyColumn c = true
               /\ ((exists c', c' ∈ SqliteMeta.columns t /\ SqliteMeta.name c' = "id"
                               /\ Spec.isKeyColumn c' = true) ->
                   SqliteMeta.toColumn fk = "id"))) fks.
Proof.
  exists (SqliteMeta.foreignKeys (SqliteMeta.withDefaults opts) metas).
  split; [reflexivity|]. split; [reflexivity|].
  rewrite Forall_forall. intros fk Hfk.
  apply foreignKeys_elem in Hfk. destruct Hfk as (t & c & Ht & Hc & Hfk).
  apply columnFk_some in Hfk.
  destruct Hfk as (Hft & Hfc & (m1 & pre & tt & post & _ & _ & _ & Hal & _) & uniqs & Hu & Hin & Hid & _).
  split; [exists t, c; auto|]. split.
  - intros Hself Heq. unfold Spec.allowedTarget in Hal. rewrite Hself, Heq, Hft in Hal.
    rewrite String.eqb_refl in Hal. discriminate.
  - apply uniqueMap_lookup in Hu. destruct Hu as (t' & Ht' & Hn & ->).
    apply keyColumns_elem in Hin. destruct Hin as (c' & Hc' & Hname & Hk).
    exists t', c'. repeat split; try assumption.
    intros Hex. apply Hid, keyColumns_elem. exact Hex.
Qed.

(** X14: the table a reference of [inferForeignKeys] ends at is, among
    the tables the loop does not skip, one whose normalised name scores
    highest against the normalised base of the column name (what precedes
    [_id]); the score reaches [nameHintMinSim], and a table listed earlier
    scores strictly less. *)
Theorem inferForeignKeys_best_match (metas : list SqliteMeta.TableMeta)
        (opts : option SqliteMeta.PartialOptions) :
  exists fks,
    Store.outcome (SqliteMeta.inferForeignKeys metas opts) = Store.Ok fks
    /\ Forall (fun fk =>
         let o := SqliteMeta.withDefaults opts in
         exists m1 pre tt post,
           SqliteMeta.matchSnakeId (Js.toLowerCase (SqliteMeta.fromColumn fk)) = Some m1
           /\ metas = pre ++ tt :: post
           /\ SqliteMeta.tname tt = SqliteMeta.toTable fk
           /\ (SqliteMeta.nameHintMinSim o
               <= Spec.nameScore (SqliteMeta.normalize m1) (SqliteMeta.toTable fk))%Q
           /\ Forall (fun t' =>
                Spec.allowedTarget o (SqliteMeta.fromTable fk) (SqliteMeta.tname t') = true ->
                (Spec.nameScore (SqliteMeta.normalize m1) (SqliteMeta.tname t')
                 < Spec.nameScore (SqliteMeta.normalize m1) (SqliteMeta.toTable fk))%Q) pre
           /\ Forall (fun t' =>
                Spec.allowedTarget o (SqliteMeta.fromTable fk) (SqliteMeta.tname t') = true ->
                (Spec.nameScore (SqliteMeta.normalize m1) (SqliteMeta.tname t')
                 <= Spec.nameScore (SqliteMeta.normalize m1) (SqliteMeta.toTable fk))%Q) post)
         fks.
Proof.
  exists (SqliteMeta.foreignKeys (SqliteMeta.withDefaults opts) metas).
  split; [reflexivity|].
  rewrite Forall_forall. intros fk Hfk.
  apply foreignKeys_elem in Hfk. destruct Hfk as (t & c & Ht & Hc & Hfk).
  apply columnFk_some in Hfk.
  destruct Hfk as (Hft & Hfc & (m1 & pre & tt & post & Hm & Hl & Hn & _ & Hthr & Hpre & Hpost) & _).
  simpl. exists m1, pre, tt, post. rewrite Hft, Hfc.
  repeat split; try assumption.
  unfold atLeast in Hthr. now apply Qle_bool_iff.
Qed.

(** ** The badges of the ER page *)

Lemma hasBadge_elem q metas t x :
  x ∈ BadgeHeuristics.badgeColumns q metas t
  <-> exists c, c ∈ SqliteMeta.columns t /\ SqliteMeta.name c = x
                /\ BadgeHeuristics.hasBadge q metas c = true.
Proof.
  unfold BadgeHeuristics.badgeColumns. rewrite setOf_elem, list_elem_of_In, in_map_iff. split.
  - intros (c & Hn & Hc). apply filter_In in Hc. destruct Hc as [Hc Hk].
    exists c. rewrite list_elem_of_In. auto.
  - intros (c & Hc & Hn & Hk). exists c. split; [assumption|].
    apply filter_In. rewrite <- list_elem_of_In. auto.
Qed.

Lemma badgeMap_lookup q metas ts n l :
  fold_left (fun m t => <[SqliteMeta.tname t := BadgeHeuristics.badgeColumns q metas t]> m)
            ts (∅ : gmap string (list string)) !! n = Some l ->
  exists t, t ∈ ts /\ SqliteMeta.tname t = n /\ l = BadgeHeuristics.badgeColumns q metas t.
Proof.
  assert (H : forall m : gmap string (list string),
             fold_left (fun m t => <[SqliteMeta.tname t := BadgeHeuristics.badgeColumns q metas t]> m)
                       ts m !! n = Some l ->
             m !! n = Some l
             \/ exists t, t ∈ ts /\ SqliteMeta.tname t = n
                          /\ l = BadgeHeuristics.badgeColumns q metas t).
  { induction ts as [|t ts IH]; intros m; simpl; [auto|].
    intros H. apply IH in H. destruct H as [H|(t' & Ht' & Hn & Hl)].
    - destruct (decide (SqliteMeta.tname t = n)) as [Heq|Hne].
      + subst n. rewrite lookup_insert_eq in H. injection H as <-.
        right. exists t. split; [constructor|auto].
      + rewrite lookup_insert_ne in H by assumption. auto.
    - right. exists t'. split; [now constructor|auto]. }
  intros Hl. apply H in Hl. destruct Hl as [Hl|Hl]; [|assumption].
  rewrite lookup_empty in Hl. discriminate.
Qed.

Lemma badgeMap_total q metas ts t :
  t ∈ ts ->
  is_Some (fold_left (fun m t => <[SqliteMeta.tname t := BadgeHeuristics.badgeColumns q metas t]> m)
                     ts (∅ : gmap string (list string)) !! SqliteMeta.tname t).
Proof.
  assert (H : forall m : gmap string (list string),
             t ∈ ts \/ is_Some (m !! SqliteMeta.tname t) ->
             is_Some (fold_left
                        (fun m t => <[SqliteMeta.tname t := BadgeHeuristics.badgeColumns q metas t]> m)
                        ts m !! SqliteMeta.tname t)).
  { induction ts as [|t' ts IH]; intros m; simpl.
    - intros [H|H]; [inversion H|assumption].
    - intros [H|H]; apply IH.
      + apply elem_of_cons in H. destruct H as [->|H]; [|auto].
        right. rewrite lookup_insert_eq. eauto.
      + right. destruct (decide (SqliteMeta.tname t' = SqliteMeta.tname t)) as [Heq|Hne].
        * rewrite Heq, lookup_insert_eq. eauto.
        * rewrite lookup_insert_ne by assumption. assumption. }
  intros Ht. apply H. auto.
Qed.

(** X15: [buildNameBasedBadgeByTable] has one entry per table of the list
    and no other; a column has the badge only if its lower-cased name ends
    with [_id] after at least one character.  With the same threshold,
    every column [inferForeignKeys] takes as a reference has the badge in
    its table, unless the normalised base of its name is [id]. *)
Theorem badge_covers_references (metas : list SqliteMeta.TableMeta) (q : option Q)
        (excludeBareId allowSelfReference : option bool) :
  let thr := default (8 # 10) q in
  let badges := BadgeHeuristics.buildNameBasedBadgeByTable metas (Some q) in
  let o := SqliteMeta.withDefaults
             (Some {| SqliteMeta.p_nameHintMinSim := q;
                      SqliteMeta.p_excludeBareId := excludeBareId;
                      SqliteMeta.p_allowSelfReference := allowSelfReference |}) in
  (forall n l, badges !! n = Some l ->
     exists t, t ∈ metas /\ SqliteMeta.tname t = n
               /\ l = BadgeHeuristics.badgeColumns thr metas t)
  /\ (forall t, t ∈ metas -> is_Some (badges !! SqliteMeta.tname t))
  /\ (forall t x, x ∈ BadgeHeuristics.badgeColumns thr metas t ->
        x ∈ map SqliteMeta.name (SqliteMeta.columns t)
        /\ Js.endsWith (Js.toLowerCase x) "_id" = true /\ Js.toLowerCase x <> "_id")
  /\ Forall (fun fk =>
       exists t m1,
         t ∈ metas /\ SqliteMeta.tname t = SqliteMeta.fromTable fk
         /\ SqliteMeta.matchSnakeId (Js.toLowerCase (SqliteMeta.fromColumn fk)) = Some m1
         /\ (SqliteMeta.normalize m1 <> "id" ->
             SqliteMeta.fromColumn fk ∈ BadgeHeuristics.badgeColumns thr metas t))
       (SqliteMeta.foreignKeys o metas).
Proof.
  intros thr badges o.
  assert (Hthr : SqliteMeta.nameHintMinSim o = thr) by (destruct q; reflexivity).
  assert (Hb : badges
               = fold_left (fun m t => <[SqliteMeta.tname t
                                         := BadgeHeuristics.badgeColumns thr metas t]> m)
                           metas ∅) by (destruct q; reflexivity).
  split; [|split; [|split]].
  - intros n l. rewrite Hb. apply badgeMap_lookup.
  - intros t. rewrite Hb. apply badgeMap_total.
  - intros t x Hx. apply hasBadge_elem in Hx. destruct Hx as (c & Hc & <- & Hk).
    split; [apply list_elem_of_In, in_map, list_elem_of_In, Hc|].
    unfold BadgeHeuristics.hasBadge in Hk.
    destruct (SqliteMeta.matchSnakeId _) as [m1|] eqn:Hm; [|discriminate].
    apply matchSnakeId_name in Hm. tauto.
  - rewrite Forall_forall. intros fk Hfk.
    apply foreignKeys_elem in Hfk. destruct Hfk as (t & c & Ht & Hc & Hfk).
    apply columnFk_some in Hfk.
    destruct Hfk as (Hft & Hfc & (m1 & pre & tt & post & Hm & Hl & Hn & _ & Hs & _) & _).
    exists t, m1. rewrite Hft, Hfc. repeat split; try assumption.
    intros Hbase. apply hasBadge_elem. exists c. repeat split; try assumption.
    unfold BadgeHeuristics.hasBadge. rewrite Hm.
    change (BadgeHeuristics.normalize m1) with (SqliteMeta.normalize m1).
    destruct (String.eqb_spec (SqliteMeta.normalize m1) "id") as [Heq|_]; [contradiction|].
    apply existsb_exists. exists tt. split; [rewrite Hl; apply in_elt|].
    rewrite <- Hn, Hthr in Hs. exact Hs.
Qed.

(** ** The metadata of [getTablesMeta] *)

Lemma rethrow_outcome_ok {A} wrap (m : Store.M A) a :
  Store.outcome (Store.rethrow wrap m) = Store.Ok a -> Store.outcome m = Store.Ok a.
Proof. destruct m as [log [x|e]]; simpl; [auto|discriminate]. Qed.

(** A computation that is faithful to the store returns when every
    statement it sent was answered. *)
Lemma faithful_returns R st {A} (m : Store.M A) :
  Store.faithful R st m -> Spec.answered st m -> exists a, Store.outcome m = Store.Ok a.
Proof.
  unfold Store.faithful, Spec.answered. intros Hm Hall.
  destruct (Store.outcome m) as [a|e]; [eauto|].
  destruct Hm as (log & q & err & Hs & _ & Hq & _).
  rewrite Hall in Hq; [discriminate|]. rewrite Hs. set_solver.
Qed.

Lemma uniqueIndexColumns_ok st idxList : forall uniques res,
  Store.outcome (SqliteMeta.uniqueIndexColumns st idxList uniques) = Store.Ok res ->
  forall x, x ∈ res
            <-> x ∈ uniques
                \/ exists idx c,
                     idx ∈ idxList /\ Store.il_unique idx = 1%Z
                     /\ Store.indexInfo st (Store.il_name idx) = Store.Ok [c]
                     /\ Store.ii_name c = x /\ x <> "".
Proof.
  induction idxList as [|idx rest IH]; intros uniques res H x.
  - apply ret_outcome in H. subst res. split; [auto|].
    intros [Hx|(idx & c & Hin & _)]; [assumption|inversion Hin].
  - simpl in H.
    assert (Hskip : forall u,
               Store.outcome (SqliteMeta.uniqueIndexColumns st rest u) = Store.Ok res ->
               (forall y, y ∈ u <-> y ∈ uniques
                  \/ exists c, Store.il_unique idx = 1%Z
                       /\ Store.indexInfo st (Store.il_name idx) = Store.Ok [c]
                       /\ Store.ii_name c = y /\ y <> "") ->
               x ∈ res
               <-> x ∈ uniques
                   \/ exists idx' c,
                        idx' ∈ idx :: rest /\ Store.il_unique idx' = 1%Z
                        /\ Store.indexInfo st (Store.il_name idx') = Store.Ok [c]
                        /\ Store.ii_name c = x /\ x <> "").
    { intros u Hu Hiff. rewrite (IH u res Hu x), Hiff. split.
      - intros [[Hx|(c & H1 & H2 & H3 & H4)]|(idx' & c & Hin & Hr)].
        + auto.
        + right. exists idx, c. split; [constructor|auto].
        + right. exists idx', c. split; [now constructor|auto].
      - intros [Hx|(idx' & c & Hin & H1 & H2 & H3 & H4)]; [auto|].
        apply elem_of_cons in Hin. destruct Hin as [->|Hin].
        + left. right. exists c. auto.
        + right. exists idx', c. auto. }
    destruct (Z.eqb_spec (Store.il_unique idx) 1) as [Hu|Hu]; simpl in H.
    + bound H cols Hcols. change (Store.indexInfo st (Store.il_name idx) = Store.Ok cols) in Hcols.
      destruct cols as [|c [|c' cols]].
      * apply (Hskip uniques H). intros y. split; [auto|].
        intros [Hy|(c & _ & Hc & _)]; [assumption|congruence].
      * destruct (Js.isEmpty (Store.ii_name c)) eqn:He.
        -- apply (Hskip uniques H). intros y. split; [auto|].
           intros [Hy|(c0 & _ & Hc & Hn & Hne)]; [assumption|].
           rewrite Hcols in Hc. injection Hc as <-. subst y.
           destruct (Store.ii_name c); [congruence|discriminate].
        -- apply (Hskip _ H). intros y. rewrite setAdd_elem. split.
           ++ intros [Hy| ->]; [auto|]. right. exists c. repeat split; auto.
              intros Hn. rewrite Hn in He. discriminate.
           ++ intros [Hy|(c0 & _ & Hc & Hn & Hne)]; [auto|].
              rewrite Hcols in Hc. injection Hc as <-. auto.
      * apply (Hskip uniques H). intros y. split; [auto|].
        intros [Hy|(c0 & _ & Hc & _)]; [assumption|congruence].
    + apply (Hskip uniques H). intros y. split; [auto|].
      intros [Hy|(c & Hc & _)]; [assumption|congruence].
Qed.

Lemma addKeys_elem ti : forall uniques x,
  x ∈ fold_left (fun acc c => if Z.eqb (Store.ti_pk c) 1 then Js.setAdd acc (Store.ti_name c)
                              else acc) ti uniques
  <-> x ∈ uniques \/ Spec.firstKeyColumn ti x.
Proof.
  unfold Spec.firstKeyColumn.
  induction ti as [|r ti IH]; intros uniques x; simpl.
  - split; [auto|]. intros [H|(r & Hr & _)]; [assumption|inversion Hr].
  - rewrite IH. destruct (Z.eqb_spec (Store.ti_pk r) 1) as [Hpk|Hpk].
    + rewrite setAdd_elem. split.
      * intros [[H| ->]|(r' & Hr' & H1 & H2)]; [auto| |].
        -- right. exists r. split; [constructor|auto].
        -- right. exists r'. split; [now constructor|auto].
      * intros [H|(r' & Hr' & H1 & H2)]; [auto|].
        apply elem_of_cons in Hr'. destruct Hr' as [->|Hr']; [auto|].
        right. exists r'. auto.
    + split.
      * intros [H|(r' & Hr' & H1 & H2)]; [auto|].
        right. exists r'. split; [now constructor|auto].
      * intros [H|(r' & Hr' & H1 & H2)]; [auto|].
        apply elem_of_cons in Hr'. destruct Hr' as [->|Hr']; [contradiction|].
        right. exists r'. auto.
Qed.

Lemma getUniqueColumns_ok st table res :
  Store.outcome (SqliteMeta.getUniqueColumns st table) = Store.Ok res ->
  exists ti,
    Store.tableInfo st table = Store.Ok ti
    /\ forall x, x ∈ res <-> Spec.uniqueByIndex st table x \/ Spec.firstKeyColumn ti x.
Proof.
  unfold SqliteMeta.getUniqueColumns. intros H. apply rethrow_outcome_ok in H.
  bound H idxList Hidx. change (Store.indexList st table = Store.Ok idxList) in Hidx.
  bound H uniques Hu.
  bound H ti Hti. change (Store.tableInfo st table = Store.Ok ti) in Hti.
  apply ret_outcome in H. subst res. exists ti. split; [assumption|].
  intros x. rewrite addKeys_elem, (uniqueIndexColumns_ok _ _ _ _ Hu x).
  unfold Spec.uniqueByIndex. split.
  - intros [[Hx|(idx & c & Hr)]|Hk]; [inversion Hx| |auto].
    left. exists idxList, idx, c. auto.
  - intros [(l & idx & c & Hl & Hr)|Hk]; [|auto].
    rewrite Hidx in Hl. injection Hl as <-. left. right. exists idx, c. exact Hr.
Qed.

Lemma tablesMeta_ok st names : forall metas,
  Store.outcome (SqliteMeta.tablesMeta st names) = Store.Ok metas ->
  map SqliteMeta.tname metas = names
  /\ Forall (fun t =>
       exists ti uniques,
         Store.tableInfo st (SqliteMeta.tname t) = Store.Ok ti
         /\ Store.outcome (SqliteMeta.getUniqueColumns st (SqliteMeta.tname t)) = Store.Ok uniques
         /\ SqliteMeta.columns t = map (SqliteMeta.columnMeta uniques) ti) metas.
Proof.
  induction names as [|n names IH]; simpl; intros metas H.
  - apply ret_outcome in H. subst metas. split; [reflexivity|constructor].
  - bound H ti Hti. change (Store.tableInfo st n = Store.Ok ti) in Hti.
    bound H uniques Hu.
    bound H out Hout.
    apply ret_outcome in H. subst metas.
    destruct (IH _ Hout) as [Hn Hall]. simpl. split; [now rewrite Hn|].
    constructor; [|assumption]. exists ti, uniques. auto.
Qed.

(** X16: when every statement it sends is answered, [getTablesMeta]
    returns one entry per table of [listTables], in that order.  The
    columns of an entry mirror the rows of [table_info]: same name, the
    declared type or TEXT when none is declared, [isPk] for [pk = 1]; a
    column is [uniqueNoNull] exactly when it is declared NOT NULL and is
    either the only column of a unique index or named by a row with
    [pk = 1]. *)
Theorem getTablesMeta_shape (st : Store.t) :
  Spec.answered st (SqliteMeta.getTablesMeta st) ->
  exists metas names,
    Store.outcome (SqliteMeta.getTablesMeta st) = Store.Ok metas
    /\ Store.listTables st = Store.Ok names
    /\ map SqliteMeta.tname metas = names
    /\ Forall (fun t =>
         exists ti,
           Store.tableInfo st (SqliteMeta.tname t) = Store.Ok ti
           /\ Forall2 (fun c r =>
                SqliteMeta.name c = Store.ti_name r
                /\ SqliteMeta.dataType c
                   = (if Js.isEmpty (Store.ti_type r) then "TEXT" else Store.ti_type r)
                /\ SqliteMeta.dataType c <> ""
                /\ SqliteMeta.isPk c = Z.eqb (Store.ti_pk r) 1
                /\ (SqliteMeta.uniqueNoNull c = true
                    <-> Store.ti_notnull r = 1%Z
                        /\ (Spec.uniqueByIndex st (SqliteMeta.tname t) (Store.ti_name r)
                            \/ Spec.firstKeyColumn ti (Store.ti_name r))))
                (SqliteMeta.columns t) ti) metas.
Proof.
  intros Hall.
  destruct (faithful_returns _ st _ (getTablesMeta_faithful st) Hall) as [metas Hm].
  pose proof Hm as H. unfold SqliteMeta.getTablesMeta in H. apply rethrow_outcome_ok in H.
  bound H names Hnames. change (Store.listTables st = Store.Ok names) in Hnames.
  apply tablesMeta_ok in H. destruct H as [Hn Hcols].
  exists metas, names. repeat split; try assumption.
  eapply Forall_impl; [exact Hcols|]. simpl. intros t (ti & uniques & Hti & Hu & Hc).
  exists ti. split; [assumption|]. rewrite Hc.
  apply getUniqueColumns_ok in Hu. destruct Hu as (ti' & Hti' & Hiff).
  rewrite Hti in Hti'. injection Hti' as <-.
  apply Forall2_fmap_l, Forall_Forall2_diag, Forall_forall. intros r _.
  unfold SqliteMeta.columnMeta. simpl.
  split; [reflexivity|]. split; [reflexivity|]. split; [|split; [reflexivity|split]].
  - destruct (Store.ti_type r) eqn:Ht; simpl; congruence.
  - intros Hun. apply andb_prop in Hun. destruct Hun as [Hin Hnn].
    split; [now apply Z.eqb_eq|]. apply setHas_elem_of, Hiff in Hin. exact Hin.
  - intros [Hnn Hin]. apply andb_true_intro. split.
    + apply setHas_elem_of, Hiff, Hin.
    + now apply Z.eqb_eq.
Qed.

Lemma getTablesMeta_shape_witness :
  exists metas,
    Store.outcome (SqliteMeta.getTablesMeta (Sql.store Examples.shop)) = Store.Ok metas
    /\ map SqliteMeta.tname metas = ["orders"; "user"; "users"].
Proof.
  destruct (getTablesMeta_shape (Sql.store Examples.shop)) as (metas & names & Hm & Hl & Hn & _).
  - intros q Hq. vm_compute in Hq.
    repeat (apply elem_of_cons in Hq; destruct Hq as [->|Hq]; [reflexivity|]).
    inversion Hq.
  - exists metas. split; [assumption|].
    rewrite Hn. vm_compute in Hl. now injection Hl as <-.
Defined.

(** ** The ranking of the edges *)

Lemma sortsBefore_false a b : Analytics.sortsBefore a b = false <-> Spec.ranksBefore b a.
Proof.
  unfold Analytics.sortsBefore, Spec.ranksBefore.
  destruct (Analytics.coverage b ?= Analytics.coverage a)%Q eqn:Hc.
  - apply Qeq_alt in Hc. rewrite Z.ltb_ge. split.
    + intros H. right. split; [now symmetry|assumption].
    + intros [H|[_ H]]; [|assumption].
      rewrite Hc in H. exfalso. now apply (Qlt_irrefl (Analytics.coverage a)).
  - apply Qlt_alt in Hc. split; [discriminate|].
    intros [H|[H _]].
    + exfalso. apply (Qlt_irrefl (Analytics.coverage a)). now apply (Qlt_trans _ (Analytics.coverage b)).
    + rewrite H in Hc. exfalso. now apply (Qlt_irrefl (Analytics.coverage b)).
  - apply Qgt_alt in Hc. split; [auto|reflexivity].
Qed.

Lemma sortsBefore_true a b : Analytics.sortsBefore a b = true -> Spec.ranksBefore a b.
Proof.
  unfold Analytics.sortsBefore, Spec.ranksBefore.
  destruct (Analytics.coverage b ?= Analytics.coverage a)%Q eqn:Hc; [| |discriminate].
  - apply Qeq_alt in Hc. rewrite Z.ltb_lt. intros H. right. split; [assumption|lia].
  - apply Qlt_alt in Hc. auto.
Qed.

Lemma ranksBefore_trans a b c :
  Spec.ranksBefore a b -> Spec.ranksBefore b c -> Spec.ranksBefore a c.
Proof.
  unfold Spec.ranksBefore. intros [H1|[H1 M1]] [H2|[H2 M2]].
  - left. now apply (Qlt_trans _ (Analytics.coverage b)).
  - left. now rewrite H2.
  - left. now rewrite <- H1.
  - right. split; [now rewrite H2|lia].
Qed.

Lemma insertEdge_sorted x l :
  StronglySorted Spec.ranksBefore l -> StronglySorted Spec.ranksBefore (Analytics.insertEdge x l).
Proof.
  induction 1 as [|y l Hl IH Hy]; simpl.
  - constructor; constructor.
  - destruct (Analytics.sortsBefore x y) eqn:Hxy.
    + apply sortsBefore_true in Hxy. constructor.
      * now constructor.
      * constructor; [assumption|].
        eapply Forall_impl; [exact Hy|]. intros z Hz. now apply (ranksBefore_trans x y z).
    + apply sortsBefore_false in Hxy. constructor; [assumption|].
      rewrite insertEdge_perm. now constructor.
Qed.

Lemma sortEdges_sorted l : StronglySorted Spec.ranksBefore (Analytics.sortEdges l).
Proof.
  unfold Analytics.sortEdges.
  assert (H : forall acc, StronglySorted Spec.ranksBefore acc ->
                          StronglySorted Spec.ranksBefore
                            (fold_left (fun acc x => Analytics.insertEdge x acc) l acc)).
  { induction l as [|x l IH]; intros acc Hacc; simpl; [assumption|].
    apply IH. now apply insertEdge_sorted. }
  apply H. constructor.
Qed.

Lemma take_sorted {A} (R : A -> A -> Prop) n l :
  StronglySorted R l -> StronglySorted R (take n l).
Proof.
  intros H. revert n. induction H as [|x l Hl IH Hx]; intros [|n]; simpl; try constructor.
  - apply IH.
  - rewrite Forall_forall in *. intros y Hy. apply Hx. now apply (subseteq_take n l).
Qed.

(** X17: when every statement it sends is answered, [inferFkEdges]
    returns at most 30 edges: the edges found, arranged so that an edge
    comes before every edge of lower coverage, or of the same coverage and
    fewer matched rows, and cut after the first 30. *)
Theorem inferFkEdges_ranking (st : Store.t) (tables : list string) :
  Spec.answered st (Analytics.inferFkEdges st tables) ->
  exists edges found ranked,
    Store.outcome (Analytics.inferFkEdges st tables) = Store.Ok edges
    /\ Store.outcome (Analytics.tablesEdges st tables tables) = Store.Ok found
    /\ ranked ≡ₚ found
    /\ StronglySorted Spec.ranksBefore ranked
    /\ edges = take 30 ranked
    /\ length edges <= 30
    /\ StronglySorted Spec.ranksBefore edges.
Proof.
  intros Hall.
  destruct (faithful_returns _ st _ (inferFkEdges_faithful st tables) Hall) as [edges He].
  destruct (inferFkEdges_ok _ _ _ He) as (found & Hf & ->).
  exists (take 30 (Analytics.sortEdges found)), found, (Analytics.sortEdges found).
  split; [assumption|]. split; [assumption|]. split; [apply sortEdges_perm|].
  split; [apply sortEdges_sorted|]. split; [reflexivity|].
  split; [rewrite length_take; lia|]. apply take_sorted, sortEdges_sorted.
Qed.

Lemma inferFkEdges_ranking_witness :
  exists edges,
    Store.outcome (Analytics.inferFkEdges (Sql.store Examples.shop) Examples.shopTables)
    = Store.Ok edges
    /\ StronglySorted Spec.ranksBefore edges.
Proof.
  destruct (inferFkEdges_ranking (Sql.store Examples.shop) Examples.shopTables)
    as (edges & found & ranked & He & _ & _ & _ & _ & _ & Hs).
  - intros q Hq. vm_compute in Hq.
    repeat (apply elem_of_cons in Hq; destruct Hq as [->|Hq]; [reflexivity|]).
    inversion Hq.
  - exists edges. auto.
Defined.

(** ** The two ends of an edge *)

Lemma lowerToOrig_lookup tables v n :
  Analytics.lowerToOrig tables !! v = Some n -> n ∈ tables /\ Js.toLowerCase n = v.
Proof.
  unfold Analytics.lowerToOrig.
  assert (H : forall m : gmap string string,
             fold_left (fun m n => <[Js.toLowerCase n := n]> m) tables m !! v = Some n ->
             m !! v = Some n \/ (n ∈ tables /\ Js.toLowerCase n = v)).
  { induction tables as [|t tables IH]; intros m; simpl; [auto|].
    intros H. apply IH in H. destruct H as [H|[Hin Hl]].
    - destruct (decide (Js.toLowerCase t = v)) as [Heq|Hne].
      + subst v. rewrite lookup_insert_eq in H. injection H as <-.
        right. split; [constructor|reflexivity].
      + rewrite lookup_insert_ne in H by assumption. auto.
    - right. split; [now constructor|assumption]. }
  intros Hl. apply H in Hl. destruct Hl as [Hl|Hl]; [|assumption].
  rewrite lookup_empty in Hl. discriminate.
Qed.

(** X18: both ends of an edge of [inferFkEdges] are tables of the list it
    was given; the lower-cased name of the target is the base of the column
    name, its singular, or one of the two followed by [s]. *)
Theorem inferFkEdges_endpoints (st : Store.t) (tables : list string)
        (edges : list Analytics.FkEdge) :
  Store.outcome (Analytics.inferFkEdges st tables) = Store.Ok edges ->
  Forall (fun e =>
            Analytics.source e ∈ tables /\ Analytics.target e ∈ tables
            /\ exists base,
                 Analytics.candidateBase (Analytics.col e) = Some base
                 /\ Js.toLowerCase (Analytics.target e)
                    ∈ [base; Analytics.singularize base; base +:+ "s";
                       Analytics.singularize base +:+ "s"]) edges.
Proof.
  intros H. rewrite Forall_forall. intros e He.
  pose proof (inferFkEdges_from_column _ _ _ _ H He) as Hfrom.
  pose proof (cameFrom_source _ _ _ _ Hfrom) as Hsrc.
  destruct Hfrom as (child & cols & c & _ & _ & _ & Hc).
  destruct (columnEdge_some _ _ _ _ _ Hc) as (_ & Hcol & base & pre & post & Hb & Hp & _).
  assert (Hin : Analytics.target e ∈ Analytics.parentsOf tables base)
    by (rewrite Hp; set_solver).
  unfold Analytics.parentsOf in Hin. apply list_elem_of_omap in Hin.
  destruct Hin as (v & Hv & Hl). apply lowerToOrig_lookup in Hl. destruct Hl as [Ht Hlow].
  split; [assumption|]. split; [assumption|].
  exists base. rewrite Hcol. split; [assumption|].
  rewrite Hlow. unfold Analytics.variants in Hv. apply (proj1 (setOf_elem _ _)) in Hv. exact Hv.
Qed.

Lemma inferFkEdges_endpoints_witness :
  Forall (fun e => Analytics.source e ∈ Examples.shopTables
                   /\ Analytics.target e ∈ Examples.shopTables)
         (match Store.outcome (Analytics.inferFkEdges (Sql.store Examples.shop)
                                 Examples.shopTables) with
          | Store.Ok edges => edges
          | Store.Err _ => []
          end).
Proof.
  eapply Forall_impl.
  - apply (inferFkEdges_endpoints (Sql.store Examples.shop) Examples.shopTables).
    vm_compute. reflexivity.
  - simpl. intros e (Hs & Ht & _). auto.
Defined.

(** ** Sorting and cutting, as the dashboard does *)

Section Descending.

Context {A : Type} (key : A -> Z).

Let R (a b : A) : Prop := (key b <= key a)%Z.

Lemma insertDescending_perm x l : Js.insertDescending key x l ≡ₚ x :: l.
Proof.
  induction l as [|y l IH]; simpl; [reflexivity|].
  destruct (Z.ltb (key y) (key x)); [reflexivity|].
  rewrite IH. apply Permutation_swap.
Qed.

Lemma sortDescending_perm l : Js.sortDescending key l ≡ₚ l.
Proof.
  unfold Js.sortDescending.
  assert (H : forall acc, fold_left (fun acc x => Js.insertDescending key x acc) l acc ≡ₚ acc ++ l).
  { induction l as [|x l IH]; intros acc; simpl; [now rewrite app_nil_r|].
    rewrite IH, insertDescending_perm. simpl. apply Permutation_middle. }
  now rewrite H.
Qed.

Lemma insertDescending_sorted x l :
  StronglySorted R l -> StronglySorted R (Js.insertDescending key x l).
Proof.
  induction 1 as [|y l Hl IH Hy]; simpl.
  - constructor; constructor.
  - destruct (Z.ltb_spec (key y) (key x)) as [Hlt|Hge].
    + constructor; [now constructor|].
      constructor; [unfold R; lia|].
      eapply Forall_impl; [exact Hy|]. unfold R. intros z Hz. lia.
    + constructor; [assumption|].
      rewrite insertDescending_perm. constructor; [exact Hge|assumption].
Qed.

Lemma sortDescending_sorted l : StronglySorted R (Js.sortDescending key l).
Proof.
  unfold Js.sortDescending.
  assert (H : forall acc, StronglySorted R acc ->
                          StronglySorted R (fold_left (fun acc x => Js.insertDescending key x acc) l acc)).
  { induction l as [|x l IH]; intros acc Hacc; simpl; [assumption|].
    apply IH. now apply insertDescending_sorted. }
  apply H. constructor.
Qed.

Lemma sliceTo_take n (l : list A) :
  Js.sliceTo n l
  = take (Z.to_nat (Z.max 0 (Z.min (if Z.ltb n 0 then Z.of_nat (length l) + n else n)
                                   (Z.of_nat (length l))))) l.
Proof.
  unfold Js.sliceTo. destruct (Z.ltb_spec n 0) as [Hn|Hn].
  - f_equal. lia.
  - destruct (Z.le_gt_cases n (Z.of_nat (length l))) as [Hle|Hgt].
    + f_equal. lia.
    + rewrite !take_ge by lia. reflexivity.
Qed.

Lemma sliceTo_sorted_top n l :
  Spec.topBy key n l (Js.sliceTo n (Js.sortDescending key l)).
Proof.
  unfold Spec.topBy. rewrite sliceTo_take.
  set (k := Z.to_nat _).
  exists (drop k (Js.sortDescending key l)).
  rewrite take_drop. split; [apply sortDescending_perm|].
  split; [apply sortDescending_sorted|].
  rewrite length_take. unfold k.
  pose proof (Permutation_length (sortDescending_perm l)) as Hlen.
  rewrite Hlen. lia.
Qed.

End Descending.

(** [kept] is read through [f], which keeps the key. *)
Lemma topBy_map {A B} (key : A -> Z) (key' : B -> Z) (f : A -> B) n all kept :
  (forall a, key' (f a) = key a) ->
  Spec.topBy key n all kept -> Spec.topBy key' n (map f all) (map f kept).
Proof.
  intros Hf (rest & Hp & Hs & Hl). exists (map f rest). rewrite <- map_app.
  split; [now apply Permutation_map|]. split.
  - clear Hp Hl. induction Hs as [|x l Hl IH Hx]; simpl; constructor; [assumption|].
    rewrite Forall_map. eapply Forall_impl; [exact Hx|]. simpl. intros y. now rewrite !Hf.
  - now rewrite !length_map.
Qed.

(** X19: [useTopRows] returns the [n] tables with the most rows, the
    largest first ([n] tables short of the end when [n] is negative), each
    with its name and row count; [useSizeTop] does the same by size score,
    keeps the row and column counts, and colours the entry of index [i]
    with the colour [i] modulo the length of the palette. *)
Theorem useTopRows_top (stats : list Selectors.Stat) (n : Z) (palette : list string) :
  Spec.topBy snd n (map (fun s => (Selectors.name s, Selectors.rows s)) stats)
             (Selectors.useTopRows stats n)
  /\ Spec.topBy Selectors.sr_score n
       (map (fun s => {| Selectors.sr_name := Selectors.name s;
                         Selectors.sr_rows := Selectors.rows s;
                         Selectors.sr_cols := Selectors.cols s;
                         Selectors.sr_score := Selectors.sizeScore s;
                         Selectors.sr_fill := None |}) stats)
       (map (fun r => {| Selectors.sr_name := Selectors.sr_name r;
                         Selectors.sr_rows := Selectors.sr_rows r;
                         Selectors.sr_cols := Selectors.sr_cols r;
                         Selectors.sr_score := Selectors.sr_score r;
                         Selectors.sr_fill := None |})
            (Selectors.useSizeTop stats n palette))
  /\ (forall i r, Selectors.useSizeTop stats n palette !! i = Some r ->
        palette <> [] ->
        Selectors.sr_fill r = palette !! (i mod length palette)
        /\ is_Some (Selectors.sr_fill r)).
Proof.
  split; [|split].
  - unfold Selectors.useTopRows.
    apply (topBy_map Selectors.rows); [reflexivity|]. apply sliceTo_sorted_top.
  - unfold Selectors.useSizeTop.
    set (kept := Js.sliceTo n (Js.sortDescending Selectors.sizeScore stats)).
    assert (E : map (fun r => {| Selectors.sr_name := Selectors.sr_name r;
                                 Selectors.sr_rows := Selectors.sr_rows r;
                                 Selectors.sr_cols := Selectors.sr_cols r;
                                 Selectors.sr_score := Selectors.sr_score r;
                                 Selectors.sr_fill := None |})
                    (imap (fun i s =>
                             {| Selectors.sr_name := Selectors.name s;
                                Selectors.sr_rows := Selectors.rows s;
                                Selectors.sr_cols := Selectors.cols s;
                                Selectors.sr_score := Selectors.sizeScore s;
                                Selectors.sr_fill := match palette with
                                                     | [] => None
                                                     | _ => palette !! (i mod length palette)
                                                     end |}) kept)
                = map (fun s => {| Selectors.sr_name := Selectors.name s;
                                   Selectors.sr_rows := Selectors.rows s;
                                   Selectors.sr_cols := Selectors.cols s;
                                   Selectors.sr_score := Selectors.sizeScore s;
                                   Selectors.sr_fill := None |}) kept).
    { apply list_eq. intros i.
      change (map ?f ?l) with (f <$> l). rewrite !list_lookup_fmap, list_lookup_imap.
      destruct (kept !! i); reflexivity. }
    rewrite E. apply (topBy_map Selectors.sizeScore); [reflexivity|]. apply sliceTo_sorted_top.
  - intros i r Hr Hne. unfold Selectors.useSizeTop in Hr. rewrite list_lookup_imap in Hr.
    destruct (_ !! i) as [s|]; [|discriminate]. simpl in Hr. injection Hr as <-. simpl.
    destruct palette as [|p ps]; [congruence|]. split; [reflexivity|].
    apply lookup_lt_is_Some. apply Nat.mod_upper_bound. simpl. lia.
Qed.

(** ** Outbound references per table *)

Lemma countSource_keys m x :
  map fst (Selectors.countSource m x)
  = if bool_decide (x ∈ map fst m) then map fst m else map fst m ++ [x].
Proof.
  induction m as [|[k c] m IH]; simpl; [reflexivity|].
  destruct (String.eqb_spec k x) as [->|Hne]; simpl.
  - rewrite bool_decide_eq_true_2 by constructor. reflexivity.
  - rewrite IH. destruct (bool_decide (x ∈ map fst m)) eqn:Hd.
    + apply bool_decide_eq_true in Hd. rewrite bool_decide_eq_true_2 by now constructor.
      reflexivity.
    + apply bool_decide_eq_false in Hd.
      rewrite bool_decide_eq_false_2; [reflexivity|].
      intros Hin. apply elem_of_cons in Hin. destruct Hin as [Heq|Hin]; congruence.
Qed.

Lemma countSource_countOf m x k :
  Spec.countOf (Selectors.countSource m x) k
  = (Spec.countOf m k + if String.eqb k x then 1 else 0)%Z.
Proof.
  unfold Spec.countOf. induction m as [|[k' c'] m IH]; simpl.
  - rewrite (String.eqb_sym x k). destruct (String.eqb k x); reflexivity.
  - destruct (String.eqb_spec k' x) as [->|Hne]; simpl.
    + rewrite (String.eqb_sym x k). destruct (String.eqb k x); simpl; [reflexivity|lia].
    + destruct (String.eqb_spec k' k) as [->|Hk]; simpl; [|exact IH].
      destruct (String.eqb_spec k x); [congruence|lia].
Qed.

Lemma occurrences_snoc l x k :
  Spec.occurrences (l ++ [x]) k
  = (Spec.occurrences l k + if String.eqb k x then 1 else 0)%Z.
Proof.
  unfold Spec.occurrences. rewrite List.filter_app, length_app. simpl.
  destruct (String.eqb k x); simpl; lia.
Qed.

Lemma occurrences_pos l k : k ∈ l <-> (1 <= Spec.occurrences l k)%Z.
Proof.
  unfold Spec.occurrences. induction l as [|x l IH]; simpl.
  - split; [intros H; inversion H|lia].
  - rewrite elem_of_cons. destruct (String.eqb_spec k x) as [->|Hne]; simpl.
    + split; [lia|auto].
    + rewrite IH. split; [intros [H|H]; [congruence|assumption]|auto].
Qed.

Lemma outboundCounts_snoc l x :
  Selectors.outboundCounts (l ++ [x]) = Selectors.countSource (Selectors.outboundCounts l) x.
Proof. unfold Selectors.outboundCounts. now rewrite fold_left_app. Qed.

Lemma outboundCounts_spec sources :
  NoDup (map fst (Selectors.outboundCounts sources))
  /\ (forall k, k ∈ map fst (Selectors.outboundCounts sources) <-> k ∈ sources)
  /\ (forall k, Spec.countOf (Selectors.outboundCounts sources) k = Spec.occurrences sources k).
Proof.
  induction sources as [|x l (Hnd & Hk & Hc)] using rev_ind.
  - split; [constructor|]. split; [reflexivity|]. reflexivity.
  - rewrite outboundCounts_snoc, countSource_keys. split; [|split].
    + destruct (bool_decide (x ∈ map fst (Selectors.outboundCounts l))) eqn:Hd; [assumption|].
      apply bool_decide_eq_false in Hd. apply NoDup_app. split; [assumption|].
      split; [|apply NoDup_singleton].
      intros y Hy Hx. apply list_elem_of_singleton in Hx. congruence.
    + intros k. rewrite elem_of_app, list_elem_of_singleton, <- Hk.
      destruct (bool_decide (x ∈ map fst (Selectors.outboundCounts l))) eqn:Hd.
      * apply bool_decide_eq_true in Hd. split; [auto|]. intros [H| ->]; assumption.
      * rewrite elem_of_app, list_elem_of_singleton. reflexivity.
    + intros k. now rewrite countSource_countOf, occurrences_snoc, Hc.
Qed.

Lemma countOf_elem m k c :
  NoDup (map fst m) -> (k, c) ∈ m -> Spec.countOf m k = c.
Proof.
  unfold Spec.countOf. induction m as [|[k' c'] m IH]; simpl; intros Hnd Hin.
  - inversion Hin.
  - apply NoDup_cons in Hnd. destruct Hnd as [Hout Hnd].
    apply elem_of_cons in Hin. destruct Hin as [Heq|Hin].
    + injection Heq as -> ->. now rewrite String.eqb_refl.
    + destruct (String.eqb_spec k' k) as [->|Hne]; [|now apply IH].
      exfalso. apply Hout. apply list_elem_of_In, in_map_iff. exists (k, c).
      split; [reflexivity|now apply list_elem_of_In].
Qed.

(** X20: [useOutboundTop] counts, for each table that is the source of
    an edge, the edges that start at it, and returns the [n] tables with
    the most such edges, the largest count first: a table is listed at most
    once, and only with the number of edges it is the source of, which is
    at least 1. *)
Theorem useOutboundTop_counts (sources : list string) (n : Z) :
  Spec.topBy snd n (Selectors.outboundCounts sources) (Selectors.useOutboundTop sources n)
  /\ NoDup (map fst (Selectors.outboundCounts sources))
  /\ (forall k, k ∈ map fst (Selectors.outboundCounts sources) <-> k ∈ sources)
  /\ NoDup (map fst (Selectors.useOutboundTop sources n))
  /\ Forall (fun e => fst e ∈ sources
                      /\ snd e = Spec.occurrences sources (fst e)
                      /\ (1 <= snd e)%Z)
            (Selectors.useOutboundTop sources n).
Proof.
  destruct (outboundCounts_spec sources) as (Hnd & Hk & Hc).
  pose proof (sliceTo_sorted_top snd n (Selectors.outboundCounts sources)) as Htop.
  fold (Selectors.useOutboundTop sources n) in Htop.
  split; [assumption|]. split; [assumption|]. split; [assumption|].
  destruct Htop as (rest & Hp & _ & _).
  assert (Hsub : forall e, e ∈ Selectors.useOutboundTop sources n ->
                           e ∈ Selectors.outboundCounts sources).
  { intros e He. rewrite <- Hp. apply elem_of_app. auto. }
  split.
  - assert (Hnd' : NoDup (map fst (Selectors.useOutboundTop sources n ++ rest))).
    { change (map fst ?l) with (fst <$> l). rewrite Hp. exact Hnd. }
    rewrite map_app in Hnd'. apply NoDup_app in Hnd'. apply Hnd'.
  - rewrite Forall_forall. intros [k c] He. apply Hsub in He. simpl.
    assert (Hin : k ∈ sources).
    { apply Hk. apply list_elem_of_In, in_map_iff. exists (k, c).
      split; [reflexivity|now apply list_elem_of_In]. }
    assert (Hcount : c = Spec.occurrences sources k).
    { rewrite <- Hc. symmetry. now apply countOf_elem. }
    split; [assumption|]. split; [assumption|]. rewrite Hcount. now apply occurrences_pos.
Qed.

(** ** Declared types *)

Lemma upper_lower c : Js.upperChar (Js.lowerChar c) = Js.upperChar c.
Proof. each_ascii c; reflexivity. Qed.

Lemma toUpperCase_toLowerCase s : Js.toUpperCase (Js.toLowerCase s) = Js.toUpperCase s.
Proof. induction s as [|c s IH]; simpl; [reflexivity|]. now rewrite upper_lower, IH. Qed.

(** X21: [mapAffinity] does not see letter case; it reads each of the four
    affinity names, in any letter case, as that affinity, so the types
    the import declares are read back as declared; a missing or empty type
    is TEXT. *)
Theorem mapAffinity_reads_back :
  (forall s, AffinityMap.mapAffinity (Some (Js.toLowerCase s)) = AffinityMap.mapAffinity (Some s))
  /\ (forall s, AffinityMap.mapAffinity (Some (Js.toUpperCase s)) = AffinityMap.mapAffinity (Some s))
  /\ (forall a s,
        Js.toLowerCase s = Js.toLowerCase (AffinityMap.affinityText a) ->
        AffinityMap.mapAffinity (Some s) = a)
  /\ AffinityMap.mapAffinity None = TEXT
  /\ AffinityMap.mapAffinity (Some "") = TEXT.
Proof.
  assert (Hl : forall s, AffinityMap.mapAffinity (Some (Js.toLowerCase s))
                         = AffinityMap.mapAffinity (Some s)).
  { intros s. unfold AffinityMap.mapAffinity. now rewrite toUpperCase_toLowerCase. }
  split; [exact Hl|]. split; [|split; [|split; reflexivity]].
  - intros s. rewrite <- (Hl (Js.toUpperCase s)), toLowerCase_toUpperCase. apply Hl.
  - intros a s H. rewrite <- Hl, H, Hl. destruct a; reflexivity.
Qed.

(** ** The type distribution *)

Lemma countType_counts row c a :
  (if Affinity_eqb a INTEGER then Analytics.td_INTEGER (Analytics.countType row c)
   else if Affinity_eqb a REAL then Analytics.td_REAL (Analytics.countType row c)
   else if Affinity_eqb a NUMERIC then Analytics.td_NUMERIC (Analytics.countType row c)
   else Analytics.td_TEXT (Analytics.countType row c))
  = (if Affinity_eqb a INTEGER then Analytics.td_INTEGER row
     else if Affinity_eqb a REAL then Analytics.td_REAL row
     else if Affinity_eqb a NUMERIC then Analytics.td_NUMERIC row
     else Analytics.td_TEXT row)
    + (if Affinity_eqb (AffinityMap.mapAffinity (Some (Store.ti_type c))) a then 1 else 0)
  /\ Analytics.td_table (Analytics.countType row c) = Analytics.td_table row.
Proof.
  unfold Analytics.countType.
  destruct (AffinityMap.mapAffinity (Some (Store.ti_type c))), a; simpl; split; lia || reflexivity.
Qed.

Lemma declaredAs_cons a c cols :
  Spec.declaredAs a (c :: cols)
  = (if Affinity_eqb (AffinityMap.mapAffinity (Some (Store.ti_type c))) a then 1 else 0)
    + Spec.declaredAs a cols.
Proof.
  unfold Spec.declaredAs. simpl.
  destruct (Affinity_eqb (AffinityMap.mapAffinity (Some (Store.ti_type c))) a); reflexivity.
Qed.

Lemma declaredAs_total cols :
  Spec.declaredAs INTEGER cols + Spec.declaredAs REAL cols + Spec.declaredAs NUMERIC cols
  + Spec.declaredAs TEXT cols = length cols.
Proof.
  induction cols as [|c cols IH]; [reflexivity|].
  rewrite !declaredAs_cons. simpl length.
  destruct (AffinityMap.mapAffinity (Some (Store.ti_type c))); simpl; lia.
Qed.

Lemma typeRow_counts t cols :
  let r := Analytics.typeRow t cols in
  Analytics.td_table r = t
  /\ Analytics.td_INTEGER r = Spec.declaredAs INTEGER cols
  /\ Analytics.td_REAL r = Spec.declaredAs REAL cols
  /\ Analytics.td_NUMERIC r = Spec.declaredAs NUMERIC cols
  /\ Analytics.td_TEXT r = Spec.declaredAs TEXT cols.
Proof.
  unfold Analytics.typeRow.
  assert (H : forall row,
             let r := fold_left Analytics.countType cols row in
             Analytics.td_table r = Analytics.td_table row
             /\ Analytics.td_INTEGER r = Analytics.td_INTEGER row + Spec.declaredAs INTEGER cols
             /\ Analytics.td_REAL r = Analytics.td_REAL row + Spec.declaredAs REAL cols
             /\ Analytics.td_NUMERIC r = Analytics.td_NUMERIC row + Spec.declaredAs NUMERIC cols
             /\ Analytics.td_TEXT r = Analytics.td_TEXT row + Spec.declaredAs TEXT cols).
  { induction cols as [|c cols IH]; intros row.
    - unfold Spec.declaredAs. simpl. repeat split; lia.
    - destruct (IH (Analytics.countType row c)) as (Ht & Hi & Hr & Hn & Hx).
      destruct (countType_counts row c INTEGER) as [Ci Ct].
      destruct (countType_counts row c REAL) as [Cr _].
      destruct (countType_counts row c NUMERIC) as [Cn _].
      destruct (countType_counts row c TEXT) as [Cx _].
      simpl in Ci, Cr, Cn, Cx. rewrite !declaredAs_cons.
      change (fold_left Analytics.countType (c :: cols) row)
        with (fold_left Analytics.countType cols (Analytics.countType row c)).
      cbv zeta. split; [congruence|]. repeat split; lia. }
  simpl. destruct (H {| Analytics.td_table := t; Analytics.td_INTEGER := 0;
                        Analytics.td_REAL := 0; Analytics.td_NUMERIC := 0;
                        Analytics.td_TEXT := 0 |}) as (Ht & Hi & Hr & Hn & Hx).
  simpl in *. repeat split; assumption.
Qed.

Lemma typeRows_faithful st tables : Store.faithful eq st (Analytics.typeRows st tables).
Proof.
  induction tables as [|t rest IH]; simpl.
  - apply faithful_ret.
  - apply faithful_bind; [auto with faithful|]. intros cols.
    apply faithful_bind; [apply IH|]. intros out. apply faithful_ret.
Qed.

Lemma buildTypeDistribution_faithful st tables :
  Store.faithful eq st (Analytics.buildTypeDistribution st tables).
Proof.
  unfold Analytics.buildTypeDistribution.
  apply faithful_bind; [apply typeRows_faithful|]. intros out. apply faithful_ret.
Qed.

Lemma typeRows_ok st tables : forall out,
  Store.outcome (Analytics.typeRows st tables) = Store.Ok out ->
  Forall2 (fun r t => exists cols, Store.tableInfo st t = Store.Ok cols
                                   /\ r = Analytics.typeRow t cols) out tables.
Proof.
  induction tables as [|t rest IH]; simpl; intros out H.
  - apply ret_outcome in H. subst out. constructor.
  - bound H cols Hcols. change (Store.tableInfo st t = Store.Ok cols) in Hcols.
    bound H out' Hout. apply ret_outcome in H. subst out.
    constructor; [eauto|now apply IH].
Qed.

(** X22: when every statement it sends is answered,
    [buildTypeDistribution] returns at most 5 rows: the ones of the tables
    with the most columns, the largest first.  The row of a table counts
    its columns by the affinity [mapAffinity] reads from the declared
    type, and the four counts add up to the number of columns. *)
Theorem buildTypeDistribution_rows (st : Store.t) (tables : list string) :
  Spec.answered st (Analytics.buildTypeDistribution st tables) ->
  exists rows all,
    Store.outcome (Analytics.buildTypeDistribution st tables) = Store.Ok rows
    /\ Spec.topBy (fun r => Z.of_nat (Analytics.typeTotal r)) 5 all rows
    /\ length rows <= 5
    /\ Forall2 (fun r t =>
         exists cols,
           Store.tableInfo st t = Store.Ok cols
           /\ Analytics.td_table r = t
           /\ Analytics.td_INTEGER r = Spec.declaredAs INTEGER cols
           /\ Analytics.td_REAL r = Spec.declaredAs REAL cols
           /\ Analytics.td_NUMERIC r = Spec.declaredAs NUMERIC cols
           /\ Analytics.td_TEXT r = Spec.declaredAs TEXT cols
           /\ Analytics.td_INTEGER r + Analytics.td_REAL r + Analytics.td_NUMERIC r
              + Analytics.td_TEXT r = length cols) all tables.
Proof.
  intros Hall.
  destruct (faithful_returns _ st _ (buildTypeDistribution_faithful st tables) Hall)
    as [rows Hrows].
  pose proof Hrows as H. unfold Analytics.buildTypeDistribution in H.
  bound H every Hevery. apply ret_outcome in H.
  exists rows, every. split; [assumption|]. split; [|split].
  - subst rows. apply (sliceTo_sorted_top (fun r => Z.of_nat (Analytics.typeTotal r)) 5 every).
  - subst rows. rewrite length_take. lia.
  - apply typeRows_ok in Hevery. eapply Forall2_impl; [exact Hevery|].
    simpl. intros r t (cols & Hc & ->). exists cols. split; [assumption|].
    destruct (typeRow_counts t cols) as (Ht & Hi & Hr & Hn & Hx).
    repeat split; try assumption.
    rewrite Hi, Hr, Hn, Hx. apply declaredAs_total.
Qed.

Lemma buildTypeDistribution_rows_witness :
  exists rows,
    Store.outcome (Analytics.buildTypeDistribution (Sql.store Examples.shop) Examples.shopTables)
    = Store.Ok rows
    /\ length rows <= 5.
Proof.
  destruct (buildTypeDistribution_rows (Sql.store Examples.shop) Examples.shopTables)
    as (rows & all & Hr & _ & Hl & _).
  - intros q Hq. vm_compute in Hq.
    repeat (apply elem_of_cons in Hq; destruct Hq as [->|Hq]; [reflexivity|]).
    inversion Hq.
  - exists rows. auto.
Defined.

(** ** Manual overrides *)

Lemma spread_idem c p : Overrides.spread (Overrides.spread c p) p = Overrides.spread c p.
Proof. destruct c as [a b], p as [[x|] [y|]]; reflexivity. Qed.

Lemma overrideOf_set ov table column patch t c :
  Overrides.overrideOf (Overrides.setColumnOverride ov table column patch) t c
  = if decide (t = table /\ c = column)
    then Overrides.spread (Overrides.overrideOf ov table column) patch
    else Overrides.overrideOf ov t c.
Proof.
  unfold Overrides.overrideOf, Overrides.setColumnOverride.
  destruct (decide (t = table)) as [->|Ht].
  - rewrite lookup_insert_eq. simpl.
    destruct (decide (c = column)) as [->|Hc].
    + rewrite lookup_insert_eq. simpl. rewrite decide_True by auto. reflexivity.
    + rewrite lookup_insert_ne by congruence. rewrite decide_False by tauto. reflexivity.
  - rewrite lookup_insert_ne by congruence. rewrite decide_False by tauto. reflexivity.
Qed.

(** X23: [setColumnOverride] merges the patch into the override of the
    one column it names, the fields of the patch winning, and leaves every
    other column and table as it was; applying the same patch twice is
    applying it once, and patches of two different columns can be applied
    in either order. *)
Theorem setColumnOverride_cell (ov : gmap string (gmap string Overrides.ColumnOverride))
        (table column : string) (patch : Overrides.ColumnOverride) :
  let next := Overrides.setColumnOverride ov table column patch in
  Overrides.overrideOf next table column
  = Overrides.spread (Overrides.overrideOf ov table column) patch
  /\ (forall t c, (t, c) <> (table, column) ->
        Overrides.overrideOf next t c = Overrides.overrideOf ov t c)
  /\ (forall t, t <> table -> next !! t = ov !! t)
  /\ (forall c, c <> column ->
        default ∅ (next !! table) !! c = default ∅ (ov !! table) !! c)
  /\ Overrides.setColumnOverride next table column patch = next
  /\ (forall t c p, (t, c) <> (table, column) ->
        Overrides.setColumnOverride next t c p
        = Overrides.setColumnOverride (Overrides.setColumnOverride ov t c p) table column patch).
Proof.
  simpl. split; [|split; [|split; [|split; [|split]]]].
  - rewrite overrideOf_set, decide_True by auto. reflexivity.
  - intros t c Hne. rewrite overrideOf_set, decide_False; [reflexivity|].
    intros [-> ->]. congruence.
  - intros t Ht. unfold Overrides.setColumnOverride. now rewrite lookup_insert_ne by congruence.
  - intros c Hc. unfold Overrides.setColumnOverride. rewrite lookup_insert_eq. simpl.
    now rewrite lookup_insert_ne by congruence.
  - unfold Overrides.setColumnOverride. rewrite !lookup_insert_eq. simpl.
    rewrite !lookup_insert_eq. simpl. rewrite spread_idem.
    now rewrite !insert_insert_eq.
  - intros t c p Hne. unfold Overrides.setColumnOverride.
    destruct (decide (t = table)) as [->|Ht].
    + assert (Hc : c <> column) by congruence.
      rewrite !lookup_insert_eq. simpl. rewrite !insert_insert_eq.
      rewrite !lookup_insert_ne by congruence.
      f_equal. apply insert_insert_ne. congruence.
    + rewrite !lookup_insert_ne by congruence.
      apply insert_insert_ne. congruence.
Qed.

(** X24: [clearTableOverrides] removes the entry of the table, whatever
    it held, and nothing else; it undoes every [setColumnOverride] on that
    table, and clearing twice is clearing once. *)
Theorem clearTableOverrides_table (ov : gmap string (gmap string Overrides.ColumnOverride))
        (table : string) :
  let next := Overrides.clearTableOverrides ov table in
  next !! table = None
  /\ (forall t, t <> table -> next !! t = ov !! t)
  /\ (forall c, Overrides.overrideOf next table c = Overrides.noOverride)
  /\ Overrides.clearTableOverrides next table = next
  /\ (forall c p,
        Overrides.clearTableOverrides (Overrides.setColumnOverride ov table c p) table = next).
Proof.
  assert (E : Overrides.clearTableOverrides ov table = delete table ov).
  { unfold Overrides.clearTableOverrides. destruct (ov !! table) eqn:H; [reflexivity|].
    symmetry. now apply delete_id. }
  simpl. rewrite E. split; [|split; [|split; [|split]]].
  - apply lookup_delete_eq.
  - intros t Ht. now rewrite lookup_delete_ne by congruence.
  - intros c. unfold Overrides.overrideOf. now rewrite lookup_delete_eq.
  - unfold Overrides.clearTableOverrides. now rewrite lookup_delete_eq.
  - intros c p. unfold Overrides.clearTableOverrides, Overrides.setColumnOverride.
    rewrite lookup_insert_eq. apply delete_insert_eq.
Qed.

Lemma flagOf_effective key t c ov autoPk autoUnique :
  Overrides.flagOf key (Overrides.getEffectiveFlags t c ov autoPk autoUnique)
  = default (default false (match key with
                            | Overrides.KIsPk => autoPk
                            | Overrides.KIsUnique => autoUnique
                            end))
            (Overrides.asBoolean (Overrides.fieldOf key (Overrides.overrideOf ov t c))).
Proof. destruct key; reflexivity. Qed.

Lemma toggleOverride_set ov t c key :
  Overrides.toggleOverride ov t c key
  = Overrides.setColumnOverride ov t c
      (Overrides.patchOf key
         (negb (default false
                  (Overrides.asBoolean (Overrides.fieldOf key (Overrides.overrideOf ov t c)))))).
Proof.
  unfold Overrides.toggleOverride, Overrides.overrideOf.
  destruct (default ∅ (ov !! t) !! c) as [co|]; simpl; [reflexivity|].
  destruct key; reflexivity.
Qed.

(** X25: after [toggleOverride], the effective flag of the key is the
    negation of what the override held for it (false when it held no
    boolean), whatever the automatic flag; the flag of the other key, and
    the flags of every other column, are as before; toggling twice leaves
    the effective flag at what the override held at first. *)
Theorem toggleOverride_flags (ov : gmap string (gmap string Overrides.ColumnOverride))
        (table column : string) (key : Overrides.OverrideKey)
        (autoPk autoUnique : option bool) :
  let held := default false
                (Overrides.asBoolean
                   (Overrides.fieldOf key (Overrides.overrideOf ov table column))) in
  let next := Overrides.toggleOverride ov table column key in
  Overrides.flagOf key (Overrides.getEffectiveFlags table column next autoPk autoUnique)
  = negb held
  /\ (forall other, other <> key ->
        Overrides.flagOf other (Overrides.getEffectiveFlags table column next autoPk autoUnique)
        = Overrides.flagOf other (Overrides.getEffectiveFlags table column ov autoPk autoUnique))
  /\ (forall t c, (t, c) <> (table, column) ->
        Overrides.getEffectiveFlags t c next autoPk autoUnique
        = Overrides.getEffectiveFlags t c ov autoPk autoUnique)
  /\ Overrides.flagOf key
       (Overrides.getEffectiveFlags table column
          (Overrides.toggleOverride next table column key) autoPk autoUnique)
     = held.
Proof.
  simpl.
  assert (Hnext : forall o,
             Overrides.overrideOf (Overrides.toggleOverride o table column key) table column
             = Overrides.spread (Overrides.overrideOf o table column)
                 (Overrides.patchOf key
                    (negb (default false
                             (Overrides.asBoolean
                                (Overrides.fieldOf key (Overrides.overrideOf o table column))))))).
  { intros o. rewrite toggleOverride_set, overrideOf_set, decide_True by auto. reflexivity. }
  split; [|split; [|split]].
  - rewrite flagOf_effective, Hnext. destruct key; reflexivity.
  - intros other Hother. rewrite !flagOf_effective, Hnext.
    destruct key, other; try congruence; reflexivity.
  - intros t c Hne.
    assert (E : Overrides.overrideOf (Overrides.toggleOverride ov table column key) t c
                = Overrides.overrideOf ov t c).
    { rewrite toggleOverride_set, overrideOf_set, decide_False; [reflexivity|].
      intros [-> ->]. congruence. }
    unfold Overrides.getEffectiveFlags. unfold Overrides.overrideOf in E. now rewrite E.
  - rewrite flagOf_effective, !Hnext.
    destruct key, (Overrides.overrideOf ov table column) as [[[[|]|]|] [[[|]|]|]];
      reflexivity.
Qed.

(** ** Keys of references *)

Lemma split_at_first c a a' r r' :
  Spec.freeOf c a = true -> Spec.freeOf c a' = true ->
  a +:+ String c r = a' +:+ String c r' -> a = a' /\ r = r'.
Proof.
  unfold Spec.freeOf. revert a'. induction a as [|x a IH]; intros [|x' a']; simpl.
  - intros _ _ H. rewrite !append_nil in H. now injection H.
  - intros _ H' H. rewrite append_nil, append_cons in H. injection H as <- _.
    rewrite Ascii.eqb_refl in H'. discriminate.
  - intros H' _ H. rewrite append_nil, append_cons in H. injection H as -> _.
    rewrite Ascii.eqb_refl in H'. discriminate.
  - intros Ha Ha' H. rewrite !append_cons in H. injection H as -> H.
    apply andb_prop in Ha, Ha'. destruct Ha as [_ Ha], Ha' as [_ Ha'].
    destruct (IH a' Ha Ha' H) as [-> ->]. auto.
Qed.

(** X26: [fkKey] tells two references apart when, in both, the source
    table holds no dot, the source column no hyphen and the target table no
    dot; [manualEdgeId] then does as well.  Without that it need not: the
    column [b.c] of table [a] and the column [c] of table [a.b] get the
    same key. *)
Theorem fkKey_injective (k k' : SqliteMeta.FKTuple) :
  Spec.freeOf "." (SqliteMeta.fromTable k) = true ->
  Spec.freeOf "-" (SqliteMeta.fromColumn k) = true ->
  Spec.freeOf "." (SqliteMeta.toTable k) = true ->
  Spec.freeOf "." (SqliteMeta.fromTable k') = true ->
  Spec.freeOf "-" (SqliteMeta.fromColumn k') = true ->
  Spec.freeOf "." (SqliteMeta.toTable k') = true ->
  (FkKey.fkKey k = FkKey.fkKey k' -> k = k')
  /\ (FkKey.manualEdgeId k = FkKey.manualEdgeId k' -> k = k')
  /\ FkKey.fkKey {| SqliteMeta.fromTable := "a"; SqliteMeta.fromColumn := "b.c";
                    SqliteMeta.toTable := "t"; SqliteMeta.toColumn := "id" |}
     = FkKey.fkKey {| SqliteMeta.fromTable := "a.b"; SqliteMeta.fromColumn := "c";
                      SqliteMeta.toTable := "t"; SqliteMeta.toColumn := "id" |}.
Proof.
  intros H1 H2 H3 H1' H2' H3'.
  assert (Hinj : FkKey.fkKey k = FkKey.fkKey k' -> k = k').
  { unfold FkKey.fkKey. destruct k as [a b c d], k' as [a' b' c' d']. simpl in *.
    change ("." +:+ ?x) with (String "."%char x).
    change ("->" +:+ ?x) with (String "-"%char (String ">"%char x)).
    intros H.
    apply split_at_first in H; [|assumption..]. destruct H as [-> H].
    apply split_at_first in H; [|assumption..]. destruct H as [-> H].
    injection H as H.
    apply split_at_first in H; [|assumption..]. destruct H as [-> ->]. reflexivity. }
  split; [exact Hinj|]. split; [|reflexivity].
  unfold FkKey.manualEdgeId. intros H. apply Hinj.
  now apply (inj (String.app "mfk-")) in H.
Qed.

Lemma fkKey_injective_witness :
  FkKey.fkKey {| SqliteMeta.fromTable := "orders"; SqliteMeta.fromColumn := "user_id";
                 SqliteMeta.toTable := "users"; SqliteMeta.toColumn := "id" |}
  = "orders.user_id->users.id"
  /\ {| SqliteMeta.fromTable := "orders"; SqliteMeta.fromColumn := "user_id";
        SqliteMeta.toTable := "users"; SqliteMeta.toColumn := "id" |}
     = {| SqliteMeta.fromTable := "orders"; SqliteMeta.fromColumn := "user_" +:+ "id";
          SqliteMeta.toTable := "users"; SqliteMeta.toColumn := "id" |}.
Proof.
  split; [reflexivity|].
  apply (fkKey_injective
           {| SqliteMeta.fromTable := "orders"; SqliteMeta.fromColumn := "user_id";
              SqliteMeta.toTable := "users"; SqliteMeta.toColumn := "id" |}
           {| SqliteMeta.fromTable := "orders"; SqliteMeta.fromColumn := "user_" +:+ "id";
              SqliteMeta.toTable := "users"; SqliteMeta.toColumn := "id" |});
    reflexivity.
Defined.

(** ** The batches of [importOne] *)

Lemma sliceAt_rest {A} off (rows : list A) :
  UseCsvImport.sliceAt off rows ++ drop (off + UseCsvImport.BATCH) rows = drop off rows.
Proof.
  unfold UseCsvImport.sliceAt.
  destruct (Nat.le_gt_cases (off + UseCsvImport.BATCH) (length rows)) as [Hle|Hgt].
  - rewrite Nat.min_l by assumption.
    replace (off + UseCsvImport.BATCH - off) with UseCsvImport.BATCH by lia.
    rewrite <- drop_drop. apply take_drop.
  - rewrite Nat.min_r by lia. rewrite (drop_ge rows (off + _)) by lia.
    rewrite app_nil_r. apply take_ge. rewrite length_drop. lia.
Qed.

Lemma sliceAt_length {A} off (rows : list A) :
  off < length rows ->
  length (UseCsvImport.sliceAt off rows) = Nat.min UseCsvImport.BATCH (length rows - off).
Proof.
  intros H. unfold UseCsvImport.sliceAt. rewrite length_take, length_drop. lia.
Qed.

Lemma slicesFrom_spec {A} (rows : list A) : forall fuel off,
  length rows - off <= fuel ->
  concat (UseCsvImport.slicesFrom fuel off rows) = drop off rows
  /\ Forall (fun s => 1 <= length s <= UseCsvImport.BATCH) (UseCsvImport.slicesFrom fuel off rows)
  /\ length rows - off <= length (UseCsvImport.slicesFrom fuel off rows) * 1000
  /\ length (UseCsvImport.slicesFrom fuel off rows) * 1000 < length rows - off + 1000.
Proof.
  induction fuel as [|fuel IH]; intros off Hfuel.
  - simpl. rewrite drop_ge by lia. repeat split; [constructor|lia|lia].
  - simpl. destruct (Nat.ltb_spec off (length rows)) as [Hlt|Hge].
    + assert (Hf : length rows - (off + UseCsvImport.BATCH) <= fuel)
        by (unfold UseCsvImport.BATCH; lia).
      destruct (IH _ Hf) as (Hc & Hall & Hlo & Hhi).
      pose proof (sliceAt_length off rows Hlt) as Hlen.
      split; [|split; [|split]].
      * simpl. rewrite Hc. apply sliceAt_rest.
      * constructor; [|assumption]. rewrite Hlen. unfold UseCsvImport.BATCH. lia.
      * simpl. unfold UseCsvImport.BATCH in *. lia.
      * simpl. unfold UseCsvImport.BATCH in *. lia.
    + simpl. rewrite drop_ge by lia. repeat split; [constructor|lia|lia].
Qed.

(** The loop takes no more turns than there are rows: more fuel changes
    nothing. *)
Lemma slicesFrom_fuel {A} (rows : list A) : forall fuel fuel' off,
  length rows - off <= fuel -> length rows - off <= fuel' ->
  UseCsvImport.slicesFrom fuel off rows = UseCsvImport.slicesFrom fuel' off rows.
Proof.
  induction fuel as [|fuel IH]; intros fuel' off H H'.
  - destruct fuel' as [|fuel']; [reflexivity|]. simpl.
    destruct (Nat.ltb_spec off (length rows)); [lia|reflexivity].
  - destruct fuel' as [|fuel']; simpl.
    + destruct (Nat.ltb_spec off (length rows)); [lia|reflexivity].
    + destruct (Nat.ltb_spec off (length rows)); [|reflexivity].
      f_equal. apply IH; unfold UseCsvImport.BATCH; lia.
Qed.

Lemma progress_total {A} total (slices : list (list A)) : forall cur,
  cur <= total ->
  fold_left (fun cur slice => Nat.min (cur + length slice) total) slices cur
  = Nat.min (cur + length (concat slices)) total.
Proof.
  induction slices as [|s slices IH]; intros cur Hcur; simpl.
  - rewrite Nat.add_0_r. lia.
  - rewrite IH by lia. rewrite length_app. lia.
Qed.

Lemma sliceAt_take {A} off (rows : list A) :
  UseCsvImport.sliceAt off rows = take 1000 (drop off rows).
Proof.
  unfold UseCsvImport.sliceAt, UseCsvImport.BATCH.
  destruct (Nat.le_gt_cases (off + 1000) (length rows)) as [Hle|Hgt].
  - f_equal. lia.
  - rewrite !take_ge by (rewrite length_drop; lia). reflexivity.
Qed.

Lemma slicesFrom_lookup {A} (rows : list A) : forall fuel off i s,
  UseCsvImport.slicesFrom fuel off rows !! i = Some s ->
  s = take 1000 (drop (off + i * 1000) rows).
Proof.
  induction fuel as [|fuel IH]; intros off i s; simpl; [discriminate|].
  destruct (Nat.ltb off (length rows)); [|discriminate].
  destruct i as [|i]; simpl.
  - intros [= <-]. rewrite Nat.add_0_r. apply sliceAt_take.
  - intros H. apply IH in H. subst s. unfold UseCsvImport.BATCH. do 2 f_equal. lia.
Qed.

(** X27: [importOne] cuts the rows into batches of 1000: the batch of
    index [i] holds the rows from [1000 i] up to [1000 (i + 1)], or up to
    the end if that comes first, so every batch but the last holds exactly
    1000 rows and the last holds between 1 and 1000; the batches put end to
    end are the rows, so every row is written once and in order, with one
    literal per column; the progress counter ends at the number of rows.
    The loop takes no more turns than there are rows. *)
Theorem importOne_batches (fuel : nat) (cols : list Schema.InferredCol)
        (rows : list UseCsvImport.Row) :
  length rows <= fuel ->
  let slices := UseCsvImport.slicesFrom fuel 0 rows in
  slices = UseCsvImport.slicesFrom (length rows) 0 rows
  /\ concat slices = rows
  /\ (forall i s, slices !! i = Some s -> s = take 1000 (drop (i * 1000) rows))
  /\ (forall i s, slices !! i = Some s -> S i < length slices -> length s = 1000)
  /\ Forall (fun s => 1 <= length s <= 1000) slices
  /\ length rows <= length slices * 1000 < length rows + 1000
  /\ UseCsvImport.progress (length rows) slices = length rows
  /\ concat (UseCsvImport.insertBatches fuel cols rows) = UseCsvImport.valuesOf cols rows
  /\ Forall (Forall (fun tuple => length tuple = length cols))
            (UseCsvImport.insertBatches fuel cols rows).
Proof.
  intros Hfuel. simpl.
  destruct (slicesFrom_spec rows fuel 0) as (Hc & Hall & Hlo & Hhi); [lia|].
  rewrite Nat.sub_0_r in Hlo, Hhi. rewrite drop_0 in Hc.
  split; [apply slicesFrom_fuel; lia|]. split; [assumption|].
  split; [intros i s Hs; now apply slicesFrom_lookup in Hs|].
  split.
  { intros i s Hs Hi. apply slicesFrom_lookup in Hs. subst s.
    rewrite length_take, length_drop. lia. }
  split; [assumption|]. split; [lia|]. split; [|split].
  - unfold UseCsvImport.progress. rewrite progress_total by lia. rewrite Hc. lia.
  - unfold UseCsvImport.insertBatches, UseCsvImport.valuesOf.
    rewrite <- Hc at 2.
    generalize (UseCsvImport.slicesFrom fuel 0 rows). intros l.
    induction l as [|s l IH]; simpl; [reflexivity|]. now rewrite map_app, IH.
  - unfold UseCsvImport.insertBatches. rewrite Forall_map.
    apply Forall_forall. intros s _. unfold UseCsvImport.valuesOf.
    rewrite Forall_map. apply Forall_forall. intros r _. simpl. apply length_map.
Qed.

Lemma importOne_batches_witness :
  map length (UseCsvImport.slicesFrom 2500 0 (repeat [("a", "1")] 2001)) = [1000; 1000; 1]
  /\ concat (UseCsvImport.slicesFrom 2500 0 (repeat [("a", "1")] 2001))
     = repeat [("a", "1")] 2001
  /\ UseCsvImport.progress 2001 (UseCsvImport.slicesFrom 2500 0 (repeat [("a", "1")] 2001))
     = 2001.
Proof.
  split; [vm_compute; reflexivity|].
  destruct (importOne_batches 2500 [] (repeat [("a", "1")] 2001))
    as (_ & Hc & _ & _ & _ & _ & Hp & _).
  - rewrite repeat_length. lia.
  - split; [exact Hc|]. rewrite repeat_length in Hp. exact Hp.
Defined.

(** ** The sample of [guessAffinity] *)

Lemma sqlite_scanValue_blank st v : Sqlite.isBlank v = true -> Sqlite.scanValue st v = st.
Proof. unfold Sqlite.scanValue. now intros ->. Qed.

Lemma sqlite_scanValue_comm st a b :
  Sqlite.scanValue (Sqlite.scanValue st a) b = Sqlite.scanValue (Sqlite.scanValue st b) a.
Proof.
  unfold Sqlite.scanValue, Schema.bump.
  destruct (Sqlite.isBlank a), (Sqlite.isBlank b); try reflexivity.
  destruct a, b; simpl;
    repeat match goal with
           | |- context [if ?c then _ else _] => destruct c
           end; reflexivity.
Qed.

Lemma sqlite_scan_perm l l' : l ≡ₚ l' ->
  forall st, fold_left Sqlite.scanValue l st = fold_left Sqlite.scanValue l' st.
Proof.
  induction 1; intros st; simpl.
  - reflexivity.
  - apply IHPermutation.
  - now rewrite sqlite_scanValue_comm.
  - now rewrite IHPermutation1.
Qed.

Lemma sqlite_scan_nonblank l : forall st,
  fold_left Sqlite.scanValue (List.filter (fun v => negb (Sqlite.isBlank v)) l) st
  = fold_left Sqlite.scanValue l st.
Proof.
  induction l as [|v l IH]; intros st; simpl; [reflexivity|].
  destruct (Sqlite.isBlank v) eqn:Hb; simpl.
  - now rewrite (sqlite_scanValue_blank st v Hb).
  - apply IH.
Qed.

(** X28: [guessAffinity] does not depend on the order of the values, nor
    on the values that are null, undefined or the empty string: two samples
    with the same other values, each as many times, get the same guess. *)
Theorem guessAffinity_sample (values values' : list Js.value) :
  List.filter (fun v => negb (Sqlite.isBlank v)) values
  ≡ₚ List.filter (fun v => negb (Sqlite.isBlank v)) values' ->
  Sqlite.guessAffinity values = Sqlite.guessAffinity values'.
Proof.
  intros H. unfold Sqlite.guessAffinity.
  rewrite <- (sqlite_scan_nonblank values), <- (sqlite_scan_nonblank values').
  now rewrite (sqlite_scan_perm _ _ H).
Qed.

Lemma guessAffinity_sample_witness :
  Sqlite.guessAffinity [Js.Str "2"; Js.Null; Js.Str "x"]
  = Sqlite.guessAffinity [Js.Str "x"; Js.Str ""; Js.Undefined; Js.Str "2"].
Proof.
  apply (guessAffinity_sample [Js.Str "2"; Js.Null; Js.Str "x"]
           [Js.Str "x"; Js.Str ""; Js.Undefined; Js.Str "2"]).
  simpl. apply Permutation_swap.
Defined.
